(** * QDArchive harvester: admission pipeline, license classifier, retry loop

    A shallow embedding of the parts of the harvester that carry its
    invariants:

    - [harvester/helpers/licensing.py]   ([Licensing])
    - [harvester/cli.py]                 ([Pipeline], [Driver], [Queries],
                                          [Collect], [Overview], [Browse])
    - [harvester/sources/dataverse.py]   ([Dataverse], the download retry loop;
                                          [DataverseApi], search and helpers)
    - [harvester/storage/files.py]       ([Storage], [Slug])

    Python [str] values are lists of characters.  A character is one of Rocq's
    8-bit [ascii] values, read as the code point of the same number
    (U+0000..U+00FF); [lower], [isspace] and [strip] follow what Python does on
    that range.  The record store is the list of rows of the [File] table in
    insertion order, the disk is a finite map from paths to file contents.
    Loops are folds over the list they iterate, with the mutated variables as
    the accumulator; a call that raises is an explicit alternative of the
    result.  Console output and logging are left out. *)

From Stdlib Require Import ZArith Ascii String List Bool Lia.
From Stdlib Require DecimalString DecimalPos DecimalN.
From stdpp Require Import base option list gmap strings.

Import ListNotations.
Local Open Scope Z_scope.

Abbreviation text := (list ascii).

(** A Python string literal. *)
Definition txt (s : string) : text := list_ascii_of_string s.

(* ===================================================================== *)
(** * Part I: the embedding                                               *)
(* ===================================================================== *)

Module Text.

Definition code (c : ascii) : N := N_of_ascii c.

(** [str.isspace] on one character, which is also the class [\s] of [re] for
    [str] patterns: TAB..CR, FS..US, SPACE, NEL and NBSP below U+0100. *)
Definition isspace (c : ascii) : bool :=
  let n := code c in
  ((9 <=? n) && (n <=? 13) || (28 <=? n) && (n <=? 32)
   || (n =? 133) || (n =? 160))%N.

(** [str.lower] on one character: A..Z, and the Latin-1 capitals U+00C0..U+00DE
    without the multiplication sign U+00D7, move up by 32. *)
Definition lower_char (c : ascii) : ascii :=
  let n := code c in
  if ((65 <=? n) && (n <=? 90)
      || (192 <=? n) && (n <=? 222) && negb (n =? 215))%N
  then ascii_of_N (n + 32) else c.

Definition lower (s : text) : text := List.map lower_char s.

(** [s.replace(a, b)] for one-character [a] and [b]. *)
Definition replace_char (a b : ascii) (s : text) : text :=
  List.map (fun c => if Ascii.eqb c a then b else c) s.

(** [s.startswith(p)]. *)
Fixpoint startswith (s p : text) : bool :=
  match p, s with
  | [], _ => true
  | _ :: _, [] => false
  | a :: p', c :: s' => Ascii.eqb c a && startswith s' p'
  end.

(** [p in s] for strings: [p] occurs in [s] as a contiguous block. *)
Fixpoint contains (p s : text) : bool :=
  startswith s p ||
  match s with
  | [] => false
  | _ :: s' => contains p s'
  end.

(** [s.lstrip()], [s.rstrip()] and [s.strip()] with the default character
    set (whitespace). *)
Fixpoint lstrip (s : text) : text :=
  match s with
  | [] => []
  | c :: s' => if isspace c then lstrip s' else s
  end.

Fixpoint rstrip (s : text) : text :=
  match s with
  | [] => []
  | c :: s' =>
      match rstrip s' with
      | [] => if isspace c then [] else [c]
      | r => c :: r
      end
  end.

Definition strip (s : text) : text := rstrip (lstrip s).

(** [sep.join(parts)]. *)
Fixpoint join (sep : text) (parts : list text) : text :=
  match parts with
  | [] => []
  | [p] => p
  | p :: rest => p ++ sep ++ join sep rest
  end.

(** [s.split(sep)[-1]]: what follows the last occurrence of [sep] in [s]
    (all of [s] when [sep] does not occur).  [sep] is not empty. *)
Fixpoint split_last (sep s : text) : text :=
  match s with
  | [] => []
  | c :: s' =>
      if contains sep s' then split_last sep s'
      else if startswith s sep then skipn (length sep) s
      else s
  end.

Definition text_eqb (a b : text) : bool := bool_decide (a = b).

(** [x in S] for a set or list of strings. *)
Definition mem (x : text) (S : list text) : bool := existsb (text_eqb x) S.

End Text.

(* --------------------------------------------------------------------- *)
(** ** harvester/helpers/licensing.py                                     *)
(* --------------------------------------------------------------------- *)

Module Licensing.
Import Text.

(** Prefixes / identifiers that are considered open enough to collect. *)
Definition _ACCEPTED : list text := List.map txt
  [ "cc-by"; "cc-by-sa"; "cc-by-nc"; "cc-by-nc-sa"; "cc-by-nd"; "cc-by-nc-nd";
    "cc0"; "cc0-1.0"; "public domain"; "odc-by"; "odc-odbl"; "odc-pddl";
    "mit"; "apache-2.0"; "standard-access"; "etalab" ]%string.

(** Phrases found within long license text that indicate an open license. *)
Definition _OPEN_PHRASES : list text := List.map txt
  [ "creative commons"; "cc by"; "cc0"; "statistics canada open licence";
    "licence ouverte"; "public domain"; "not aware of any copyright";
    "no known restrictions"; "no known copyright restrictions";
    "non-restricted"; "fully open content"; "united states government work";
    "(a) openly available"; "(a) vapaasti" ]%string.

(** The lookahead of [<[^>]+>] after a ["<"]: one character that is not [">"],
    and a [">"] somewhere behind it. *)
Definition tag_opens (rest : text) : bool :=
  match rest with
  | [] => false
  | d :: r => negb (Ascii.eqb d ">") && existsb (Ascii.eqb ">") r
  end.

(** [re.sub(r"<[^>]+>", " ", s)], as the scan [re] performs: left to right,
    a match starts at a ["<"] whose lookahead succeeds and runs to the first
    [">"] behind it ([in_tag] is set inside a match); every match is
    replaced by one space, every other character is copied. *)
Fixpoint sub_tags (in_tag : bool) (s : text) : text :=
  match s with
  | [] => []
  | c :: rest =>
      if in_tag then
        if Ascii.eqb c ">" then sub_tags false rest else sub_tags true rest
      else if Ascii.eqb c "<" && tag_opens rest then " "%char :: sub_tags true rest
      else c :: sub_tags false rest
  end.

(** [re.sub(r"\s+", " ", s)]: every maximal run of whitespace becomes one
    space ([in_ws] is set inside a run). *)
Fixpoint sub_ws (in_ws : bool) (s : text) : text :=
  match s with
  | [] => []
  | c :: rest =>
      if isspace c then
        if in_ws then sub_ws true rest else " "%char :: sub_ws true rest
      else c :: sub_ws false rest
  end.

(** The local [cleaned] of [license_is_open]. *)
Definition cleaned (identifier : text) : text :=
  strip (sub_ws false (sub_tags false identifier)).

(** The local [canonical] of [license_is_open]. *)
Definition canonical (cl : text) : text :=
  replace_char "_" "-" (replace_char " " "-" (lower cl)).

(** The two tests of [license_is_open] on the cleaned text. *)
Definition prefix_match (cl : text) : bool :=
  existsb (fun prefix => startswith (canonical cl) prefix) _ACCEPTED.

Definition phrase_match (cl : text) : bool :=
  existsb (fun phrase => contains phrase (lower cl)) _OPEN_PHRASES.

(** [license_is_open(identifier)]; [None] is Python's [None]. *)
Definition license_is_open (identifier : option text) : bool :=
  match identifier with
  | None => false
  | Some [] => false
  | Some s =>
      let cl := cleaned s in
      if prefix_match cl then true else phrase_match cl
  end.

(** [s] wrapped in an HTML element [<t>s</t>]. *)
Definition wrap_tag (t s : text) : text :=
  txt "<" ++ t ++ txt ">" ++ s ++ txt "</" ++ t ++ txt ">".

(** Every ["<"] of [s] has a [">"] somewhere behind it. *)
Fixpoint lt_closed (s : text) : bool :=
  match s with
  | [] => true
  | c :: rest =>
      (if Ascii.eqb c "<" then existsb (Ascii.eqb ">") rest else true)
      && lt_closed rest
  end.



(** The tags with the given bodies, one behind the other. *)
Fixpoint tags (bodies : list text) : text :=
  match bodies with
  | [] => []
  | body :: rest => txt "<" ++ body ++ txt ">" ++ tags rest
  end.

(** [s] wrapped in tags: the tags [opening] before it and the tags
    [closing] behind it. *)
Definition wrap_tags (opening closing : list text) (s : text) : text :=
  tags opening ++ s ++ tags closing.

End Licensing.

(* --------------------------------------------------------------------- *)
(** ** harvester/sources/base.py                                          *)
(* --------------------------------------------------------------------- *)

Module SourcesBase.

(** One entry of [DatasetHit.files], the dictionary every adapter builds with
    the keys "id", "name", "size", "content_type", "download_url",
    "restricted", "api_checksum" and, for some adapters, "friendly_type".
    [fi_id] is [str(finfo["id"])]; an optional field is [None] when the key is
    absent, and for "size" also when its value is [None].  Under the text
    keys the adapters store strings, under "restricted" a truth value. *)
Record FileInfo := {
  fi_id : text;
  fi_name : text;
  fi_size : option Z;
  fi_content_type : option text;
  fi_friendly_type : option text;
  fi_download_url : text;
  fi_restricted : bool;
  fi_api_checksum : option text;
}.

(** The dataclass [DatasetHit]. *)
Record DatasetHit := {
  source_name : text;
  source_url : text;
  title : text;
  description : text;
  authors : text;
  license_type : text;
  license_url : text;
  date_published : text;
  tags : list text;
  keywords : list text;
  kind_of_data : list text;
  language : list text;
  software : list text;
  geographic_coverage : list text;
  depositor : text;
  producer : list text;
  publication : list text;
  date_of_collection : text;
  time_period_covered : text;
  uploader_name : text;
  uploader_email : text;
  files : list FileInfo;
}.

(** What a call of [pull_file] does, as [_process_hits] sees it: it returns
    the path of the file it wrote, with the bytes it wrote there, or raises
    [httpx.HTTPStatusError] with a status code, or raises something else.
    A call that raises may have opened its target and written to it before
    (in this pass of its retry loop or in an earlier one): [leftover] is the file
    it leaves behind, its path with the bytes written, or [None] when it
    leaves no file. *)
Inductive pull_result :=
| PullOk (local : text) (content : list Byte.byte)
| PullHTTPStatusError (status_code : Z) (leftover : option (text * list Byte.byte))
| PullException (leftover : option (text * list Byte.byte)).

(** An instance of [BaseSource].  A call that raises has no value: [find] and
    [fetch_metadata] answer [None] then.  The same call gives the same
    answer. *)
Record BaseSource := {
  find : text -> option (list DatasetHit);
  fetch_metadata : text -> option DatasetHit;
  pull_file : text -> text -> text -> pull_result;
}.

End SourcesBase.

(* --------------------------------------------------------------------- *)
(** ** harvester/database/models.py and the session                       *)
(* --------------------------------------------------------------------- *)

Module Models.

(** Modelled from the spec: the declaration of the table [File]
    (database/models.py is not among the sources).  The columns are the
    keyword arguments of the two [File(...)] calls of [cli.py]; following the
    data model of the spec ("optional content hash, present only when the
    file was actually downloaded", "optional notes"), a column that a call
    leaves out is NULL ([None]). *)
Record File := {
  source_name : text;
  source_url : text;
  download_url : text;
  file_name : text;
  file_type : text;
  file_hash : option text;
  file_size_bytes : option Z;
  local_path : option text;
  local_directory : option text;
  license_type : text;
  license_url : text;
  title : text;
  description : text;
  authors : text;
  date_published : text;
  tags : option text;
  keywords : option text;
  kind_of_data : option text;
  language : option text;
  software : option text;
  geographic_coverage : option text;
  content_type : option text;
  friendly_type : option text;
  restricted : bool;
  api_checksum : option text;
  depositor : option text;
  producer : option text;
  publication : option text;
  date_of_collection : option text;
  time_period_covered : option text;
  uploader_name : option text;
  uploader_email : option text;
  is_qda_file : bool;
  notes : option text;
  downloaded_at : option Z;
}.

(** [session.query(File).filter_by(source_name=.., download_url=..).first()]
    is not [None]. *)
Definition exists_by_url (rows : list File) (sn url : text) : bool :=
  existsb (fun r => Text.text_eqb (source_name r) sn
                    && Text.text_eqb (download_url r) url) rows.

(** The same with [file_name=..] added. *)
Definition exists_by_url_name (rows : list File) (sn url fname : text) : bool :=
  existsb (fun r => Text.text_eqb (source_name r) sn
                    && Text.text_eqb (download_url r) url
                    && Text.text_eqb (file_name r) fname) rows.

(** [session.query(File).filter_by(file_hash=digest).first()] is not [None]. *)
Definition exists_by_hash (rows : list File) (digest : text) : bool :=
  existsb (fun r => bool_decide (file_hash r = Some digest)) rows.

(** [session.add(rec); session.commit()]. *)
Definition add (rows : list File) (rec : File) : list File := rows ++ [rec].

End Models.

(* --------------------------------------------------------------------- *)
(** ** harvester/settings.py, harvester/storage/files.py, the platform    *)
(* --------------------------------------------------------------------- *)

Module Settings.

(** The values [settings.py] reads from [config.yml]. *)
Record t := {
  DOWNLOAD_DIR : text;
  QDA_FORMATS : list text;
  QUALITATIVE_FORMATS : list text;
  EXCLUDED_RESOURCE_TYPES : list text;
  RELEVANCE_KEYWORDS : list text;
  FOLDER_NAMES : gmap text text;
}.

End Settings.

Module Platform.

(** Library calls the pipeline relies on, kept abstract: [pathlib], [hashlib],
    [unicodedata] and the clock. *)
Record t := {
  (** [Path(p).suffix] *)
  suffix : text -> text;
  (** [str(Path(a) / b)] *)
  joinpath : text -> text -> text;
  (** [str(Path(p).parent)] *)
  parent : text -> text;
  (** [Path(p).name] *)
  name : text -> text;
  (** [str(Path(p).relative_to(ROOT_DIR))] *)
  relative_to_root : text -> text;
  (** [hashlib.sha256(data).hexdigest()] *)
  sha256_hex : list Byte.byte -> text;
  (** [to_slug(text)] of storage/files.py, which folds Unicode to ASCII *)
  to_slug : text -> text;
  (** [datetime.utcnow()] at the n-th reading of the clock *)
  utcnow : nat -> Z;
}.

End Platform.

Module Storage.
Import Text.

(** [build_output_path(source_key, record_id, filename, title)]; the
    directories it creates are not part of the model. *)
Definition build_output_path (cfg : Settings.t) (sys : Platform.t)
    (source_key record_id filename : text) (title : text) : text :=
  let slug := match title with [] => [] | _ => Platform.to_slug sys title end in
  let folder :=
    match slug with
    | [] => record_id
    | _ => slug ++ txt "-" ++ record_id
    end in
  let full :=
    Platform.joinpath sys
      (Platform.joinpath sys (Settings.DOWNLOAD_DIR cfg) source_key) folder in
  Platform.joinpath sys full filename.

(** [sha256_digest(path)]: the digest of the bytes the disk holds at [path]. *)
Definition sha256_digest (sys : Platform.t)
    (disk : gmap text (list Byte.byte)) (path : text) : text :=
  Platform.sha256_hex sys (default [] (disk !! path)).

End Storage.

(* --------------------------------------------------------------------- *)
(** ** harvester/cli.py: the admission pipeline                           *)
(* --------------------------------------------------------------------- *)

Module Pipeline.
Import Text SourcesBase.

(** What the pipeline changes: the rows of the session, the files on disk,
    and how often the clock was read. *)
Record World := {
  store : list Models.File;
  disk : gmap text (list Byte.byte);
  ticks : nat;
}.

Definition with_store (w : World) (rows : list Models.File) : World :=
  {| store := rows; disk := disk w; ticks := ticks w |}.

(** The triple [(n_downloaded, n_restricted, n_skipped)]. *)
Record Stats := {
  n_downloaded : nat;
  n_restricted : nat;
  n_skipped : nat;
}.

Definition no_stats : Stats :=
  {| n_downloaded := 0; n_restricted := 0; n_skipped := 0 |}.

Definition add_downloaded (n : Stats) : Stats :=
  {| n_downloaded := S (n_downloaded n); n_restricted := n_restricted n;
     n_skipped := n_skipped n |}.

Definition add_restricted (n : Stats) : Stats :=
  {| n_downloaded := n_downloaded n; n_restricted := S (n_restricted n);
     n_skipped := n_skipped n |}.

Definition add_skipped (n : Stats) : Stats :=
  {| n_downloaded := n_downloaded n; n_restricted := n_restricted n;
     n_skipped := S (n_skipped n) |}.

(** ["; ".join(xs) if xs else None] *)
Definition join_or_none (xs : list text) : option text :=
  match xs with
  | [] => None
  | _ => Some (join (txt "; ") xs)
  end.

(** [s or None] *)
Definition or_none (s : text) : option text :=
  match s with
  | [] => None
  | _ => Some s
  end.

(** The row both [File(...)] calls build, up to the five columns in which
    they differ. *)
Definition make_record (source_name : text) (hit meta : DatasetHit)
    (finfo : FileInfo) (fname ext : text) (qda_flag : bool)
    (file_hash local_path local_directory notes : option text)
    (downloaded_at : option Z) : Models.File :=
  {| Models.source_name := source_name;
     Models.source_url := source_url hit;
     Models.download_url := fi_download_url finfo;
     Models.file_name := fname;
     Models.file_type := ext;
     Models.file_hash := file_hash;
     Models.file_size_bytes := fi_size finfo;
     Models.local_path := local_path;
     Models.local_directory := local_directory;
     Models.license_type := license_type meta;
     Models.license_url := license_url meta;
     Models.title := title meta;
     Models.description := description meta;
     Models.authors := authors meta;
     Models.date_published := date_published meta;
     Models.tags := join_or_none (tags meta);
     Models.keywords := join_or_none (keywords meta);
     Models.kind_of_data := join_or_none (kind_of_data meta);
     Models.language := join_or_none (language meta);
     Models.software := join_or_none (software meta);
     Models.geographic_coverage := join_or_none (geographic_coverage meta);
     Models.content_type := fi_content_type finfo;
     Models.friendly_type := fi_friendly_type finfo;
     Models.restricted := fi_restricted finfo;
     Models.api_checksum := fi_api_checksum finfo;
     Models.depositor := or_none (depositor meta);
     Models.producer := join_or_none (producer meta);
     Models.publication := join_or_none (publication meta);
     Models.date_of_collection := or_none (date_of_collection meta);
     Models.time_period_covered := or_none (time_period_covered meta);
     Models.uploader_name := or_none (uploader_name meta);
     Models.uploader_email := or_none (uploader_email meta);
     Models.is_qda_file := qda_flag;
     Models.notes := notes;
     Models.downloaded_at := downloaded_at |}.

(** [_store_metadata_record(session, source_name, hit, meta, finfo, fname, ext,
    qda_flag, folder, notes)]: persist a record where the file itself was not
    downloaded. *)
Definition _store_metadata_record (session : list Models.File)
    (source_name : text) (hit meta : DatasetHit) (finfo : FileInfo)
    (fname ext : text) (qda_flag : bool) (folder : option text) (notes : text)
    : list Models.File :=
  if Models.exists_by_url_name session source_name (fi_download_url finfo) fname
  then session
  else
    Models.add session
      (make_record source_name hit meta finfo fname ext qda_flag
         None None folder (Some notes) None).

(** The default of the parameter [notes]. *)
Definition default_notes : text := txt "access restricted".

(** [_is_qda_file(fname, finfo)] *)
Definition _is_qda_file (cfg : Settings.t) (sys : Platform.t)
    (fname : text) (finfo : FileInfo) : bool :=
  let ext := lower (Platform.suffix sys fname) in
  let label := lower (default [] (fi_friendly_type finfo)) in
  let mime := lower (default [] (fi_content_type finfo)) in
  mem ext (Settings.QDA_FORMATS cfg)
  || contains (txt "refi-qda") label
  || contains (txt "refiqda") mime.

(** [_dataset_has_qda(files)] *)
Definition _dataset_has_qda (cfg : Settings.t) (sys : Platform.t)
    (files : list FileInfo) : bool :=
  existsb (fun f => _is_qda_file cfg sys (fi_name f) f) files.

Definition _DEFAULT_SIZE_CAP : Z := 100 * 1024 * 1024.

(** [a / 2^k] rounded to the nearest integer, ties to the even one
    ([0 <= a], [0 <= k]). *)
Definition round_half_even (a k : Z) : Z :=
  let q := a / 2 ^ k in
  let r := a mod 2 ^ k in
  if 2 * r <? 2 ^ k then q
  else if 2 ^ k <? 2 * r then q + 1
  else if Z.even q then q else q + 1.

(** The [float] nearest to the integer [a] ([0 <= a]): [a] rounded to 53
    significant bits, ties to even; the result is again an integer. *)
Definition nearest_float (a : Z) : Z :=
  let bits := Z.log2 a + 1 in
  if bits <=? 53 then a
  else round_half_even a (bits - 53) * 2 ^ (bits - 53).

(** [f"{file_bytes / (1024*1024):.0f}"]: the true division is the nearest
    [float] to the quotient, which for a power of two as divisor is
    [nearest_float] scaled by it; [.0f] rounds that value to an integer, ties
    to even, and keeps the sign, also of a zero.  (Beyond the range of
    [float], from 2^1044 on, Python raises; declared sizes are taken to be
    below that.) *)
Definition format_mb (file_bytes : Z) : text :=
  let digits :=
    txt (DecimalString.NilZero.string_of_uint
           (N.to_uint (Z.to_N (round_half_even (nearest_float (Z.abs file_bytes)) 20)))) in
  if file_bytes <? 0 then txt "-" ++ digits else digits.

(** [f"oversized ({file_bytes / (1024*1024):.0f} MB)"] *)
Definition oversized_notes (file_bytes : Z) : text :=
  txt "oversized (" ++ format_mb file_bytes ++ txt " MB)".

(** The record id of the storage path. *)
Definition record_id (hit : DatasetHit) (finfo : FileInfo) : text :=
  let rid :=
    if contains (txt "persistentId=") (source_url hit)
    then split_last (txt "persistentId=") (source_url hit)
    else fi_id finfo in
  replace_char ":" "_" (replace_char "/" "_" rid).

(** The size gate: [size_cap and file_bytes > size_cap and not qda_flag]. *)
Definition oversized (size_cap file_bytes : Z) (qda_flag : bool) : bool :=
  negb (size_cap =? 0) && (size_cap <? file_bytes) && negb qda_flag.

(** The locals [ext] and [qda_flag] of the loop over the files. *)
Definition file_ext (sys : Platform.t) (finfo : FileInfo) : text :=
  lower (Platform.suffix sys (fi_name finfo)).

Definition qda_flag (cfg : Settings.t) (sys : Platform.t) (finfo : FileInfo) : bool :=
  _is_qda_file cfg sys (fi_name finfo) finfo.

(** The local [dest_path], and [dest_dir] and [folder_name] taken from it. *)
Definition dest_path (cfg : Settings.t) (sys : Platform.t) (source_name : text)
    (hit meta : DatasetHit) (finfo : FileInfo) : text :=
  let rid := record_id hit finfo in
  let dir_label :=
    default source_name (Settings.FOLDER_NAMES cfg !! source_name) in
  Storage.build_output_path cfg sys dir_label rid (fi_name finfo) (title meta).

Definition dest_dir (cfg : Settings.t) (sys : Platform.t) (source_name : text)
    (hit meta : DatasetHit) (finfo : FileInfo) : text :=
  Platform.parent sys (dest_path cfg sys source_name hit meta finfo).

Definition folder_name (cfg : Settings.t) (sys : Platform.t) (source_name : text)
    (hit meta : DatasetHit) (finfo : FileInfo) : text :=
  Platform.name sys (Platform.parent sys (dest_path cfg sys source_name hit meta finfo)).

(** The call of [_store_metadata_record] the loop makes, with its [folder]
    and [notes]. *)
Definition store_metadata (cfg : Settings.t) (sys : Platform.t)
    (source_name : text) (hit meta : DatasetHit) (finfo : FileInfo)
    (folder : option text) (notes : text) (w : World) : World :=
  with_store w
    (_store_metadata_record (store w) source_name hit meta finfo
       (fi_name finfo) (file_ext sys finfo) (qda_flag cfg sys finfo)
       folder notes).

(** The row of a downloaded file. *)
Definition downloaded_record (cfg : Settings.t) (sys : Platform.t)
    (source_name : text) (hit meta : DatasetHit) (finfo : FileInfo)
    (digest local : text) (now : Z) : Models.File :=
  make_record source_name hit meta finfo
    (fi_name finfo) (file_ext sys finfo) (qda_flag cfg sys finfo)
    (Some digest) (Some (Platform.relative_to_root sys local))
    (Some (folder_name cfg sys source_name hit meta finfo)) None (Some now).

(** The disk after a call of [pull_file] that raised: nobody removes the
    file the call left behind. *)
Definition leave (leftover : option (text * list Byte.byte)) (w : World) : World :=
  match leftover with
  | Some (path, written) =>
      {| store := store w; disk := <[path := written]> (disk w);
         ticks := ticks w |}
  | None => w
  end.

(** The body of [for finfo in meta.files] in [_process_hits], from the
    download attempt on: the file passed every gate before it. *)
Definition download_step (cfg : Settings.t) (sys : Platform.t)
    (source : BaseSource) (source_name : text) (hit meta : DatasetHit)
    (st : World * Stats) (finfo : FileInfo) : World * Stats :=
  let '(w, n) := st in
  match pull_file source (fi_download_url finfo)
          (dest_dir cfg sys source_name hit meta finfo) (fi_name finfo) with
  | PullHTTPStatusError status_code leftover =>
      if status_code =? 403 then
        (store_metadata cfg sys source_name hit meta finfo
           (Some (folder_name cfg sys source_name hit meta finfo))
           default_notes (leave leftover w),
         add_restricted n)
      else (leave leftover w, n)
  | PullException leftover => (leave leftover w, n)
  | PullOk local content =>
      let disk1 := <[local := content]> (disk w) in
      let digest := Storage.sha256_digest sys disk1 local in
      if Models.exists_by_hash (store w) digest then
        (* Path(local).unlink(missing_ok=True) *)
        ({| store := store w; disk := delete local disk1; ticks := ticks w |}, n)
      else
        ({| store :=
              Models.add (store w)
                (downloaded_record cfg sys source_name hit meta finfo
                   digest local (Platform.utcnow sys (ticks w)));
            disk := disk1;
            ticks := S (ticks w) |},
         add_downloaded n)
  end.

(** The same body from the restriction gate on. *)
Definition restricted_step (cfg : Settings.t) (sys : Platform.t)
    (source : BaseSource) (source_name : text) (hit meta : DatasetHit)
    (st : World * Stats) (finfo : FileInfo) : World * Stats :=
  if fi_restricted finfo then
    (store_metadata cfg sys source_name hit meta finfo
       (Some (folder_name cfg sys source_name hit meta finfo))
       default_notes (fst st),
     add_restricted (snd st))
  else download_step cfg sys source source_name hit meta st finfo.

(** The same body from the size gate on: the file is of a recognised format
    and no row has its URL. *)
Definition size_step (cfg : Settings.t) (sys : Platform.t)
    (source : BaseSource) (source_name : text) (size_cap : Z)
    (hit meta : DatasetHit) (st : World * Stats) (finfo : FileInfo)
    : World * Stats :=
  let file_bytes := default 0 (fi_size finfo) in
  if oversized size_cap file_bytes (qda_flag cfg sys finfo) then
    (store_metadata cfg sys source_name hit meta finfo
       (Some (folder_name cfg sys source_name hit meta finfo))
       (oversized_notes file_bytes) (fst st),
     add_skipped (snd st))
  else restricted_step cfg sys source source_name hit meta st finfo.

(** The format test [not qda_flag and ext not in QUALITATIVE_FORMATS]. *)
Definition irrelevant (cfg : Settings.t) (sys : Platform.t) (finfo : FileInfo) : bool :=
  negb (qda_flag cfg sys finfo)
  && negb (mem (file_ext sys finfo) (Settings.QUALITATIVE_FORMATS cfg)).

(** The whole body of [for finfo in meta.files]. *)
Definition file_step (cfg : Settings.t) (sys : Platform.t)
    (source : BaseSource) (source_name : text) (size_cap : Z)
    (hit meta : DatasetHit) (st : World * Stats) (finfo : FileInfo)
    : World * Stats :=
  if irrelevant cfg sys finfo then
    (store_metadata cfg sys source_name hit meta finfo None
       (txt "irrelevant file type") (fst st),
     snd st)
  else if Models.exists_by_url (store (fst st)) source_name (fi_download_url finfo)
  then st
  else size_step cfg sys source source_name size_cap hit meta st finfo.

(** The resource-type gate: some [v.strip().lower()] of [meta.kind_of_data] is
    in [EXCLUDED_RESOURCE_TYPES]. *)
Definition excluded_kind (cfg : Settings.t) (meta : DatasetHit) : bool :=
  existsb (fun v => mem (lower (strip v)) (Settings.EXCLUDED_RESOURCE_TYPES cfg))
    (kind_of_data meta).

(** The local [combined_text] of the relevance gate. *)
Definition combined_text (meta : DatasetHit) : text :=
  let base := lower (description meta) in
  match keywords meta with
  | [] => base
  | ks => base ++ txt " " ++ join (txt " ") (List.map lower ks)
  end.

Definition relevant (cfg : Settings.t) (meta : DatasetHit) : bool :=
  existsb (fun kw => contains kw (combined_text meta))
    (Settings.RELEVANCE_KEYWORDS cfg).

(** The body of [for idx, hit in enumerate(hits, 1)]. *)
Definition hit_step (cfg : Settings.t) (sys : Platform.t)
    (source : BaseSource) (source_name : text) (size_cap : Z)
    (st : World * Stats) (hit : DatasetHit) : World * Stats :=
  match fetch_metadata source (source_url hit) with
  | None => st
  | Some meta =>
      if negb (Licensing.license_is_open (Some (license_type meta))) then
        (fst st, add_skipped (snd st))
      else
        match files meta with
        | [] => st
        | _ =>
            if excluded_kind cfg meta && negb (_dataset_has_qda cfg sys (files meta))
            then (fst st, add_skipped (snd st))
            else
              let has_qda := _dataset_has_qda cfg sys (files meta) in
              if negb has_qda && negb (relevant cfg meta)
              then (fst st, add_skipped (snd st))
              else
                fold_left
                  (file_step cfg sys source source_name size_cap hit meta)
                  (files meta) st
        end
  end.

(** [_process_hits(source, source_name, hits, session, size_cap)] run in the
    world [w]: the world it leaves and the triple it returns. *)
Definition _process_hits (cfg : Settings.t) (sys : Platform.t)
    (source : BaseSource) (source_name : text) (hits : list DatasetHit)
    (size_cap : Z) (w : World) : World * Stats :=
  fold_left (hit_step cfg sys source source_name size_cap) hits (w, no_stats).

End Pipeline.

(* --------------------------------------------------------------------- *)
(** ** harvester/cli.py: the run driver                                   *)
(* --------------------------------------------------------------------- *)

Module Driver.
Import Text SourcesBase Pipeline.

(** [hits[:cap]] under [if cap:]; [cap] is an [int] or [None].  A negative
    bound of a slice counts from the end. *)
Definition cap_hits (cap : option Z) (hits : list DatasetHit) : list DatasetHit :=
  match cap with
  | None => hits
  | Some c =>
      if c =? 0 then hits
      else if 0 <? c then firstn (Z.to_nat c) hits
      else firstn (length hits - Z.to_nat (- c)) hits
  end.

(** [[h for h in hits if h.source_url not in seen]] *)
Definition unseen (seen : gset text) (hits : list DatasetHit) : list DatasetHit :=
  List.filter (fun h => bool_decide (source_url h ∉ seen)) hits.

(** [seen.update(h.source_url for h in hits)] *)
Definition seen_update (seen : gset text) (hits : list DatasetHit) : gset text :=
  seen ∪ list_to_set (List.map source_url hits).

Definition sum_stats (a b : Stats) : Stats :=
  {| n_downloaded := n_downloaded a + n_downloaded b;
     n_restricted := n_restricted a + n_restricted b;
     n_skipped := n_skipped a + n_skipped b |}%nat.

(** The call [_process_hits(source, source_name, hits, session, size_cap)] of
    [_run_source] and the three [+=] behind it, skipped for an empty list. *)
Definition feed (cfg : Settings.t) (sys : Platform.t) (source : BaseSource)
    (source_name : text) (size_cap : Z) (st : World * Stats)
    (hits : list DatasetHit) : World * Stats :=
  match hits with
  | [] => st
  | _ =>
      let '(w, n) := _process_hits cfg sys source source_name hits size_cap (fst st) in
      (w, sum_stats (snd st) n)
  end.

(** The body of [for qi, q in enumerate(queries, 1)]; the state is the
    world, the running totals and the set [seen]. *)
Definition query_step (cfg : Settings.t) (sys : Platform.t)
    (source : BaseSource) (source_name : text) (cap : option Z) (size_cap : Z)
    (st : World * Stats * gset text) (q : text) : World * Stats * gset text :=
  let '(ws, seen) := st in
  match find source q with
  | None => st
  | Some hits =>
      let hits := unseen seen hits in
      let seen := seen_update seen hits in
      let hits := cap_hits cap hits in
      (feed cfg sys source source_name size_cap ws hits, seen)
  end.

(** [_run_source(source, source_name, queries, cap, size_cap)] with the
    session opened on the world [w]. *)
Definition _run_source (cfg : Settings.t) (sys : Platform.t)
    (source : BaseSource) (source_name : text) (queries : list text)
    (cap : option Z) (size_cap : Z) (w : World) : World * Stats :=
  fst (fold_left (query_step cfg sys source source_name cap size_cap)
         queries (w, no_stats, ∅)).

(** The value of [hits] at the call of [_process_hits], query by query
    ([[]] for a query whose search raises), starting from the set [seen]. *)
Fixpoint fed_hits (source : BaseSource) (cap : option Z) (seen : gset text)
    (queries : list text) : list (list DatasetHit) :=
  match queries with
  | [] => []
  | q :: rest =>
      match find source q with
      | None => [] :: fed_hits source cap seen rest
      | Some hits =>
          let hits := unseen seen hits in
          cap_hits cap hits :: fed_hits source cap (seen_update seen hits) rest
      end
  end.

End Driver.

(* --------------------------------------------------------------------- *)
(** ** harvester/sources/dataverse.py: the download retry loop            *)
(* --------------------------------------------------------------------- *)

Module Dataverse.

Definition _RETRY_LIMIT : nat := 3.

(** Seconds; doubled on each subsequent attempt. *)
Definition _INITIAL_BACKOFF : Z := 2.

(** What one pass through the [try] block of [pull_file] can raise. *)
Inductive error :=
| ConnectError
| ReadError
| ConnectionError
| HTTPStatusError (status_code : Z)
| OtherError.

(** One pass through the [try] block: the file is saved at [out], or an
    exception leaves the block. *)
Inductive attempt_result :=
| Saved (out : text)
| Failed (exc : error).

(** [except (httpx.ConnectError, httpx.ReadError, ConnectionError)] *)
Definition caught (exc : error) : bool :=
  match exc with
  | ConnectError | ReadError | ConnectionError => true
  | HTTPStatusError _ | OtherError => false
  end.

(** What a call of [pull_file] does to the outside, in order. *)
Inductive event :=
| Request (attempt : nat)
| Sleep (seconds : Z).

Inductive outcome :=
| Returned (path : text)
| Raised (exc : error)
| FellThrough.

(** [for attempt in attempts: ...] of [pull_file]; [network attempt] is what
    the pass number [attempt] through the [try] block does. *)
Fixpoint pull_file_loop (network : nat -> attempt_result)
    (attempts : list nat) : outcome * list event :=
  match attempts with
  | [] => (FellThrough, [])
  | attempt :: rest =>
      match network attempt with
      | Saved out => (Returned out, [Request attempt])
      | Failed exc =>
          if caught exc then
            if (attempt <? _RETRY_LIMIT)%nat then
              let wait := _INITIAL_BACKOFF * 2 ^ (Z.of_nat attempt - 1) in
              let '(res, trace) := pull_file_loop network rest in
              (res, Request attempt :: Sleep wait :: trace)
            else (Raised exc, [Request attempt])
          else (Raised exc, [Request attempt])
      end
  end.

(** [DataverseSource.pull_file(url, dest_dir, filename)]:
    [range(1, _RETRY_LIMIT + 1)] is [seq 1 _RETRY_LIMIT]. *)
Definition pull_file (network : nat -> attempt_result) : outcome * list event :=
  pull_file_loop network (seq 1 _RETRY_LIMIT).

End Dataverse.

(* --------------------------------------------------------------------- *)
(** ** Vocabulary of the properties                                       *)
(* --------------------------------------------------------------------- *)

Module Vocabulary.
Import Text SourcesBase Pipeline.

(** A spelling [cv] of the character [cm] of an allow-list member: where the
    member has a hyphen or a space, a hyphen, a space or an underscore; else
    the same letter in either case. *)
Definition spelling (cm cv : ascii) : bool :=
  if Ascii.eqb cm "-" || Ascii.eqb cm " "
  then Ascii.eqb cv "-" || Ascii.eqb cv " " || Ascii.eqb cv "_"
  else Ascii.eqb (lower_char cv) cm.

(** [v] is a case and spacing variant of the member [m]. *)
Definition variant_of (m v : text) : Prop :=
  Forall2 (fun cm cv => spelling cm cv = true) m v.

Definition all_chars : list ascii := List.map ascii_of_nat (seq 0 256).

(** What [canonical] does to one character. *)
Definition canon_char (c : ascii) : ascii :=
  let l := lower_char c in
  let l := if Ascii.eqb l " " then "-"%char else l in
  if Ascii.eqb l "_" then "-"%char else l.

Definition is_sep (c : ascii) : bool := Ascii.eqb c "-" || Ascii.eqb c " ".

(** No separator at either end of [m] and no two in a row ([after_sep]: the
    character before [m] is a separator, or [m] is the whole member). *)
Fixpoint seps_isolated (after_sep : bool) (m : text) : bool :=
  match m with
  | [] => negb after_sep
  | c :: rest =>
      if is_sep c then negb after_sep && seps_isolated true rest
      else seps_isolated false rest
  end.

(** The same for the whitespace of a text, which must be single spaces. *)
Fixpoint well_spaced (after_space : bool) (v : text) : bool :=
  match v with
  | [] => negb after_space
  | c :: rest =>
      if isspace c
      then Ascii.eqb c " " && negb after_space && well_spaced true rest
      else well_spaced false rest
  end.

(** A spelling of the member character [cm] is no ["<"], is whitespace only
    as a space for a separator, and has [cm] as canonical character. *)
Definition spellings_plain (cm : ascii) : bool :=
  forallb
    (fun cv =>
       implb (spelling cm cv)
         (negb (Ascii.eqb cv "<")
          && implb (isspace cv) (Ascii.eqb cv " " && is_sep cm)
          && Ascii.eqb (canon_char cv) cm))
    all_chars.

Definition member_ok (m : text) : bool :=
  forallb spellings_plain m && seps_isolated true m
  && existsb (fun prefix => startswith m prefix) Licensing._ACCEPTED.

(** The allow-list without the member that is spelled with a space. *)
Definition hyphenated_members : list text :=
  List.filter (fun m => negb (text_eqb m (txt "public domain")))
    Licensing._ACCEPTED.

(** The events of a call of [pull_file] whose pass number [k] is the last
    one: every earlier pass is followed by its backoff sleep. *)
Fixpoint trace_from (attempt : nat) (k : nat) : list Dataverse.event :=
  match k with
  | O => []
  | S O => [Dataverse.Request attempt]
  | S k' =>
      Dataverse.Request attempt
      :: Dataverse.Sleep (Dataverse._INITIAL_BACKOFF * 2 ^ (Z.of_nat attempt - 1))
      :: trace_from (S attempt) k'
  end.

Definition trace_through (k : nat) : list Dataverse.event := trace_from 1 k.

(** The row [_store_metadata_record] writes for a file of the loop. *)
Definition metadata_record (cfg : Settings.t) (sys : Platform.t)
    (source_name : text) (hit meta : DatasetHit) (finfo : FileInfo)
    (folder : option text) (notes : text) : Models.File :=
  make_record source_name hit meta finfo
    (fi_name finfo) (file_ext sys finfo) (qda_flag cfg sys finfo)
    None None folder (Some notes) None.

(** The file passes the format test and the duplicate-by-URL gate in the
    world [w]: it reaches the size gate. *)
Definition reaches_gates (cfg : Settings.t) (sys : Platform.t)
    (source_name : text) (finfo : FileInfo) (w : World) : Prop :=
  irrelevant cfg sys finfo = false
  /\ Models.exists_by_url (store w) source_name (fi_download_url finfo) = false.

(** The declared size as the size gate reads it: [finfo.get("size", 0) or 0]. *)
Definition declared_size (finfo : FileInfo) : Z := default 0 (fi_size finfo).

(** What [pull_file] answers for the file. *)
Definition pulled (cfg : Settings.t) (sys : Platform.t) (source : BaseSource)
    (source_name : text) (hit meta : DatasetHit) (finfo : FileInfo) : pull_result :=
  pull_file source (fi_download_url finfo)
    (dest_dir cfg sys source_name hit meta finfo) (fi_name finfo).

(** The notes [_store_metadata_record] is called with. *)
Definition writer_notes (t : text) : Prop :=
  t = default_notes \/ t = txt "irrelevant file type"
  \/ exists file_bytes, t = oversized_notes file_bytes.

(** One pass through the loop over the files, seen from the session: no row
    is written, or the metadata writer adds a row, or the row of a
    downloaded file is added, whose digest no earlier row has. *)
Inductive admits : list Models.File -> list Models.File -> Prop :=
| admits_nothing rows :
    admits rows rows
| admits_metadata rows r t :
    Models.local_path r = None ->
    Models.file_hash r = None ->
    Models.notes r = Some t ->
    writer_notes t ->
    admits rows (rows ++ [r])
| admits_download rows r digest :
    Models.file_hash r = Some digest ->
    Models.exists_by_hash rows digest = false ->
    is_Some (Models.local_path r) ->
    Models.notes r = None ->
    Models.restricted r = false ->
    admits rows (rows ++ [r]).

(** Any number of such passes, in one run or in several. *)
Definition history : list Models.File -> list Models.File -> Prop := rtc admits.

(** The notes mention restriction / explain another reason. *)
Definition mentions_restriction (notes : option text) : bool :=
  match notes with
  | Some t => contains (txt "restricted") (lower t)
  | None => false
  end.

Definition explains_reason (notes : option text) : bool :=
  match notes with
  | Some t =>
      text_eqb t (txt "irrelevant file type") || startswith t (txt "oversized (")
  | None => false
  end.

Definition is_some {A : Type} (o : option A) : bool :=
  match o with Some _ => true | None => false end.

(** The three terminal states of a row, as the specification words them. *)
Definition downloaded_shape (r : Models.File) : bool :=
  is_some (Models.local_path r) && is_some (Models.file_hash r)
  && negb (mentions_restriction (Models.notes r)).

Definition restricted_shape (r : Models.File) : bool :=
  negb (is_some (Models.local_path r))
  && (Models.restricted r || bool_decide (Models.notes r = Some default_notes)).

Definition metadata_only_shape (r : Models.File) : bool :=
  negb (is_some (Models.local_path r)) && explains_reason (Models.notes r).

(** The metadata-only shape with the restricted rows taken out. *)
Definition plain_metadata_shape (r : Models.File) : bool :=
  metadata_only_shape r && negb (Models.restricted r).

Definition exactly_one (a b c : bool) : bool :=
  a && negb b && negb c || negb a && b && negb c || negb a && negb b && c.

(** Rows with a content hash have a local path, and no two rows share a
    content hash. *)
Definition store_ok (rows : list Models.File) : Prop :=
  (forall r, In r rows -> is_Some (Models.file_hash r) ->
             is_Some (Models.local_path r))
  /\ NoDup (omap Models.file_hash rows).

(** The downloaded rows with a given content hash. *)
Definition downloaded_with (digest : text) (rows : list Models.File)
    : list Models.File :=
  List.filter (fun r => bool_decide (Models.file_hash r = Some digest)
                        && is_some (Models.local_path r)) rows.

(** What holds of every row the pipeline writes: it has exactly one of the
    shapes downloaded, restricted and plain metadata-only; with a local path
    it has a content hash, no notes and a clear restricted flag; without a
    local path it has no content hash. *)
Definition terminal_ok (r : Models.File) : Prop :=
  exactly_one (downloaded_shape r) (restricted_shape r) (plain_metadata_shape r)
  = true
  /\ (is_Some (Models.local_path r) ->
      is_Some (Models.file_hash r) /\ Models.notes r = None
      /\ Models.restricted r = false)
  /\ (Models.local_path r = None -> Models.file_hash r = None).

(** The file is settled in the session [rows]: the lookups and gates of a
    pass over it end without a new row.  A file of an irrelevant type is
    settled by a row with its source, URL and name; any other file by a row
    with its source and URL, or by passing the size and restriction gates
    into a download that fails with an error other than HTTP 403 or that
    brings bytes whose digest a row already has. *)
Definition settled (cfg : Settings.t) (sys : Platform.t) (source : BaseSource)
    (source_name : text) (size_cap : Z) (hit meta : DatasetHit)
    (rows : list Models.File) (finfo : FileInfo) : bool :=
  if irrelevant cfg sys finfo then
    Models.exists_by_url_name rows source_name (fi_download_url finfo)
      (fi_name finfo)
  else
    Models.exists_by_url rows source_name (fi_download_url finfo)
    || negb (oversized size_cap (declared_size finfo) (qda_flag cfg sys finfo))
       && negb (fi_restricted finfo)
       && match pulled cfg sys source source_name hit meta finfo with
          | PullOk _ content =>
              Models.exists_by_hash rows (Platform.sha256_hex sys content)
          | PullHTTPStatusError status_code _ => negb (status_code =? 403)
          | PullException _ => true
          end.

(** The dataset passes the license, presence, resource-type and relevance
    gates of [_process_hits]. *)
Definition admitted (cfg : Settings.t) (sys : Platform.t) (meta : DatasetHit) : bool :=
  Licensing.license_is_open (Some (license_type meta))
  && negb (bool_decide (files meta = []))
  && negb (excluded_kind cfg meta && negb (_dataset_has_qda cfg sys (files meta)))
  && negb (negb (_dataset_has_qda cfg sys (files meta)) && negb (relevant cfg meta)).

(** Every file the pipeline would look at for the hit is settled. *)
Definition hit_settled (cfg : Settings.t) (sys : Platform.t)
    (source : BaseSource) (source_name : text) (size_cap : Z)
    (rows : list Models.File) (hit : DatasetHit) : Prop :=
  forall meta,
    fetch_metadata source (source_url hit) = Some meta ->
    admitted cfg sys meta = true ->
    Forall (fun f => settled cfg sys source source_name size_cap hit meta rows f = true)
      (files meta).

End Vocabulary.

(* --------------------------------------------------------------------- *)
(** ** A concrete configuration, platform and source                      *)
(* --------------------------------------------------------------------- *)

Module Fixture.
Import Text SourcesBase Pipeline.

Definition cfg : Settings.t :=
  {| Settings.DOWNLOAD_DIR := txt "downloads";
     Settings.QDA_FORMATS := List.map txt [".qdpx"; ".nvp"; ".atlproj"]%string;
     Settings.QUALITATIVE_FORMATS := List.map txt [".pdf"; ".txt"; ".csv"]%string;
     Settings.EXCLUDED_RESOURCE_TYPES := List.map txt ["documentation"]%string;
     Settings.RELEVANCE_KEYWORDS := List.map txt ["qualitative"; "interview"]%string;
     Settings.FOLDER_NAMES := ∅ |}.

(** The part of [p] before its last ["/"]. *)
Fixpoint before_last_slash (p : text) : text :=
  match p with
  | [] => []
  | c :: rest =>
      if contains (txt "/") rest then c :: before_last_slash rest
      else if Ascii.eqb c "/" then [] else p
  end.

(** A platform with POSIX-like paths of plain names, a digest that spells
    the bytes out, and a clock that counts its readings. *)
Definition sys : Platform.t :=
  {| Platform.suffix := fun p =>
       if contains (txt ".") p then txt "." ++ split_last (txt ".") p else [];
     Platform.joinpath := fun a b => a ++ txt "/" ++ b;
     Platform.parent := before_last_slash;
     Platform.name := split_last (txt "/");
     Platform.relative_to_root := fun p => p;
     Platform.sha256_hex := List.map ascii_of_byte;
     Platform.to_slug := fun t => replace_char " " "-" (lower t);
     Platform.utcnow := Z.of_nat |}.

Definition bytes (s : string) : list Byte.byte := list_byte_of_string s.

Definition descriptor (id name : string) (size : Z) (url : string)
    (restricted : bool) : FileInfo :=
  {| fi_id := txt id; fi_name := txt name; fi_size := Some size;
     fi_content_type := Some []; fi_friendly_type := None;
     fi_download_url := txt url; fi_restricted := restricted;
     fi_api_checksum := Some [] |}.

Definition dataset (url title license : string) (kinds : list text)
    (files : list FileInfo) : DatasetHit :=
  {| source_name := txt "qdr"; source_url := txt url; title := txt title;
     description := txt "Qualitative interview study"; authors := [];
     license_type := txt license; license_url := []; date_published := [];
     tags := []; keywords := []; kind_of_data := kinds; language := [];
     software := []; geographic_coverage := []; depositor := [];
     producer := []; publication := []; date_of_collection := [];
     time_period_covered := []; uploader_name := []; uploader_email := [];
     files := files |}.

(** The files of the example datasets. *)
Definition f_project : FileInfo :=
  descriptor "1" "interview.qdpx" (200 * 1024 * 1024) "https://x.org/f/1" false.
Definition f_restricted : FileInfo :=
  descriptor "2" "data.csv" 10 "https://x.org/f/2" true.
Definition f_archive : FileInfo :=
  descriptor "3" "archive.zip" 10 "https://x.org/f/3" true.
Definition f_at_cap : FileInfo :=
  descriptor "4" "atcap.pdf" _DEFAULT_SIZE_CAP "https://x.org/f/4" false.
Definition f_over_cap : FileInfo :=
  descriptor "5" "big.pdf" (_DEFAULT_SIZE_CAP + 1) "https://x.org/f/5" false.
Definition f_forbidden : FileInfo :=
  descriptor "6" "secret.pdf" 10 "https://x.org/f/6" false.
Definition f_broken : FileInfo :=
  descriptor "7" "flaky.pdf" 10 "https://x.org/f/7" false.
Definition f_notes : FileInfo :=
  descriptor "8" "notes.txt" 5 "https://x.org/f/8" false.
Definition f_copy : FileInfo :=
  descriptor "9" "copy.txt" 5 "https://x.org/f/9" false.

Definition all_files : list FileInfo :=
  [f_project; f_restricted; f_archive; f_at_cap; f_over_cap; f_forbidden;
   f_broken; f_notes; f_copy].

Definition ds_open : DatasetHit :=
  dataset "https://x.org/ds?persistentId=doi:10.1/A" "Open study" "CC BY 4.0"
    [] all_files.
Definition ds_closed : DatasetHit :=
  dataset "https://x.org/ds?persistentId=doi:10.1/B" "Closed study"
    "All rights reserved" [] [f_notes].
Definition ds_docs : DatasetHit :=
  dataset "https://x.org/ds?persistentId=doi:10.1/C" "Manual" "CC0 1.0"
    [txt "Documentation"] [f_notes].

(** The datasets of the end-to-end scenarios: one small project file; one
    restricted table. *)
Definition f_small_project : FileInfo :=
  descriptor "10" "interview.qdpx" 2048 "https://x.org/f/10" false.
Definition ds_project : DatasetHit :=
  dataset "https://x.org/ds?persistentId=doi:10.1/D" "Interviews" "CC BY 4.0"
    [] [f_small_project].
Definition ds_restricted : DatasetHit :=
  dataset "https://x.org/ds?persistentId=doi:10.1/E" "Tables" "CC BY 4.0"
    [] [f_restricted].

(** A source that knows these datasets; the downloads of
    [f_forbidden] and [f_broken] fail, [f_notes] and [f_copy] hold the same
    bytes, every other file holds bytes of its own. *)
Definition source : BaseSource :=
  {| find := fun q =>
       if text_eqb q (txt "interview") then Some [ds_open; ds_closed]
       else if text_eqb q (txt "qualitative") then Some [ds_closed; ds_docs; ds_open]
       else None;
     fetch_metadata := fun url =>
       if text_eqb url (source_url ds_open) then Some ds_open
       else if text_eqb url (source_url ds_closed) then Some ds_closed
       else if text_eqb url (source_url ds_docs) then Some ds_docs
       else if text_eqb url (source_url ds_project) then Some ds_project
       else if text_eqb url (source_url ds_restricted) then Some ds_restricted
       else None;
     pull_file := fun url dest fname =>
       if text_eqb url (fi_download_url f_forbidden)
       then PullHTTPStatusError 403 None
       else if text_eqb url (fi_download_url f_broken)
       then PullHTTPStatusError 404 None
       else if text_eqb url (fi_download_url f_notes)
               || text_eqb url (fi_download_url f_copy)
       then PullOk (dest ++ txt "/" ++ fname) (bytes "hello")
       else PullOk (dest ++ txt "/" ++ fname) (List.map byte_of_ascii url) |}.

Definition empty_world : World := {| store := []; disk := ∅; ticks := 0 |}.

(** The world after the pass of the loop over [f_notes] of [ds_open]. *)
Definition after_notes : World :=
  fst (file_step cfg sys source (txt "qdr") _DEFAULT_SIZE_CAP ds_open ds_open
         (empty_world, no_stats) f_notes).

(** Two connection failures, then HTTP 403 on the third pass. *)
Definition flaky_then_forbidden (attempt : nat) : Dataverse.attempt_result :=
  match attempt with
  | 1%nat => Dataverse.Failed Dataverse.ConnectError
  | 2%nat => Dataverse.Failed Dataverse.ReadError
  | _ => Dataverse.Failed (Dataverse.HTTPStatusError 403)
  end.

End Fixture.

(* --------------------------------------------------------------------- *)
(** ** Vocabulary of the pipeline invariants                              *)
(* --------------------------------------------------------------------- *)

Module Passes.
Import Text SourcesBase Pipeline Vocabulary.

(** The triple under which [_store_metadata_record] looks a row up. *)
Definition row_key (r : Models.File) : text * text * text :=
  (Models.source_name r, Models.download_url r, Models.file_name r).

(** No two rows share source, download URL and file name. *)
Definition keys_unique (rows : list Models.File) : Prop :=
  NoDup (List.map row_key rows).

(** The lookup by source, URL and name does not find the key of [r]. *)
Definition fresh_key (rows : list Models.File) (r : Models.File) : Prop :=
  Models.exists_by_url_name rows (Models.source_name r) (Models.download_url r)
    (Models.file_name r) = false.

(** What one turn of the loops of [_process_hits] does to the session and
    the counters: nothing; or a rejected dataset is counted; or one row is
    written, of a file of an irrelevant type, an oversized, a restricted or
    a downloaded file, with the counter that goes with it.  The disk is not
    looked at. *)
Inductive pass (sys : Platform.t) : World * Stats -> World * Stats -> Prop :=
| pass_idle w n w' :
    store w' = store w ->
    pass sys (w, n) (w', n)
| pass_rejected w n :
    pass sys (w, n) (w, add_skipped n)
| pass_irrelevant w n w' r :
    fresh_key (store w) r ->
    Models.local_path r = None ->
    Models.notes r = Some (txt "irrelevant file type") ->
    store w' = store w ++ [r] ->
    pass sys (w, n) (w', n)
| pass_oversized w n w' r file_bytes :
    fresh_key (store w) r ->
    Models.local_path r = None ->
    Models.notes r = Some (oversized_notes file_bytes) ->
    store w' = store w ++ [r] ->
    pass sys (w, n) (w', add_skipped n)
| pass_restricted w n w' r :
    fresh_key (store w) r ->
    Models.local_path r = None ->
    Models.notes r = Some default_notes ->
    store w' = store w ++ [r] ->
    pass sys (w, n) (w', add_restricted n)
| pass_downloaded w n w' r local :
    fresh_key (store w) r ->
    Models.local_path r = Some (Platform.relative_to_root sys local) ->
    Models.notes r = None ->
    store w' = store w ++ [r] ->
    pass sys (w, n) (w', add_downloaded n).

(** How many rows of each kind a list holds. *)
Definition count_downloaded (rows : list Models.File) : nat :=
  length (List.filter (fun r => is_some (Models.local_path r)) rows).

Definition count_restricted (rows : list Models.File) : nat :=
  length (List.filter
            (fun r => bool_decide (Models.notes r = Some default_notes)) rows).

Definition is_oversized_note (notes : option text) : bool :=
  match notes with
  | Some t => startswith t (txt "oversized (")
  | None => false
  end.

Definition count_oversized (rows : list Models.File) : nat :=
  length (List.filter (fun r => is_oversized_note (Models.notes r)) rows).

Definition count_irrelevant (rows : list Models.File) : nat :=
  length (List.filter
            (fun r => bool_decide
                        (Models.notes r = Some (txt "irrelevant file type")))
            rows).

(** Of how many of the four kinds downloaded, restricted, oversized and
    irrelevant file type a row is. *)
Definition kinds_of (r : Models.File) : nat :=
  ((if is_some (Models.local_path r) then 1 else 0)
   + (if bool_decide (Models.notes r = Some default_notes) then 1 else 0)
   + (if is_oversized_note (Models.notes r) then 1 else 0)
   + (if bool_decide (Models.notes r = Some (txt "irrelevant file type"))
      then 1 else 0))%nat.

(** The books of a run from the state [st0] to the state [st]: the rows it
    added, each of one kind, counted by kind against the three counters. *)
Definition ledger (st0 st : World * Stats) : Prop :=
  exists added,
    store (fst st) = store (fst st0) ++ added
    /\ n_downloaded (snd st)
       = (n_downloaded (snd st0) + count_downloaded added)%nat
    /\ n_restricted (snd st)
       = (n_restricted (snd st0) + count_restricted added)%nat
    /\ (n_skipped (snd st0) + count_oversized added <= n_skipped (snd st))%nat
    /\ Forall (fun r => kinds_of r = 1%nat) added
    /\ length added
       = (count_downloaded added + count_restricted added
          + count_oversized added + count_irrelevant added)%nat.

End Passes.

(* --------------------------------------------------------------------- *)
(** ** harvester/cli.py: the numbers of [overview]                        *)
(* --------------------------------------------------------------------- *)

Module Overview.

(** [session.query(File).filter(...).count()] *)
Definition count (f : Models.File -> bool) (rows : list Models.File) : Z :=
  Z.of_nat (length (List.filter f rows)).

(** The locals [total], [qda], [downloaded], [restricted] and
    [metadata_only] of [overview], in this order. *)
Definition totals (rows : list Models.File) : Z * Z * Z * Z * Z :=
  let total := Z.of_nat (length rows) in
  let qda := count Models.is_qda_file rows in
  let downloaded := count (fun r => Vocabulary.is_some (Models.local_path r)) rows in
  let restricted := count Models.restricted rows in
  let metadata_only := total - downloaded - restricted in
  (total, qda, downloaded, restricted, metadata_only).

(** The number printed as "Other". *)
Definition other (rows : list Models.File) : Z := snd (totals rows).

End Overview.

(* --------------------------------------------------------------------- *)
(** ** More of Python's [str]                                             *)
(* --------------------------------------------------------------------- *)

Module TextMore.
Import Text.

(** [s.split(sep, 1)[1]]: what follows the first occurrence of [sep] in [s];
    [None] when [sep] does not occur (the index 1 is out of range then).
    [sep] is not empty. *)
Fixpoint after_first (sep s : text) : option text :=
  if startswith s sep then Some (skipn (length sep) s)
  else match s with
       | [] => None
       | _ :: s' => after_first sep s'
       end.

(** [s.split(c)[0]] for a one-character [c]: [s] up to its first [c]. *)
Fixpoint before_first_char (c : ascii) (s : text) : text :=
  match s with
  | [] => []
  | a :: s' => if Ascii.eqb a c then [] else a :: before_first_char c s'
  end.

(** [s.lstrip(c)], [s.rstrip(c)] and [s.strip(c)] for a one-character [c]. *)
Fixpoint lstrip_char (c : ascii) (s : text) : text :=
  match s with
  | [] => []
  | a :: s' => if Ascii.eqb a c then lstrip_char c s' else s
  end.

Fixpoint rstrip_char (c : ascii) (s : text) : text :=
  match s with
  | [] => []
  | a :: s' =>
      match rstrip_char c s' with
      | [] => if Ascii.eqb a c then [] else [a]
      | r => a :: r
      end
  end.

Definition strip_char (c : ascii) (s : text) : text :=
  rstrip_char c (lstrip_char c s).

(** The double quote, U+0022. *)
Definition dquote : ascii := ascii_of_N 34.

End TextMore.

(* --------------------------------------------------------------------- *)
(** ** harvester/sources/dataverse.py: search and helpers                 *)
(* --------------------------------------------------------------------- *)

Module DataverseApi.
Import Text TextMore SourcesBase.

(** Guard against enormous result sets on large installations. *)
Definition _SEARCH_CAP : nat := 500.

(** One entry of ["items"] in the answer of the search endpoint; a field is
    [None] when the key is absent. *)
Record Item := {
  it_url : option text;
  it_name : option text;
  it_description : option text;
  it_authors : option (list text);
  it_published_at : option text;
  it_subjects : option (list text);
  it_global_id : option text;
}.

(** The object under ["data"] in the answer of the search endpoint. *)
Record Payload := {
  items : option (list Item);
  total_count : option Z;
}.

(** The body of [for item in items] of [find]: the hit built from one item,
    for the source with host [host] and key [key]. *)
Definition hit_of_item (host key : text) (item : Item) : DatasetHit :=
  let pid := default [] (it_global_id item) in
  {| source_name := key;
     source_url :=
       match pid with
       | [] => default [] (it_url item)
       | _ => host ++ txt "/dataset.xhtml?persistentId=" ++ pid
       end;
     title := default [] (it_name item);
     description := default [] (it_description item);
     authors := join (txt "; ") (default [] (it_authors item));
     license_type := [];
     license_url := [];
     date_published := default [] (it_published_at item);
     tags := default [] (it_subjects item);
     keywords := [];
     kind_of_data := [];
     language := [];
     software := [];
     geographic_coverage := [];
     depositor := [];
     producer := [];
     publication := [];
     date_of_collection := [];
     time_period_covered := [];
     uploader_name := [];
     uploader_email := [];
     files := [] |}.

(** How the [while True] loop of [find] ends: at a [break], with [hits] and
    [reported_total] as they are then; with an exception of the request; or
    not within the passes the model allows. *)
Inductive paging :=
| Broke (hits : list DatasetHit) (reported_total : Z)
| SearchRaised
| Unfinished.

(** [while True: ...] of [find], for at most [fuel] passes.  [search offset]
    is the decoded answer to the request with ["start": offset], [None] when
    the request, [raise_for_status] or the decoding raises.  Beside the way
    the loop ends, the offsets requested, in order. *)
Fixpoint find_pages (host key : text) (search : Z -> option Payload)
    (fuel : nat) (hits : list DatasetHit) (offset : Z) (reported_total : Z)
    : paging * list Z :=
  match fuel with
  | O => (Unfinished, [])
  | S fuel' =>
      match search offset with
      | None => (SearchRaised, [offset])
      | Some payload =>
          match default [] (items payload) with
          | [] => (Broke hits reported_total, [offset])
          | page =>
              let hits := hits ++ List.map (hit_of_item host key) page in
              let reported_total := default 0 (total_count payload) in
              let offset' := offset + 100 in
              if (offset' >=? reported_total)
                 || (Z.of_nat (length hits) >=? Z.of_nat _SEARCH_CAP)
              then (Broke hits reported_total, [offset])
              else
                let '(res, reqs) :=
                  find_pages host key search fuel' hits offset' reported_total in
                (res, offset :: reqs)
          end
      end
  end.

(** [DataverseSource.find(query)] after the loop: the cut at [_SEARCH_CAP]
    and the [return]. *)
Definition find_with (host key : text) (search : Z -> option Payload)
    (fuel : nat) : paging * list Z :=
  let '(res, reqs) := find_pages host key search fuel [] 0 0 in
  match res with
  | Broke hits reported_total =>
      (Broke (if (_SEARCH_CAP <? length hits)%nat
              then firstn _SEARCH_CAP hits else hits) reported_total, reqs)
  | _ => (res, reqs)
  end.

(** [_SEARCH_CAP] passes are enough for the loop (see [find_fuel]). *)
Definition find (host key : text) (search : Z -> option Payload)
    : paging * list Z :=
  find_with host key search _SEARCH_CAP.

(** [DataverseSource._parse_persistent_id(url)] *)
Definition _parse_persistent_id (url : text) : option text :=
  if contains (txt "persistentId=") url then
    match after_first (txt "persistentId=") url with
    | Some rest => Some (before_first_char "&" rest)
    | None => None
    end
  else if startswith url (txt "doi:") || startswith url (txt "hdl:") then Some url
  else None.

(** The request [fetch_metadata(url)] sends: by persistent id when
    [_parse_persistent_id] gives a non-empty one, else by the last segment of
    the URL. *)
Inductive metadata_request :=
| ByPersistentId (pid : text)
| ByNumericId (numeric_id : text).

Definition metadata_request_of (url : text) : metadata_request :=
  match _parse_persistent_id url with
  | Some ((_ :: _) as pid) => ByPersistentId pid
  | _ => ByNumericId (split_last (txt "/") (rstrip_char "/" url))
  end.

(** [_name_from_headers(headers)]; [cd] is the header
    [content-disposition], [None] when it is absent. *)
Definition _name_from_headers (cd : option text) : option text :=
  let cd := default [] cd in
  if contains (txt "filename=") cd then
    match after_first (txt "filename=") cd with
    | Some segment =>
        Some (strip (before_first_char ";"
                       (strip_char "'" (strip_char dquote segment))))
    | None => None
    end
  else None.

End DataverseApi.

(* --------------------------------------------------------------------- *)
(** ** harvester/cli.py: the list of queries                              *)
(* --------------------------------------------------------------------- *)

Module Queries.
Import Text.

(** The line boundaries of [str.splitlines] below U+0100: LF, VT, FF, CR,
    FS, GS, RS and NEL. *)
Definition is_linebreak (c : ascii) : bool :=
  let n := code c in
  ((10 <=? n) && (n <=? 13) || (28 <=? n) && (n <=? 30) || (n =? 133))%N.

(** [s.splitlines()], reading [s] from the left: [cur] holds the characters
    of the line being read, last first, and [after_cr] says that the
    character before was a CR, which makes one boundary with an LF that
    follows it.  There is no last empty line. *)
Fixpoint splitlines_from (cur : text) (after_cr : bool) (s : text) : list text :=
  match s with
  | [] => match cur with [] => [] | _ => [rev cur] end
  | c :: s' =>
      if after_cr && (code c =? 10)%N then splitlines_from [] false s'
      else if is_linebreak c
           then rev cur :: splitlines_from [] (code c =? 13)%N s'
           else splitlines_from (c :: cur) false s'
  end.

Definition splitlines (s : text) : list text := splitlines_from [] false s.

(** The test [ln.strip() and not ln.strip().startswith("#")]. *)
Definition is_query_line (ln : text) : bool :=
  match strip ln with
  | [] => false
  | q => negb (startswith q (txt "#"))
  end.

(** [_read_query_list(path, single)].  [read_text p] is
    [Path(p).read_text()], [None] when it raises; the call raises then. *)
Definition _read_query_list (read_text : text -> option text)
    (path single : option text) : option (list text) :=
  match path with
  | Some ((_ :: _) as p) =>
      match read_text p with
      | Some content =>
          Some (List.map strip (List.filter is_query_line (splitlines content)))
      | None => None
      end
  | _ =>
      match single with
      | Some ((_ :: _) as q) => Some [q]
      | _ => Some [txt "qualitative"]
      end
  end.

End Queries.

(* --------------------------------------------------------------------- *)
(** ** harvester/storage/files.py: [to_slug]                              *)
(* --------------------------------------------------------------------- *)

Module Slug.
Import Text TextMore.

(** The class [[a-z0-9]]. *)
Definition is_slug_alnum (c : ascii) : bool :=
  let n := code c in
  ((48 <=? n) && (n <=? 57) || (97 <=? n) && (n <=? 122))%N.

(** [re.sub(r"[^a-z0-9]+", "-", s)], reading [s] from the left; [in_run]
    says that the character before was outside the class, so that the dash
    for its run is already written. *)
Fixpoint sub_non_alnum (in_run : bool) (s : text) : text :=
  match s with
  | [] => []
  | c :: rest =>
      if is_slug_alnum c then c :: sub_non_alnum false rest
      else if in_run then sub_non_alnum true rest
      else "-"%char :: sub_non_alnum true rest
  end.

(** [re.sub(r"-{2,}", "-", s)]: a run of two or more dashes becomes one
    dash, and a single dash stays; [in_run] says that the character before
    was a dash. *)
Fixpoint sub_dashes (in_run : bool) (s : text) : text :=
  match s with
  | [] => []
  | c :: rest =>
      if Ascii.eqb c "-" then
        if in_run then sub_dashes true rest else c :: sub_dashes true rest
      else c :: sub_dashes false rest
  end.

(** [s[:ceiling]]; a negative bound counts from the end. *)
Definition slice_to (ceiling : Z) (s : text) : text :=
  if 0 <=? ceiling then firstn (Z.to_nat ceiling) s
  else firstn (length s - Z.to_nat (- ceiling)) s.

(** [s.rsplit(c, 1)[0]] for a one-character [c]: [s] up to its last [c],
    all of [s] when it has none. *)
Fixpoint rsplit_head (c : ascii) (s : text) : text :=
  match s with
  | [] => []
  | a :: rest =>
      if existsb (Ascii.eqb c) rest then a :: rsplit_head c rest
      else if Ascii.eqb a c then []
      else s
  end.

(** [to_slug(text, ceiling)], the text being [s] here.  [fold] is
    [unicodedata.normalize("NFKD", .).encode("ascii", "ignore").decode("ascii")],
    which the model leaves open. *)
Definition to_slug (fold : text -> text) (s : text) (ceiling : Z) : text :=
  let normalised := fold s in
  let lowered := lower normalised in
  let dashed := sub_non_alnum false lowered in
  let collapsed := strip_char "-" (sub_dashes false dashed) in
  if ceiling <? Z.of_nat (length collapsed)
  then rsplit_head "-" (slice_to ceiling collapsed)
  else collapsed.

(** Characters of [[a-z0-9]] and single dashes; with [after_dash], no dash
    in front either. *)
Fixpoint dashes_single (after_dash : bool) (s : text) : bool :=
  match s with
  | [] => true
  | c :: rest =>
      if is_slug_alnum c then dashes_single false rest
      else Ascii.eqb c "-" && negb after_dash && dashes_single true rest
  end.

(** The same, and no dash at the end. *)
Fixpoint dashes_inside (after_dash : bool) (s : text) : bool :=
  match s with
  | [] => negb after_dash
  | c :: rest =>
      if is_slug_alnum c then dashes_inside false rest
      else Ascii.eqb c "-" && negb after_dash && dashes_inside true rest
  end.

(** A directory-name fragment: characters of [[a-z0-9]] joined by single
    dashes, or nothing. *)
Definition is_slug (s : text) : bool :=
  match s with
  | [] => true
  | _ => dashes_inside true s
  end.

End Slug.

(* --------------------------------------------------------------------- *)
(** ** harvester/cli.py: [collect_all]                                    *)
(* --------------------------------------------------------------------- *)

Module Collect.
Import Text Pipeline.

(** What a call [_run_source(src, key, queries, limit, size_cap)] does for
    [collect_all]: it returns its three totals, or raises. *)
Inductive run_result :=
| RunOk (totals : Stats)
| RunRaised (message : text).

Inductive status := OK | FAILED.

(** One value of the dictionary [results]. *)
Record entry := {
  e_status : status;
  e_downloaded : nat;
  e_restricted : nat;
  e_skipped : nat;
  e_error : option text;
}.

Definition ok_entry (totals : Stats) : entry :=
  {| e_status := OK;
     e_downloaded := n_downloaded totals;
     e_restricted := n_restricted totals;
     e_skipped := n_skipped totals;
     e_error := None |}.

Definition failed_entry (message : text) : entry :=
  {| e_status := FAILED; e_downloaded := 0; e_restricted := 0;
     e_skipped := 0; e_error := Some message |}.

(** [results[key]["error"] = str(exc)] *)
Definition set_error (message : text) (e : entry) : entry :=
  {| e_status := e_status e; e_downloaded := e_downloaded e;
     e_restricted := e_restricted e; e_skipped := e_skipped e;
     e_error := Some message |}.

(** The locals [results] and [failures] (in the retry loop:
    [still_broken]), and the calls of [_run_source] made so far: the key and
    the pass, 0 for the first pass over the sources and [attempt] for a pass
    of the retry loop. *)
Record state := {
  results : gmap text entry;
  failures : list text;
  calls : list (text * nat);
}.

Section Passes.
(** [run key pass]: what the call of [_run_source] for the source [key] in
    the pass [pass] does. *)
Context (run : text -> nat -> run_result).

(** The body of [for key, src in SOURCES.items()]. *)
Definition first_step (st : state) (key : text) : state :=
  match run key 0%nat with
  | RunOk totals =>
      {| results := <[key := ok_entry totals]> (results st);
         failures := failures st;
         calls := calls st ++ [(key, 0%nat)] |}
  | RunRaised message =>
      {| results := <[key := failed_entry message]> (results st);
         failures := failures st ++ [key];
         calls := calls st ++ [(key, 0%nat)] |}
  end.

Definition first_pass (keys : list text) : state :=
  fold_left first_step keys {| results := ∅; failures := []; calls := [] |}.

(** The body of [for key in failures] in the retry loop; [failures st] is
    the local [still_broken] here. *)
Definition retry_step (attempt : nat) (st : state) (key : text) : state :=
  match run key attempt with
  | RunOk totals =>
      {| results := <[key := ok_entry totals]> (results st);
         failures := failures st;
         calls := calls st ++ [(key, attempt)] |}
  | RunRaised message =>
      {| results := alter (set_error message) key (results st);
         failures := failures st ++ [key];
         calls := calls st ++ [(key, attempt)] |}
  end.

(** One pass of the retry loop after its [break] test:
    [still_broken = []], the loop over [failures], and
    [failures = still_broken]. *)
Definition retry_pass (attempt : nat) (st : state) : state :=
  fold_left (retry_step attempt) (failures st)
    {| results := results st; failures := []; calls := calls st |}.

(** [for attempt in attempts: if not failures: break ...] *)
Fixpoint retry_loop (attempts : list nat) (st : state) : state :=
  match attempts with
  | [] => st
  | attempt :: rest =>
      match failures st with
      | [] => st
      | _ => retry_loop rest (retry_pass attempt st)
      end
  end.

(** [collect_all] up to the report, for the sources [keys] in the order of
    [SOURCES]; [range(1, retries + 1)] is [seq 1 retries], empty for a
    negative [retries]. *)
Definition collect_all (keys : list text) (retries : Z) : state :=
  retry_loop (seq 1 (Z.to_nat retries)) (first_pass keys).

(** The passes in which [_run_source] was called for [key], in order. *)
Definition passes_of (key : text) (st : state) : list nat :=
  List.map snd (List.filter (fun c => text_eqb (fst c) key) (calls st)).

Definition raised (r : run_result) : Prop :=
  match r with RunRaised _ => True | RunOk _ => False end.

(** How the source [key] stands after the first pass and [k] passes of the
    retry loop: every call for it raised, it is still in [failures] and its
    entry is the FAILED one with the message of the last call; or its call in
    some pass [j] returned, after raising in every pass before, its entry is
    the OK one of that call, and it was not called again. *)
Definition stands (k : nat) (st : state) (key : text) : Prop :=
  (In key (failures st)
   /\ (forall i, (i <= k)%nat -> raised (run key i))
   /\ (exists message, run key k = RunRaised message
         /\ results st !! key = Some (failed_entry message))
   /\ passes_of key st = seq 0 (S k))
  \/ (~ In key (failures st)
      /\ exists j totals, (j <= k)%nat
           /\ (forall i, (i < j)%nat -> raised (run key i))
           /\ run key j = RunOk totals
           /\ results st !! key = Some (ok_entry totals)
           /\ passes_of key st = seq 0 (S j)).

End Passes.

End Collect.

(* --------------------------------------------------------------------- *)
(** ** harvester/cli.py: the status column of [browse] and [detail]       *)
(* --------------------------------------------------------------------- *)

Module Browse.
Import Text Pipeline.

Inductive status := Downloaded | Restricted | Metadata.

(** [if r.local_path: ... elif r.notes and "restricted" in r.notes: ...
    else: ...]; an empty string is false. *)
Definition status_of (r : Models.File) : status :=
  match Models.local_path r with
  | Some (_ :: _) => Downloaded
  | _ =>
      match Models.notes r with
      | Some ((_ :: _) as notes) =>
          if contains (txt "restricted") notes then Restricted else Metadata
      | _ => Metadata
      end
  end.

Definition shown_downloaded (r : Models.File) : bool :=
  match status_of r with Downloaded => true | _ => false end.

Definition shown_restricted (r : Models.File) : bool :=
  match status_of r with Restricted => true | _ => false end.

(** A row as one turn of [_process_hits] writes it: with the local path of
    a download and no notes, or with no local path and one of the three
    notes. *)
Definition row_kind (sys : Platform.t) (r : Models.File) : Prop :=
  (exists local, Models.local_path r = Some (Platform.relative_to_root sys local)
                 /\ Models.notes r = None)
  \/ (Models.local_path r = None
      /\ (Models.notes r = Some (txt "irrelevant file type")
          \/ (exists file_bytes, Models.notes r = Some (oversized_notes file_bytes))
          \/ Models.notes r = Some default_notes)).

End Browse.

(* --------------------------------------------------------------------- *)
(** ** Notions the statements about the adapters and the commands use     *)
(* --------------------------------------------------------------------- *)

Module Notions.
Import Text SourcesBase.

(** The offsets of [n] requests of [find] from [offset] on. *)
Fixpoint offsets (offset : Z) (n : nat) : list Z :=
  match n with
  | O => []
  | S n' => offset :: offsets (offset + 100) n'
  end.

(** The hits of the page at [offset]; none when the request raises. *)
Definition page_hits (host key : text)
    (search : Z -> option DataverseApi.Payload) (offset : Z) : list DatasetHit :=
  match search offset with
  | Some payload =>
      List.map (DataverseApi.hit_of_item host key)
        (default [] (DataverseApi.items payload))
  | None => []
  end.


(** The seconds slept in a trace of [pull_file]. *)
Definition slept (trace : list Dataverse.event) : Z :=
  fold_right
    (fun e acc => match e with Dataverse.Sleep s => s + acc | _ => acc end)
    0 trace.

(** The state of [collect_all] between passes: every source stands,
    [failures] holds sources only, each once, and [results] has entries for
    sources only. *)
Definition between (run : text -> nat -> Collect.run_result)
    (keys : list text) (k : nat) (st : Collect.state) : Prop :=
  (forall key, In key keys -> Collect.stands run k st key)
  /\ (forall key, In key (Collect.failures st) -> In key keys)
  /\ List.NoDup (Collect.failures st)
  /\ (forall key, ~ In key keys -> Collect.results st !! key = None).

(** Characters that [lower] makes equal are both or neither of [<], [>] and
    white space. *)
Definition fold_blind (x y : ascii) : bool :=
  implb (Ascii.eqb (lower_char x) (lower_char y))
    (Bool.eqb (Ascii.eqb x "<") (Ascii.eqb y "<")
     && Bool.eqb (Ascii.eqb x ">") (Ascii.eqb y ">")
     && Bool.eqb (isspace x) (isspace y)).

End Notions.

(* --------------------------------------------------------------------- *)
(** ** More concrete inputs                                               *)
(* --------------------------------------------------------------------- *)

Module MoreFixtures.
Import Text SourcesBase Pipeline.

(** The platform of [Fixture] with the relative path of the root itself
    spelled ["."], as [pathlib] spells it. *)
Definition sys_rel : Platform.t :=
  {| Platform.suffix := Platform.suffix Fixture.sys;
     Platform.joinpath := Platform.joinpath Fixture.sys;
     Platform.parent := Platform.parent Fixture.sys;
     Platform.name := Platform.name Fixture.sys;
     Platform.relative_to_root := fun p =>
       match p with [] => txt "." | _ => p end;
     Platform.sha256_hex := Platform.sha256_hex Fixture.sys;
     Platform.to_slug := Platform.to_slug Fixture.sys;
     Platform.utcnow := Platform.utcnow Fixture.sys |}.

(** The source of [Fixture] with a connection that breaks: every download
    raises after two bytes have been written to the target. *)
Definition torn_source : BaseSource :=
  {| find := find Fixture.source;
     fetch_metadata := fetch_metadata Fixture.source;
     pull_file := fun url dest fname =>
       PullException (Some (dest ++ txt "/" ++ fname, Fixture.bytes "he")) |}.

(** An item of a search answer with a global id. *)
Definition item_doi : DataverseApi.Item :=
  {| DataverseApi.it_url := Some (txt "https://doi.org/10.1/A");
     DataverseApi.it_name := Some (txt "Open study");
     DataverseApi.it_description := None;
     DataverseApi.it_authors := Some [txt "Ada"; txt "Grace"];
     DataverseApi.it_published_at := None;
     DataverseApi.it_subjects := None;
     DataverseApi.it_global_id := Some (txt "doi:10.1/A") |}.

(** A queries file: a query with blanks around it, a comment, an empty
    line, an indented comment and a second query. *)
Definition queries_file : text :=
  txt "  interview study " ++ [ascii_of_N 10]
  ++ txt "# comment" ++ [ascii_of_N 10] ++ [ascii_of_N 10]
  ++ txt "   #x" ++ [ascii_of_N 10] ++ txt "focus group".

Definition read_text (path : text) : option text :=
  if text_eqb path (txt "queries.txt") then Some queries_file else None.

(** Runs of two sources: "qdr" returns at once; "osf" raises in the first
    pass and in the first retry, and returns in the second retry. *)
Definition run (key : text) (pass : nat) : Collect.run_result :=
  if text_eqb key (txt "osf") then
    match pass with
    | 0%nat => Collect.RunRaised (txt "timeout")
    | 1%nat => Collect.RunRaised (txt "bad gateway")
    | _ => Collect.RunOk {| n_downloaded := 2; n_restricted := 1; n_skipped := 0 |}
    end
  else Collect.RunOk {| n_downloaded := 5; n_restricted := 0; n_skipped := 3 |}.

End MoreFixtures.

(* ===================================================================== *)
(** * Part II: properties                                                 *)
(* ===================================================================== *)

Module LicensingFacts.
Import Text Licensing Vocabulary.

Example license_cc_by_4 : license_is_open (Some (txt "CC BY 4.0")) = true.
Proof. reflexivity. Qed.

Example license_cc0_1 : license_is_open (Some (txt "CC0 1.0")) = true.
Proof. reflexivity. Qed.

Example license_standard_access :
  license_is_open (Some (txt "Standard Access")) = true.
Proof. reflexivity. Qed.

Example license_all_rights_reserved :
  license_is_open (Some (txt "All rights reserved")) = false.
Proof. reflexivity. Qed.

Example license_public_domain_space :
  license_is_open (Some (txt "Public Domain")) = true.
Proof. reflexivity. Qed.

Example license_wrapped_p :
  license_is_open (Some (txt "<p>CC BY 4.0</p>")) = true.
Proof. reflexivity. Qed.

(** *** Tag stripping *)

Lemma sub_tags_inside (t rest : text) :
  existsb (Ascii.eqb ">") t = false ->
  sub_tags true (t ++ ">"%char :: rest) = sub_tags false rest.
Proof.
  induction t as [|c t IH]; cbn [existsb app sub_tags]; intros Hgt.
  - now rewrite Ascii.eqb_refl.
  - apply orb_false_iff in Hgt as [Hc Ht].
    rewrite Ascii.eqb_sym in Hc. rewrite Hc. auto.
Qed.

Lemma tag_opens_body (t rest : text) :
  t <> [] -> existsb (Ascii.eqb ">") t = false ->
  tag_opens (t ++ ">"%char :: rest) = true.
Proof.
  destruct t as [|d t]; [congruence|]. cbn [existsb app tag_opens].
  intros _ Hgt. apply orb_false_iff in Hgt as [Hd Ht].
  rewrite Ascii.eqb_sym in Hd. rewrite Hd. cbn [negb andb].
  rewrite existsb_app. cbn [existsb]. rewrite Ascii.eqb_refl.
  apply orb_true_iff. right. reflexivity.
Qed.

Lemma sub_tags_tag (t rest : text) :
  t <> [] -> existsb (Ascii.eqb ">") t = false ->
  sub_tags false ("<"%char :: t ++ ">"%char :: rest)
  = " "%char :: sub_tags false rest.
Proof.
  intros Hne Hgt. cbn [sub_tags]. rewrite Ascii.eqb_refl.
  rewrite tag_opens_body by assumption. cbn [andb].
  now rewrite sub_tags_inside.
Qed.

(** A text whose ["<"] are all closed is scanned the same way whatever
    follows it. *)
Lemma sub_tags_app (s tl : text) : forall b : bool,
  lt_closed s = true ->
  (b = true -> existsb (Ascii.eqb ">") s = true) ->
  sub_tags b (s ++ tl) = sub_tags b s ++ sub_tags false tl.
Proof.
  induction s as [|c s IH]; intros b Hcl Hb.
  - destruct b; [|reflexivity]. specialize (Hb eq_refl). discriminate.
  - cbn [lt_closed] in Hcl. apply andb_true_iff in Hcl as [Hc Hcl].
    cbn [app sub_tags]. destruct b.
    + specialize (Hb eq_refl). cbn [existsb] in Hb.
      rewrite Ascii.eqb_sym in Hb.
      destruct (Ascii.eqb c ">") eqn:E.
      * apply IH; [assumption|discriminate].
      * apply IH; [assumption|]. intros _. exact Hb.
    + destruct (Ascii.eqb c "<") eqn:E; cbn [andb].
      * destruct s as [|d s'] eqn:Es; [discriminate|].
        cbn [app tag_opens]. cbn [existsb] in Hc.
        destruct (Ascii.eqb d ">") eqn:Ed; cbn [negb andb].
        -- rewrite <- app_comm_cons. f_equal.
           rewrite app_comm_cons. apply IH; [assumption|discriminate].
        -- rewrite Ascii.eqb_sym, Ed in Hc. cbn [orb] in Hc.
           rewrite existsb_app, Hc. cbn [orb].
           rewrite <- app_comm_cons. f_equal.
           rewrite app_comm_cons. apply IH; [assumption|].
           intros _. cbn [existsb]. rewrite Hc. apply orb_true_r.
      * rewrite <- app_comm_cons. f_equal.
        apply IH; [assumption|discriminate].
Qed.

Lemma sub_tags_wrap (t s : text) :
  t <> [] -> existsb (Ascii.eqb ">") t = false -> lt_closed s = true ->
  sub_tags false (wrap_tag t s)
  = " "%char :: sub_tags false s ++ [" "%char].
Proof.
  intros Hne Hgt Hcl. unfold wrap_tag, txt. cbn [list_ascii_of_string app].
  rewrite sub_tags_tag by assumption. f_equal.
  rewrite (sub_tags_app s _ false Hcl) by discriminate. f_equal.
  change ("<"%char :: "/"%char :: t ++ [">"%char])
    with ("<"%char :: ("/"%char :: t) ++ ">"%char :: []).
  rewrite sub_tags_tag; [reflexivity|discriminate|].
  cbn [existsb]. rewrite Hgt. reflexivity.
Qed.

(** *** Whitespace collapsing and stripping *)

Lemma isspace_space : isspace " " = true.
Proof. reflexivity. Qed.

Lemma lstrip_sub_ws (s : text) :
  lstrip (sub_ws true s) = lstrip (sub_ws false s).
Proof.
  destruct s as [|c s]; [reflexivity|]. cbn [sub_ws].
  destruct (isspace c); [|reflexivity].
  cbn [lstrip]. now rewrite isspace_space.
Qed.

Lemma rstrip_sub_ws_space (s : text) : forall b : bool,
  rstrip (sub_ws b (s ++ [" "%char])) = rstrip (sub_ws b s).
Proof.
  induction s as [|c s IH]; intros b.
  - destruct b; reflexivity.
  - cbn [app sub_ws]. destruct (isspace c).
    + destruct b; [apply IH|]. cbn [rstrip]. now rewrite IH.
    + cbn [rstrip]. now rewrite IH.
Qed.

Lemma strip_sub_ws_space (s : text) : forall b : bool,
  strip (sub_ws b (s ++ [" "%char])) = strip (sub_ws b s).
Proof.
  unfold strip. induction s as [|c s IH]; intros b.
  - destruct b; reflexivity.
  - cbn [app sub_ws]. destruct (isspace c) eqn:E.
    + destruct b; [apply IH|]. cbn [lstrip]. rewrite isspace_space. apply IH.
    + cbn [lstrip]. rewrite E. cbn [rstrip].
      now rewrite rstrip_sub_ws_space.
Qed.

Lemma cleaned_wrap (t s : text) :
  t <> [] -> existsb (Ascii.eqb ">") t = false -> lt_closed s = true ->
  cleaned (wrap_tag t s) = cleaned s.
Proof.
  intros Hne Hgt Hcl. unfold cleaned. rewrite sub_tags_wrap by assumption.
  cbn [sub_ws]. rewrite isspace_space.
  unfold strip at 1. cbn [lstrip]. rewrite isspace_space.
  rewrite lstrip_sub_ws. fold (strip (sub_ws false (sub_tags false s ++ [" "%char]))).
  apply strip_sub_ws_space.
Qed.

Lemma startswith_incl (p : text) : forall s : text,
  startswith s p = true -> incl p s.
Proof.
  induction p as [|a p IH]; intros s H.
  - intros c [].
  - destruct s as [|c s]; [discriminate|]. cbn [startswith] in H.
    apply andb_true_iff in H as [Hc Hp]. apply Ascii.eqb_eq in Hc. subst c.
    intros x [<-|Hx]; [now left|]. right. now apply (IH s).
Qed.

Lemma canonical_no_space (s : text) : ~ In " "%char (canonical s).
Proof.
  unfold canonical, replace_char. rewrite map_map. intros H.
  apply in_map_iff in H as (c & Hc & _).
  destruct (Ascii.eqb c " ") eqn:E1; [discriminate|].
  destruct (Ascii.eqb c "_") eqn:E2; [discriminate|].
  subst c. discriminate.
Qed.

(** C3.  The allow-list holds the identifier "public domain", and the
    classifier canonicalises underscores to hyphens to accept spelling
    variants, yet the underscore and hyphen variants of that member are
    classified as not open: their canonical text "public-domain" starts with
    no allow-list entry (the entry keeps its space, which no canonical text
    has), and the phrase list only knows the spelling with a space. *)
Theorem license_public_domain_underscore_rejected :
  In (txt "public domain") _ACCEPTED
  /\ canonical (cleaned (txt "public_domain")) = txt "public-domain"
  /\ (forall s : text, startswith (canonical s) (txt "public domain") = false)
  /\ license_is_open (Some (txt "public_domain")) = false
  /\ license_is_open (Some (txt "Public-Domain")) = false.
Proof.
  split; [|split; [reflexivity|split; [|split; reflexivity]]].
  - unfold _ACCEPTED. apply in_map. cbn. tauto.
  - intros s. destruct (startswith _ _) eqn:E; [|reflexivity].
    exfalso. apply (canonical_no_space s).
    apply (startswith_incl _ _ E). cbn. tauto.
Qed.

(** *** The rest of the allow-list *)

Lemma all_chars_complete (c : ascii) : In c all_chars.
Proof.
  unfold all_chars. rewrite <- (ascii_nat_embedding c).
  apply in_map, in_seq. pose proof (nat_ascii_bounded c). lia.
Qed.

Lemma spelling_plain (cm cv : ascii) :
  spellings_plain cm = true -> spelling cm cv = true ->
  cv <> "<"%char
  /\ (isspace cv = true -> cv = " "%char /\ is_sep cm = true)
  /\ canon_char cv = cm.
Proof.
  intros Hall Hs. unfold spellings_plain in Hall.
  rewrite forallb_forall in Hall. specialize (Hall cv (all_chars_complete cv)).
  rewrite Hs in Hall. cbn [implb] in Hall.
  apply andb_true_iff in Hall as [Hall Hcanon].
  apply andb_true_iff in Hall as [Hlt Hspace].
  split; [|split].
  - intros ->. discriminate.
  - intros Hsp. rewrite Hsp in Hspace. cbn [implb] in Hspace.
    apply andb_true_iff in Hspace as [Heq Hsep].
    now apply Ascii.eqb_eq in Heq.
  - now apply Ascii.eqb_eq.
Qed.

Lemma sub_tags_no_lt (v : text) :
  Forall (fun c => c <> "<"%char) v -> sub_tags false v = v.
Proof.
  induction 1 as [|c v Hc _ IH]; [reflexivity|]. cbn [sub_tags].
  apply Ascii.eqb_neq in Hc. rewrite Hc. cbn [andb]. now rewrite IH.
Qed.

Lemma sub_ws_well_spaced (v : text) : forall b : bool,
  well_spaced b v = true -> sub_ws b v = v.
Proof.
  induction v as [|c v IH]; intros b H; [reflexivity|].
  cbn [well_spaced] in H. cbn [sub_ws]. destruct (isspace c).
  - apply andb_true_iff in H as [H Hrest]. apply andb_true_iff in H as [Hc Hb].
    apply Ascii.eqb_eq in Hc. apply negb_true_iff in Hb. subst.
    now rewrite (IH true Hrest).
  - now rewrite (IH false H).
Qed.

Lemma rstrip_well_spaced (v : text) : forall b : bool,
  well_spaced b v = true -> rstrip v = v.
Proof.
  induction v as [|c v IH]; intros b H; [reflexivity|].
  cbn [well_spaced] in H. cbn [rstrip]. destruct (isspace c) eqn:Hsp.
  - apply andb_true_iff in H as [_ Hrest]. rewrite (IH true Hrest).
    destruct v; [discriminate | reflexivity].
  - rewrite (IH false H). now destruct v.
Qed.

Lemma cleaned_well_spaced (v : text) :
  Forall (fun c => c <> "<"%char) v -> well_spaced true v = true ->
  cleaned v = v.
Proof.
  intros Hlt Hws. unfold cleaned. rewrite (sub_tags_no_lt v Hlt).
  assert (Hsub : sub_ws false v = v).
  { destruct v as [|c v]; [reflexivity|]. cbn [well_spaced] in Hws.
    cbn [sub_ws]. destruct (isspace c).
    - now rewrite andb_false_r in Hws.
    - now rewrite (sub_ws_well_spaced v false Hws). }
  rewrite Hsub. unfold strip.
  assert (Hl : lstrip v = v).
  { destruct v as [|c v]; [reflexivity|]. cbn [well_spaced] in Hws.
    cbn [lstrip]. destruct (isspace c); [|reflexivity].
    now rewrite andb_false_r in Hws. }
  rewrite Hl. now apply (rstrip_well_spaced v true).
Qed.

Lemma canonical_map (s : text) : canonical s = List.map canon_char s.
Proof.
  unfold canonical, replace_char, lower. rewrite !map_map. reflexivity.
Qed.

(** A variant of a well-formed member is clean already and canonicalises to
    the member. *)
Lemma variant_canonical (m : text) : forall (v : text) (b b' : bool),
  forallb spellings_plain m = true ->
  seps_isolated b m = true -> (b' = true -> b = true) ->
  variant_of m v ->
  Forall (fun c => c <> "<"%char) v
  /\ well_spaced b' v = true
  /\ List.map canon_char v = m.
Proof.
  unfold variant_of. induction m as [|cm m IH]; intros v b b' Hplain Hsep Hb Hv.
  - inversion Hv; subst. cbn in *. repeat split; [constructor|].
    destruct b'; [|reflexivity]. now rewrite Hb in Hsep.
  - inversion Hv as [|? cv ? v' Hc Hrest]; subst.
    cbn [forallb] in Hplain. apply andb_true_iff in Hplain as [Hcm Hplain].
    destruct (spelling_plain cm cv Hcm Hc) as (Hlt & Hspace & Hcanon).
    cbn [seps_isolated] in Hsep. cbn [well_spaced List.map].
    destruct (isspace cv) eqn:Hsp.
    + destruct (Hspace eq_refl) as [-> Hsepcm]. rewrite Hsepcm in Hsep.
      apply andb_true_iff in Hsep as [Hnb Hsep]. apply negb_true_iff in Hnb.
      destruct (IH v' true true Hplain Hsep (fun _ => eq_refl) Hrest)
        as (Hall & Hws & Hmap).
      repeat split.
      * now constructor.
      * rewrite Hws. destruct b'; [|reflexivity].
        rewrite (Hb eq_refl) in Hnb. discriminate.
      * now rewrite Hcanon, Hmap.
    + assert (Hsep' : exists b0, seps_isolated b0 m = true).
      { destruct (is_sep cm).
        - apply andb_true_iff in Hsep as [_ Hsep]. now exists true.
        - now exists false. }
      destruct Hsep' as (b0 & Hsep').
      destruct (IH v' b0 false Hplain Hsep' ltac:(discriminate) Hrest)
        as (Hall & Hws & Hmap).
      repeat split.
      * now constructor.
      * exact Hws.
      * now rewrite Hcanon, Hmap.
Qed.

Lemma hyphenated_members_ok : forallb member_ok hyphenated_members = true.
Proof. vm_compute. reflexivity. Qed.

(** Every case and spacing variant of every other member of the allow-list
    is classified as open. *)
Lemma license_hyphenated_variants_accepted (m v : text) :
  In m _ACCEPTED -> m <> txt "public domain" -> variant_of m v ->
  license_is_open (Some v) = true.
Proof.
  intros Hm Hne Hv.
  pose proof hyphenated_members_ok as Hall.
  rewrite forallb_forall in Hall.
  assert (Hin : In m hyphenated_members).
  { apply filter_In. split; [exact Hm|].
    apply negb_true_iff, bool_decide_eq_false. exact Hne. }
  specialize (Hall m Hin). unfold member_ok in Hall.
  apply andb_true_iff in Hall as [Hall Hprefix].
  apply andb_true_iff in Hall as [Hplain Hsep].
  destruct (variant_canonical m v true true Hplain Hsep (fun _ => eq_refl) Hv)
    as (Hlt & Hws & Hmap).
  assert (Hopen : prefix_match (cleaned v) = true).
  { unfold prefix_match. rewrite (cleaned_well_spaced v Hlt Hws).
    now rewrite canonical_map, Hmap. }
  destruct v as [|c v].
  - inversion Hv; subst. cbn in Hsep. discriminate.
  - cbn [license_is_open]. now rewrite Hopen.
Qed.

Lemma license_missing_rejected :
  license_is_open None = false /\ license_is_open (Some []) = false.
Proof. split; reflexivity. Qed.


(** An element [<t>s</t>] is [s] between one tag and one tag. *)
Lemma wrap_tag_tags (t s : text) :
  wrap_tag t s = wrap_tags [t] [txt "/" ++ t] s.
Proof.
  unfold wrap_tag, wrap_tags. cbn [tags txt list_ascii_of_string app].
  now rewrite <- app_assoc.
Qed.











End LicensingFacts.

(* --------------------------------------------------------------------- *)
(** ** The download retry loop                                            *)
(* --------------------------------------------------------------------- *)

Module DataverseFacts.
Import Dataverse Vocabulary.

Example backoff_schedule :
  trace_through 3 = [Request 1; Sleep 2; Request 2; Sleep 4; Request 3].
Proof. reflexivity. Qed.

(** Passes that fail with a caught error and are not the last one allowed
    are followed by a sleep and the next pass. *)
Lemma pull_file_loop_retry (network : nat -> attempt_result)
    (attempt : nat) (rest : list nat) (exc : error) :
  network attempt = Failed exc -> caught exc = true ->
  (attempt < _RETRY_LIMIT)%nat ->
  pull_file_loop network (attempt :: rest)
  = (fst (pull_file_loop network rest),
     Request attempt
     :: Sleep (_INITIAL_BACKOFF * 2 ^ (Z.of_nat attempt - 1))
     :: snd (pull_file_loop network rest)).
Proof.
  intros Hnet Hc Hlt. cbn [pull_file_loop]. rewrite Hnet, Hc.
  apply Nat.ltb_lt in Hlt. rewrite Hlt.
  now destruct (pull_file_loop network rest).
Qed.

(** The prefix of caught failures before the deciding pass [k]. *)
Lemma pull_file_prefix (network : nat -> attempt_result) (k : nat) :
  (1 <= k <= 3)%nat ->
  (forall i : nat, (1 <= i < k)%nat ->
     exists exc, network i = Failed exc /\ caught exc = true) ->
  forall res : outcome,
  pull_file_loop network [k] = (res, [Request k]) ->
  (forall rest, pull_file_loop network (k :: rest) = (res, [Request k])) ->
  pull_file network = (res, trace_through k).
Proof.
  intros Hk Hpre res Hlast Hstop. unfold pull_file.
  change (seq 1 _RETRY_LIMIT) with [1; 2; 3]%nat.
  assert (Hcases : k = 1%nat \/ k = 2%nat \/ k = 3%nat) by lia.
  destruct Hcases as [-> | [-> | ->]].
  - apply Hstop.
  - destruct (Hpre 1%nat ltac:(lia)) as (e1 & H1 & C1).
    rewrite (pull_file_loop_retry _ _ _ _ H1 C1) by (unfold _RETRY_LIMIT; lia).
    rewrite Hstop. reflexivity.
  - destruct (Hpre 1%nat ltac:(lia)) as (e1 & H1 & C1).
    destruct (Hpre 2%nat ltac:(lia)) as (e2 & H2 & C2).
    rewrite (pull_file_loop_retry _ _ _ _ H1 C1) by (unfold _RETRY_LIMIT; lia).
    rewrite (pull_file_loop_retry _ _ _ _ H2 C2) by (unfold _RETRY_LIMIT; lia).
    rewrite Hstop. reflexivity.
Qed.

(** C7.  Let the passes before pass [k] (at most the third) all fail with a
    connect error, a read error or a connection error.  Then [pull_file] has
    slept 2 s after the first and 4 s after the second of them and makes
    pass [k], and
    - if pass [k] saves the file, its path is returned;
    - if pass [k] raises an HTTP status error (or anything else that is not
      caught), that error is raised at once: no sleep, no further pass;
    - if pass [k] is the third and fails with a caught error, that last
      error is raised after three requests and the sleeps 2 s and 4 s. *)
Theorem pull_file_retry_discipline (network : nat -> attempt_result) (k : nat) :
  (1 <= k <= 3)%nat ->
  (forall i : nat, (1 <= i < k)%nat ->
     exists exc, network i = Failed exc /\ caught exc = true) ->
  (forall out, network k = Saved out ->
     pull_file network = (Returned out, trace_through k))
  /\ (forall status_code, network k = Failed (HTTPStatusError status_code) ->
        pull_file network
        = (Raised (HTTPStatusError status_code), trace_through k))
  /\ (forall exc, network k = Failed exc -> caught exc = false ->
        pull_file network = (Raised exc, trace_through k))
  /\ (forall exc, network k = Failed exc -> caught exc = true -> k = 3%nat ->
        pull_file network
        = (Raised exc,
           [Request 1; Sleep 2; Request 2; Sleep 4; Request 3])).
Proof.
  intros Hk Hpre.
  assert (Huncaught : forall exc, network k = Failed exc -> caught exc = false ->
            pull_file network = (Raised exc, trace_through k)).
  { intros exc Hnet Hc. apply pull_file_prefix; try assumption.
    - cbn [pull_file_loop]. now rewrite Hnet, Hc.
    - intros rest. cbn [pull_file_loop]. now rewrite Hnet, Hc. }
  repeat split.
  - intros out Hnet. apply pull_file_prefix; try assumption.
    + cbn [pull_file_loop]. now rewrite Hnet.
    + intros rest. cbn [pull_file_loop]. now rewrite Hnet.
  - intros status_code Hnet. now apply Huncaught.
  - exact Huncaught.
  - intros exc Hnet Hc ->. change [Request 1; Sleep 2; Request 2; Sleep 4; Request 3]
      with (trace_through 3).
    apply pull_file_prefix; try assumption.
    + cbn [pull_file_loop]. now rewrite Hnet, Hc.
    + intros rest. cbn [pull_file_loop]. now rewrite Hnet, Hc.
Qed.

Lemma pull_file_retry_discipline_witness :
  pull_file Fixture.flaky_then_forbidden
  = (Raised (HTTPStatusError 403),
     [Request 1; Sleep 2; Request 2; Sleep 4; Request 3]).
Proof.
  assert (Hk : (1 <= 3 <= 3)%nat) by lia.
  assert (Hpre : forall i : nat, (1 <= i < 3)%nat ->
            exists exc, Fixture.flaky_then_forbidden i = Failed exc /\ caught exc = true).
  { intros i Hi. assert (Hc : i = 1%nat \/ i = 2%nat) by lia.
    destruct Hc as [-> | ->]; eexists; split; reflexivity. }
  exact (proj1 (proj2 (pull_file_retry_discipline Fixture.flaky_then_forbidden 3 Hk Hpre))
           403 eq_refl).
Defined.

End DataverseFacts.

(* --------------------------------------------------------------------- *)
(** ** The run driver                                                     *)
(* --------------------------------------------------------------------- *)

Module DriverFacts.
Import Text SourcesBase Pipeline Driver.

Section RunSource.
Context (cfg : Settings.t) (sys : Platform.t) (source : BaseSource)
        (source_name : text) (cap : option Z) (size_cap : Z).

Lemma firstn_incl {A : Type} (n : nat) : forall l : list A, incl (firstn n l) l.
Proof.
  induction n as [|n IH]; intros [|x l]; cbn [firstn];
    try (intros z Hz; now destruct Hz).
  intros z [<-|Hz]; [now left|]. right. now apply IH.
Qed.

Lemma cap_hits_incl (hits : list DatasetHit) : incl (cap_hits cap hits) hits.
Proof.
  unfold cap_hits. destruct cap as [c|]; [|apply incl_refl].
  destruct (c =? 0); [apply incl_refl|].
  destruct (0 <? c); apply firstn_incl.
Qed.

Lemma unseen_not_seen (seen : gset text) (hits : list DatasetHit) (h : DatasetHit) :
  In h (unseen seen hits) -> source_url h ∉ seen.
Proof.
  unfold unseen. intros Hin. apply filter_In in Hin as [_ Hd].
  now apply bool_decide_eq_true in Hd.
Qed.

(** After a query, every URL its search returned is in [seen]. *)
Lemma seen_update_covers (seen : gset text) (hits : list DatasetHit) (h : DatasetHit) :
  In h hits -> source_url h ∈ seen_update seen (unseen seen hits).
Proof.
  intros Hin. unfold seen_update.
  destruct (decide (source_url h ∈ seen)) as [Hs|Hs]; [set_solver|].
  apply elem_of_union_r, elem_of_list_to_set, list_elem_of_In, in_map.
  unfold unseen. apply filter_In. split; [assumption|].
  now apply bool_decide_eq_true.
Qed.

Lemma seen_update_mono (seen : gset text) (hits : list DatasetHit) :
  seen ⊆ seen_update seen hits.
Proof. unfold seen_update. set_solver. Qed.

(** No hit that is fed carries a URL of the set [seen] the run started from. *)
Lemma fed_hits_not_seen (queries : list text) : forall (seen : gset text)
    (j : nat) (batch : list DatasetHit) (h : DatasetHit),
  fed_hits source cap seen queries !! j = Some batch ->
  In h batch -> source_url h ∉ seen.
Proof.
  induction queries as [|q rest IH]; intros seen j batch h Hj Hin.
  - destruct j; discriminate.
  - cbn [fed_hits] in Hj. destruct (find source q) as [hits|] eqn:Hq.
    + destruct j as [|j]; cbn in Hj.
      * injection Hj as <-. apply cap_hits_incl in Hin.
        now apply unseen_not_seen in Hin.
      * intros Hs. eapply IH; [exact Hj | exact Hin |].
        now apply seen_update_mono.
    + destruct j as [|j]; cbn in Hj.
      * injection Hj as <-. destruct Hin.
      * eapply IH; eassumption.
Qed.

Lemma fed_hits_later (queries : list text) : forall (seen : gset text)
    (i j : nat) (q1 : text) (found batch : list DatasetHit) (h h' : DatasetHit),
  (i < j)%nat ->
  queries !! i = Some q1 -> find source q1 = Some found -> In h found ->
  fed_hits source cap seen queries !! j = Some batch -> In h' batch ->
  source_url h' <> source_url h.
Proof.
  induction queries as [|q rest IH]; intros seen i j q1 found batch h h' Hij Hi Hq1 Hh Hj Hh'.
  - destruct i; discriminate.
  - destruct j as [|j]; [lia|]. cbn [fed_hits] in Hj.
    destruct i as [|i]; cbn in Hi.
    + injection Hi as ->. rewrite Hq1 in Hj. cbn in Hj.
      intros Heq.
      apply (fed_hits_not_seen _ _ _ _ _ Hj Hh').
      rewrite Heq. now apply seen_update_covers.
    + destruct (find source q) as [hits|]; cbn in Hj;
        eapply (IH _ i j); try eassumption; lia.
Qed.

(** The run is the fold of [_process_hits] over the lists [fed_hits] names. *)
Lemma run_source_feeds (queries : list text) : forall (ws : World * Stats)
    (seen : gset text),
  fst (fold_left (query_step cfg sys source source_name cap size_cap)
         queries (ws, seen))
  = fold_left (feed cfg sys source source_name size_cap)
      (fed_hits source cap seen queries) ws.
Proof.
  induction queries as [|q rest IH]; intros ws seen; [reflexivity|].
  cbn [fold_left fed_hits]. unfold query_step at 2.
  destruct (find source q) as [hits|]; cbn [fold_left]; now rewrite IH.
Qed.

(** C10.  [_run_source] calls [_process_hits] on exactly the lists
    [fed_hits] computes, one per query and in order; and for queries at
    positions [i < j], a dataset URL that the search of query [i] returned is
    carried by no hit fed to the pipeline under query [j], whether or not the
    per-query cap dropped it under query [i]. *)
Theorem run_source_seen_before_cap (queries : list text) (w : World)
    (i j : nat) (q1 : text) (found batch : list DatasetHit) (h : DatasetHit) :
  (i < j)%nat ->
  queries !! i = Some q1 ->
  find source q1 = Some found ->
  In h found ->
  fed_hits source cap ∅ queries !! j = Some batch ->
  _run_source cfg sys source source_name queries cap size_cap w
  = fold_left (feed cfg sys source source_name size_cap)
      (fed_hits source cap ∅ queries) (w, no_stats)
  /\ ~ In (source_url h) (List.map source_url batch).
Proof.
  intros Hij Hi Hq Hh Hj. split.
  - unfold _run_source. apply run_source_feeds.
  - intros Hin. apply in_map_iff in Hin as (h' & Heq & Hh').
    exact (fed_hits_later queries ∅ i j q1 found batch h h' Hij Hi Hq Hh Hj Hh' Heq).
Qed.

End RunSource.

End DriverFacts.

(* --------------------------------------------------------------------- *)
(** ** The file classifier                                                *)
(* --------------------------------------------------------------------- *)

Module ClassifierFacts.
Import Text SourcesBase Pipeline.

Lemma startswith_app (p rest : text) : startswith (p ++ rest) p = true.
Proof.
  induction p as [|a p IH]; [now destruct rest|].
  cbn [app startswith]. now rewrite Ascii.eqb_refl, IH.
Qed.

Lemma contains_app (p pre post : text) : contains p (pre ++ p ++ post) = true.
Proof.
  induction pre as [|c pre IH].
  - cbn [app]. destruct (p ++ post) eqn:E; cbn [contains];
      rewrite <- E, startswith_app; reflexivity.
  - cbn [app contains]. rewrite IH. apply orb_true_r.
Qed.

Lemma lower_app (a b : text) : lower (a ++ b) = lower a ++ lower b.
Proof. apply map_app. Qed.

Lemma mem_In (x : text) (S : list text) : mem x S = true <-> In x S.
Proof.
  unfold mem. rewrite existsb_exists. split.
  - intros (y & Hy & E). apply bool_decide_eq_true in E. now subst.
  - intros H. exists x. split; [assumption|]. now apply bool_decide_eq_true.
Qed.

(** C8.  A file whose lower-cased extension is in [QDA_FORMATS] is a QDA
    file whatever its descriptor says (content type included); and a file
    whose friendly-type label contains the marker "refi-qda", in any mix of
    upper and lower case, is a QDA file whatever its extension is. *)
Theorem is_qda_file_by_extension_or_label (cfg : Settings.t) (sys : Platform.t)
    (fname : text) (finfo : FileInfo) :
  (In (lower (Platform.suffix sys fname)) (Settings.QDA_FORMATS cfg) ->
   _is_qda_file cfg sys fname finfo = true)
  /\ (forall pre marker post : text,
        lower marker = txt "refi-qda" ->
        fi_friendly_type finfo = Some (pre ++ marker ++ post) ->
        _is_qda_file cfg sys fname finfo = true).
Proof.
  split.
  - intros Hin. unfold _is_qda_file. apply mem_In in Hin. now rewrite Hin.
  - intros pre marker post Hm Hlabel. unfold _is_qda_file.
    rewrite Hlabel. cbn [from_option id].
    rewrite !lower_app, Hm, contains_app.
    now rewrite orb_true_r.
Qed.

End ClassifierFacts.

(* --------------------------------------------------------------------- *)
(** ** The admission pipeline: one file                                   *)
(* --------------------------------------------------------------------- *)

Module PipelineFacts.
Import Text SourcesBase Pipeline Vocabulary Notions.

Lemma text_eqb_eq (x y : text) : text_eqb x y = true <-> x = y.
Proof. unfold text_eqb. apply bool_decide_eq_true. Qed.

Lemma text_eqb_refl (x : text) : text_eqb x x = true.
Proof. now apply text_eqb_eq. Qed.

Lemma exists_by_url_name_url (rows : list Models.File) (sn url fname : text) :
  Models.exists_by_url rows sn url = false ->
  Models.exists_by_url_name rows sn url fname = false.
Proof.
  unfold Models.exists_by_url, Models.exists_by_url_name.
  induction rows as [|r rows IH]; cbn [existsb]; [reflexivity|].
  intros H. apply orb_false_iff in H as [Hr Hrows].
  rewrite Hr, (IH Hrows). reflexivity.
Qed.

(** *** The size printed in the notes *)





(** A file left behind changes the disk only. *)
Lemma store_leave (leftover : option (text * list Byte.byte)) (w : World) :
  store (leave leftover w) = store w.
Proof. now destruct leftover as [[path written]|]. Qed.

Lemma ticks_leave (leftover : option (text * list Byte.byte)) (w : World) :
  ticks (leave leftover w) = ticks w.
Proof. now destruct leftover as [[path written]|]. Qed.

Section OneFile.
Context (cfg : Settings.t) (sys : Platform.t) (source : BaseSource)
        (source_name : text) (size_cap : Z) (hit meta : DatasetHit)
        (finfo : FileInfo).

Local Abbreviation step := (file_step cfg sys source source_name size_cap hit meta).
Local Abbreviation folder := (folder_name cfg sys source_name hit meta finfo).
Local Abbreviation row := (metadata_record cfg sys source_name hit meta finfo).


Lemma file_step_reaches_gates (w : World) (n : Stats) :
  reaches_gates cfg sys source_name finfo w ->
  step (w, n) finfo
  = size_step cfg sys source source_name size_cap hit meta (w, n) finfo.
Proof.
  intros [Hirr Hurl]. unfold file_step. cbn [fst snd]. now rewrite Hirr, Hurl.
Qed.

(** What the digest of a freshly written file is. *)
Lemma sha256_digest_written (d : gmap text (list Byte.byte)) (local : text)
    (content : list Byte.byte) :
  Storage.sha256_digest sys (<[local := content]> d) local
  = Platform.sha256_hex sys content.
Proof. unfold Storage.sha256_digest. now rewrite lookup_insert_eq. Qed.




End OneFile.

End PipelineFacts.

(* --------------------------------------------------------------------- *)
(** ** The admission pipeline: what a run writes                          *)
(* --------------------------------------------------------------------- *)

Module AdmissionFacts.
Import Text SourcesBase Pipeline Vocabulary PipelineFacts.

(** *** Histories of the session *)

Lemma history_prefix (rows rows' : list Models.File) :
  history rows rows' -> exists added, rows' = rows ++ added.
Proof.
  induction 1 as [rows | rows mid rows' Hstep _ (added & ->)].
  - exists []. now rewrite app_nil_r.
  - inversion Hstep; subst.
    + now exists added.
    + exists ([r] ++ added). now rewrite <- app_assoc.
    + exists ([r] ++ added). now rewrite <- app_assoc.
Qed.

Lemma exists_by_hash_app (rows more : list Models.File) (digest : text) :
  Models.exists_by_hash (rows ++ more) digest
  = Models.exists_by_hash rows digest || Models.exists_by_hash more digest.
Proof. apply existsb_app. Qed.

Lemma exists_by_hash_kept (rows rows' : list Models.File) (digest : text) :
  history rows rows' ->
  Models.exists_by_hash rows digest = true ->
  Models.exists_by_hash rows' digest = true.
Proof.
  intros Hh He. destruct (history_prefix _ _ Hh) as (added & ->).
  now rewrite exists_by_hash_app, He.
Qed.

Lemma exists_by_hash_omap (rows : list Models.File) (digest : text) :
  Models.exists_by_hash rows digest = false ->
  digest ∉ omap Models.file_hash rows.
Proof.
  unfold Models.exists_by_hash.
  induction rows as [|r rows IH]; cbn [existsb]; intros H.
  - cbn. apply not_elem_of_nil.
  - apply orb_false_iff in H as [Hr Hrows]. apply bool_decide_eq_false in Hr.
    cbn. destruct (Models.file_hash r) as [d|] eqn:E; cbn.
    + apply not_elem_of_cons. split; [congruence | now apply IH].
    + now apply IH.
Qed.

Lemma omap_hash_app (rows more : list Models.File) :
  omap Models.file_hash (rows ++ more)
  = omap Models.file_hash rows ++ omap Models.file_hash more.
Proof. apply omap_app. Qed.

Lemma admits_store_ok (rows rows' : list Models.File) :
  admits rows rows' -> store_ok rows -> store_ok rows'.
Proof.
  intros Hstep [Hpath Hnodup]. inversion Hstep; subst.
  - now split.
  - split.
    + intros r' Hin Hhash. apply in_app_or in Hin as [Hin | [<- | []]].
      * now apply Hpath.
      * rewrite H0 in Hhash. now destruct Hhash.
    + rewrite omap_hash_app. cbn. rewrite H0. cbn. now rewrite app_nil_r.
  - split.
    + intros r' Hin Hhash. apply in_app_or in Hin as [Hin | [<- | []]].
      * now apply Hpath.
      * assumption.
    + rewrite omap_hash_app. cbn. rewrite H. cbn.
      apply NoDup_app. split; [assumption|]. split.
      * intros d Hd Hd'. apply list_elem_of_singleton in Hd'. subst d.
        now apply (exists_by_hash_omap _ _ H0).
      * apply NoDup_singleton.
Qed.

Lemma history_store_ok (rows rows' : list Models.File) :
  history rows rows' -> store_ok rows -> store_ok rows'.
Proof.
  induction 1 as [rows | rows mid rows' Hstep _ IH]; [trivial|].
  intros Hok. apply IH. now apply (admits_store_ok rows).
Qed.

(** *** Every pass through the loops is a history *)

Section Run.
Context (cfg : Settings.t) (sys : Platform.t) (source : BaseSource)
        (source_name : text) (size_cap : Z).

Local Abbreviation step := (file_step cfg sys source source_name size_cap).

Lemma store_metadata_admits (hit meta : DatasetHit) (finfo : FileInfo)
    (dir : option text) (notes : text) (w : World) :
  writer_notes notes ->
  admits (store w)
    (store (store_metadata cfg sys source_name hit meta finfo dir notes w)).
Proof.
  intros Hn. unfold store_metadata, _store_metadata_record.
  destruct (Models.exists_by_url_name _ _ _ _); cbn [with_store store].
  - constructor.
  - now apply (admits_metadata _ _ notes).
Qed.

Lemma download_step_admits (hit meta : DatasetHit) (st : World * Stats)
    (finfo : FileInfo) :
  fi_restricted finfo = false ->
  admits (store (fst st))
    (store (fst (download_step cfg sys source source_name hit meta st finfo))).
Proof.
  intros Hr. destruct st as [w n]. unfold download_step.
  destruct (pull_file source _ _ _)
    as [local content | status_code leftover | leftover].
  - cbv zeta. rewrite sha256_digest_written.
    destruct (Models.exists_by_hash (store w) _) eqn:E; cbn [fst store].
    + constructor.
    + apply (admits_download _ _ (Platform.sha256_hex sys content));
        try reflexivity; try assumption. now eexists.
  - destruct (status_code =? 403); cbn [fst].
    + rewrite <- (store_leave leftover w) at 1.
      apply store_metadata_admits. now left.
    + rewrite store_leave. constructor.
  - cbn [fst]. rewrite store_leave. constructor.
Qed.

Lemma file_step_admits (hit meta : DatasetHit) (st : World * Stats)
    (finfo : FileInfo) :
  admits (store (fst st)) (store (fst (step hit meta st finfo))).
Proof.
  unfold file_step. destruct (irrelevant cfg sys finfo); cbn [fst].
  - apply store_metadata_admits. right. now left.
  - destruct (Models.exists_by_url _ _ _); [constructor|].
    unfold size_step. destruct (oversized _ _ _); cbn [fst].
    + apply store_metadata_admits. right. right. now eexists.
    + unfold restricted_step. destruct (fi_restricted finfo) eqn:Hr; cbn [fst].
      * apply store_metadata_admits. now left.
      * now apply download_step_admits.
Qed.

Lemma files_history (hit meta : DatasetHit) (fs : list FileInfo) :
  forall st : World * Stats,
  history (store (fst st)) (store (fst (fold_left (step hit meta) fs st))).
Proof.
  induction fs as [|f fs IH]; intros st; cbn [fold_left].
  - apply rtc_refl.
  - eapply rtc_l; [apply file_step_admits | apply IH].
Qed.

Lemma hit_step_history (st : World * Stats) (hit : DatasetHit) :
  history (store (fst st))
    (store (fst (hit_step cfg sys source source_name size_cap st hit))).
Proof.
  unfold hit_step. destruct (fetch_metadata source _) as [meta|]; [|apply rtc_refl].
  destruct (negb (Licensing.license_is_open _)); [apply rtc_refl|].
  destruct (files meta) as [|f fs] eqn:Hfs; [apply rtc_refl|].
  destruct (_ && _); [apply rtc_refl|].
  destruct (_ && _); [apply rtc_refl|].
  apply files_history.
Qed.

Lemma hits_history (hits : list DatasetHit) : forall st : World * Stats,
  history (store (fst st))
    (store (fst (fold_left (hit_step cfg sys source source_name size_cap) hits st))).
Proof.
  induction hits as [|h hits IH]; intros st; cbn [fold_left].
  - apply rtc_refl.
  - eapply rtc_trans; [apply hit_step_history | apply IH].
Qed.

Lemma process_hits_history (hits : list DatasetHit) (w : World) :
  history (store w)
    (store (fst (_process_hits cfg sys source source_name hits size_cap w))).
Proof. unfold _process_hits. apply (hits_history hits (w, no_stats)). Qed.

End Run.

End AdmissionFacts.

(* --------------------------------------------------------------------- *)
(** ** Terminal states of the rows                                        *)
(* --------------------------------------------------------------------- *)

Module TerminalFacts.
Import Text SourcesBase Pipeline Vocabulary PipelineFacts AdmissionFacts.

Lemma oversized_notes_reason (file_bytes : Z) :
  explains_reason (Some (oversized_notes file_bytes)) = true
  /\ Some (oversized_notes file_bytes) <> Some default_notes.
Proof.
  split.
  - unfold explains_reason, oversized_notes.
    rewrite ClassifierFacts.startswith_app. apply orb_true_r.
  - unfold oversized_notes, default_notes, txt.
    cbn [list_ascii_of_string app]. discriminate.
Qed.

Lemma metadata_row_terminal (r : Models.File) (t : text) :
  Models.local_path r = None -> Models.file_hash r = None ->
  Models.notes r = Some t -> writer_notes t -> terminal_ok r.
Proof.
  intros Hpath Hhash Hnotes Ht. unfold terminal_ok.
  split; [|split].
  - unfold downloaded_shape, restricted_shape, plain_metadata_shape,
      metadata_only_shape. rewrite Hpath, Hnotes. cbn [is_some negb andb].
    destruct Ht as [-> | [-> | (b & ->)]].
    + rewrite bool_decide_eq_true_2 by reflexivity.
      now destruct (Models.restricted r).
    + rewrite bool_decide_eq_false_2 by discriminate.
      now destruct (Models.restricted r).
    + destruct (oversized_notes_reason b) as [-> Hne].
      rewrite bool_decide_eq_false_2 by exact Hne.
      now destruct (Models.restricted r).
  - rewrite Hpath. intros [x Hx]. discriminate.
  - intros _. exact Hhash.
Qed.

Lemma downloaded_row_terminal (r : Models.File) (digest : text) :
  Models.file_hash r = Some digest -> is_Some (Models.local_path r) ->
  Models.notes r = None -> Models.restricted r = false -> terminal_ok r.
Proof.
  intros Hhash [p Hpath] Hnotes Hr. unfold terminal_ok.
  split; [|split].
  - unfold downloaded_shape, restricted_shape, plain_metadata_shape,
      metadata_only_shape. rewrite Hpath, Hhash, Hnotes. reflexivity.
  - intros _. rewrite Hhash. split; [now eexists | now split].
  - rewrite Hpath. discriminate.
Qed.

Lemma history_terminal (rows rows' : list Models.File) :
  history rows rows' ->
  exists added, rows' = rows ++ added /\ Forall terminal_ok added.
Proof.
  induction 1 as [rows | rows mid rows' Hstep _ (added & -> & Hall)].
  - exists []. split; [now rewrite app_nil_r | constructor].
  - inversion Hstep; subst.
    + now exists added.
    + exists (r :: added). split; [now rewrite <- app_assoc|].
      constructor; [|assumption]. now apply (metadata_row_terminal r t).
    + exists (r :: added). split; [now rewrite <- app_assoc|].
      constructor; [|assumption]. now apply (downloaded_row_terminal r digest).
Qed.

(** C6, as stated, fails: a file of an irrelevant type that the source
    declared restricted gets a row with a null local path, the restricted
    flag set and the notes "irrelevant file type", which has the restricted
    shape and the metadata-only shape at once. *)
Lemma terminal_shapes_overlap :
  let rows :=
    store (fst (_process_hits Fixture.cfg Fixture.sys Fixture.source (txt "qdr")
                  [Fixture.ds_open] _DEFAULT_SIZE_CAP Fixture.empty_world)) in
  let r :=
    metadata_record Fixture.cfg Fixture.sys (txt "qdr") Fixture.ds_open
      Fixture.ds_open Fixture.f_archive None (txt "irrelevant file type") in
  rows !! 2%nat = Some r
  /\ Models.restricted r = true
  /\ Models.notes r = Some (txt "irrelevant file type")
  /\ restricted_shape r = true
  /\ metadata_only_shape r = true
  /\ exactly_one (downloaded_shape r) (restricted_shape r) (metadata_only_shape r)
     = false.
Proof. vm_compute. repeat split; reflexivity. Qed.

(** C6, amended.  Every row a run of [_process_hits] adds has exactly one of
    three shapes: downloaded (a local path, and then a content hash, no
    notes and a clear restricted flag), restricted (no local path; the
    restricted flag set or the default restriction notes), or metadata-only
    (no local path, the restricted flag clear, notes that give the reason:
    "irrelevant file type" or "oversized (N MB)"); a row without a local path
    has no content hash.  And a call of the metadata writer adds nothing or
    one row with neither local path nor content hash. *)
Theorem persisted_rows_terminal (cfg : Settings.t) (sys : Platform.t)
    (source : BaseSource) (source_name : text) (hits : list DatasetHit)
    (size_cap : Z) (w : World) :
  (exists added,
     store (fst (_process_hits cfg sys source source_name hits size_cap w))
     = store w ++ added
     /\ Forall terminal_ok added)
  /\ (forall session hit meta finfo fname ext qda dir notes,
        let session' :=
          _store_metadata_record session source_name hit meta finfo fname ext
            qda dir notes in
        session' = session
        \/ exists r, session' = session ++ [r]
                     /\ Models.local_path r = None
                     /\ Models.file_hash r = None).
Proof.
  split.
  - apply history_terminal, process_hits_history.
  - intros session hit meta finfo fname ext qda dir notes session'.
    subst session'. unfold _store_metadata_record.
    destruct (Models.exists_by_url_name _ _ _ _); [now left|].
    right. eexists. split; [reflexivity|]. split; reflexivity.
Qed.

End TerminalFacts.

(* --------------------------------------------------------------------- *)
(** ** Deduplication by content hash                                      *)
(* --------------------------------------------------------------------- *)

Module DedupFacts.
Import Text SourcesBase Pipeline Vocabulary PipelineFacts AdmissionFacts.

Lemma downloaded_with_absent (digest : text) (rows : list Models.File) :
  digest ∉ omap Models.file_hash rows -> downloaded_with digest rows = [].
Proof.
  unfold downloaded_with. induction rows as [|r rows IH]; [reflexivity|].
  cbn [List.filter]. intros Hd. cbn in Hd.
  destruct (bool_decide (Models.file_hash r = Some digest)) eqn:E.
  - apply bool_decide_eq_true in E. rewrite E in Hd. cbn in Hd.
    exfalso. apply Hd. apply list_elem_of_here.
  - cbn [andb]. apply IH. destruct (Models.file_hash r); cbn in Hd; [|assumption].
    intros Hin. apply Hd. now apply list_elem_of_further.
Qed.

Lemma store_ok_tail (r : Models.File) (rows : list Models.File) :
  store_ok (r :: rows) -> store_ok rows.
Proof.
  intros [Hpath Hnd]. split.
  - intros r' Hin. apply Hpath. now right.
  - cbn in Hnd. destruct (Models.file_hash r); cbn in Hnd; [|assumption].
    now apply NoDup_cons in Hnd as [_ Hnd].
Qed.

(** In a well-formed store, a content hash that occurs at all belongs to
    exactly one row, and that row has a local path. *)
Lemma downloaded_with_unique (digest : text) (rows : list Models.File) :
  store_ok rows -> Models.exists_by_hash rows digest = true ->
  length (downloaded_with digest rows) = 1%nat.
Proof.
  induction rows as [|r rows IH]; intros Hok Hex; [discriminate|].
  unfold Models.exists_by_hash in Hex. cbn [existsb] in Hex.
  unfold downloaded_with. cbn [List.filter].
  destruct (bool_decide (Models.file_hash r = Some digest)) eqn:E.
  - apply bool_decide_eq_true in E. destruct Hok as [Hpath Hnd].
    destruct (Hpath r (or_introl eq_refl)) as [p Hp]; [rewrite E; now eexists|].
    rewrite Hp. cbn [is_some andb].
    cbn in Hnd. rewrite E in Hnd. cbn in Hnd. apply NoDup_cons in Hnd as [Hd _].
    fold (downloaded_with digest rows). now rewrite downloaded_with_absent.
  - cbn [andb orb] in *. apply IH; [now apply (store_ok_tail r) | exact Hex].
Qed.

Section Dedup.
Context (cfg : Settings.t) (sys : Platform.t).

(** A file that gets as far as a successful download leaves a row with the
    digest of its bytes in the session: its own, or an older one. *)
Lemma downloaded_file_hash_known (source : BaseSource) (source_name : text)
    (size_cap : Z) (hit meta : DatasetHit) (finfo : FileInfo) (w : World)
    (n : Stats) (local : text) (content : list Byte.byte) :
  reaches_gates cfg sys source_name finfo w ->
  oversized size_cap (declared_size finfo) (qda_flag cfg sys finfo) = false ->
  fi_restricted finfo = false ->
  pulled cfg sys source source_name hit meta finfo = PullOk local content ->
  Models.exists_by_hash
    (store (fst (file_step cfg sys source source_name size_cap hit meta (w, n) finfo)))
    (Platform.sha256_hex sys content) = true.
Proof.
  intros Hreach Hsize Hr Hpull. rewrite (file_step_reaches_gates _ _ _ _ _ _ _ _ _ _ Hreach).
  unfold size_step. fold (declared_size finfo). rewrite Hsize.
  unfold restricted_step. rewrite Hr. unfold download_step.
  unfold pulled in Hpull. rewrite Hpull. cbv zeta.
  rewrite sha256_digest_written.
  destruct (Models.exists_by_hash (store w) _) eqn:E; cbn [fst store].
  - exact E.
  - unfold Models.add. rewrite exists_by_hash_app.
    unfold Models.exists_by_hash at 2. cbn [existsb].
    cbn [downloaded_record make_record Models.file_hash].
    rewrite bool_decide_eq_true_2 by reflexivity. now rewrite orb_true_r.
Qed.

(** The hash-duplicate gate: the fresh copy is removed, nothing else
    changes. *)
Lemma duplicate_file_dropped (source : BaseSource) (source_name : text)
    (size_cap : Z) (hit meta : DatasetHit) (finfo : FileInfo) (w : World)
    (n : Stats) (local : text) (content : list Byte.byte) :
  reaches_gates cfg sys source_name finfo w ->
  oversized size_cap (declared_size finfo) (qda_flag cfg sys finfo) = false ->
  fi_restricted finfo = false ->
  pulled cfg sys source source_name hit meta finfo = PullOk local content ->
  Models.exists_by_hash (store w) (Platform.sha256_hex sys content) = true ->
  file_step cfg sys source source_name size_cap hit meta (w, n) finfo
  = ({| store := store w;
        disk := delete local (<[local := content]> (disk w));
        ticks := ticks w |}, n).
Proof.
  intros Hreach Hsize Hr Hpull Hex.
  rewrite (file_step_reaches_gates _ _ _ _ _ _ _ _ _ _ Hreach).
  unfold size_step. fold (declared_size finfo). rewrite Hsize.
  unfold restricted_step. rewrite Hr. unfold download_step.
  unfold pulled in Hpull. rewrite Hpull. cbv zeta.
  now rewrite sha256_digest_written, Hex.
Qed.

(** C4.  Let two files hold the same bytes, and let both get as far as a
    successful download: the first in a world [w] whose store is well formed,
    the second in any world [w'] that pipeline passes lead to from there, in
    the same run or in later ones (the second has reached the gates there, so
    no row has its URL).  Then the second file is stopped at the
    hash-duplicate gate: no row is added, no counter changes, its local copy
    is gone from the disk, and exactly one row with a local path carries the
    digest of those bytes.  And every run of [_process_hits] is such a
    sequence of passes and keeps the store well formed, so that no two rows
    ever share a content hash. *)
Theorem content_hash_dedup
    (source1 source2 : BaseSource) (name1 name2 : text) (cap1 cap2 : Z)
    (hit1 meta1 hit2 meta2 : DatasetHit) (f1 f2 : FileInfo)
    (w w' : World) (n n' : Stats) (local1 local2 : text)
    (content : list Byte.byte) :
  store_ok (store w) ->
  reaches_gates cfg sys name1 f1 w ->
  oversized cap1 (declared_size f1) (qda_flag cfg sys f1) = false ->
  fi_restricted f1 = false ->
  pulled cfg sys source1 name1 hit1 meta1 f1 = PullOk local1 content ->
  history
    (store (fst (file_step cfg sys source1 name1 cap1 hit1 meta1 (w, n) f1)))
    (store w') ->
  reaches_gates cfg sys name2 f2 w' ->
  oversized cap2 (declared_size f2) (qda_flag cfg sys f2) = false ->
  fi_restricted f2 = false ->
  pulled cfg sys source2 name2 hit2 meta2 f2 = PullOk local2 content ->
  let st2 := file_step cfg sys source2 name2 cap2 hit2 meta2 (w', n') f2 in
  (store (fst st2) = store w'
   /\ snd st2 = n'
   /\ disk (fst st2) !! local2 = None
   /\ length (downloaded_with (Platform.sha256_hex sys content) (store (fst st2)))
      = 1%nat
   /\ store_ok (store (fst st2)))
  /\ (forall source source_name hits size_cap w0,
        let w1 := fst (_process_hits cfg sys source source_name hits size_cap w0) in
        history (store w0) (store w1)
        /\ (store_ok (store w0) -> store_ok (store w1))).
Proof.
  intros Hok Hreach1 Hsize1 Hr1 Hpull1 Hhist Hreach2 Hsize2 Hr2 Hpull2 st2.
  split.
  - assert (Hknown : Models.exists_by_hash (store w')
                       (Platform.sha256_hex sys content) = true).
    { eapply exists_by_hash_kept; [exact Hhist|].
      now apply (downloaded_file_hash_known source1 name1 cap1 hit1 meta1 f1 w n local1). }
    assert (Hok' : store_ok (store w')).
    { eapply history_store_ok; [exact Hhist|].
      eapply admits_store_ok; [|exact Hok].
      apply (file_step_admits cfg sys source1 name1 cap1 hit1 meta1 (w, n) f1). }
    subst st2.
    rewrite (duplicate_file_dropped source2 name2 cap2 hit2 meta2 f2 w' n'
               local2 content Hreach2 Hsize2 Hr2 Hpull2 Hknown).
    cbn [fst snd store disk].
    repeat split; try assumption.
    + apply lookup_delete_eq.
    + now apply downloaded_with_unique.
    + apply Hok'.
    + apply Hok'.
  - intros source source_name hits size_cap w0 w1. subst w1. split.
    + apply process_hits_history.
    + intros Hok0. eapply history_store_ok; [|exact Hok0].
      apply process_hits_history.
Qed.

End Dedup.

End DedupFacts.

(* --------------------------------------------------------------------- *)
(** ** Idempotence of admission                                           *)
(* --------------------------------------------------------------------- *)

Module IdempotenceFacts.
Import Text SourcesBase Pipeline Vocabulary PipelineFacts AdmissionFacts.

Lemma exists_by_url_app (rows more : list Models.File) (sn url : text) :
  Models.exists_by_url (rows ++ more) sn url
  = Models.exists_by_url rows sn url || Models.exists_by_url more sn url.
Proof. apply existsb_app. Qed.

Lemma exists_by_url_name_app (rows more : list Models.File) (sn url fname : text) :
  Models.exists_by_url_name (rows ++ more) sn url fname
  = Models.exists_by_url_name rows sn url fname
    || Models.exists_by_url_name more sn url fname.
Proof. apply existsb_app. Qed.

Section Settled.
Context (cfg : Settings.t) (sys : Platform.t) (source : BaseSource)
        (source_name : text) (size_cap : Z).

Local Abbreviation step := (file_step cfg sys source source_name size_cap).
Local Abbreviation done := (settled cfg sys source source_name size_cap).

(** The row the writer adds is found by both lookups. *)
Lemma metadata_record_found (hit meta : DatasetHit) (finfo : FileInfo)
    (dir : option text) (notes : text) (rows : list Models.File) :
  let rows' :=
    rows ++ [metadata_record cfg sys source_name hit meta finfo dir notes] in
  Models.exists_by_url rows' source_name (fi_download_url finfo) = true
  /\ Models.exists_by_url_name rows' source_name (fi_download_url finfo)
       (fi_name finfo) = true.
Proof.
  cbv zeta. rewrite exists_by_url_app, exists_by_url_name_app.
  unfold Models.exists_by_url at 2, Models.exists_by_url_name at 2.
  cbn [existsb metadata_record make_record Models.source_name
       Models.download_url Models.file_name].
  rewrite !text_eqb_refl. cbn [andb orb]. now rewrite !orb_true_r.
Qed.

Lemma store_metadata_found (hit meta : DatasetHit) (finfo : FileInfo)
    (dir : option text) (notes : text) (w : World) :
  Models.exists_by_url_name
    (store (store_metadata cfg sys source_name hit meta finfo dir notes w))
    source_name (fi_download_url finfo) (fi_name finfo) = true.
Proof.
  unfold store_metadata, _store_metadata_record.
  destruct (Models.exists_by_url_name (store w) _ _ _) eqn:E; cbn [with_store store].
  - exact E.
  - apply metadata_record_found.
Qed.

Lemma exists_by_name_url (rows : list Models.File) (sn url fname : text) :
  Models.exists_by_url_name rows sn url fname = true ->
  Models.exists_by_url rows sn url = true.
Proof.
  intros H. destruct (Models.exists_by_url rows sn url) eqn:E; [reflexivity|].
  now rewrite (exists_by_url_name_url _ _ _ _ E) in H.
Qed.

(** A pass over a settled file writes no row and downloads nothing that
    counts. *)
Lemma settled_quiet (hit meta : DatasetHit) (finfo : FileInfo) (st : World * Stats) :
  done hit meta (store (fst st)) finfo = true ->
  store (fst (step hit meta st finfo)) = store (fst st)
  /\ n_downloaded (snd (step hit meta st finfo)) = n_downloaded (snd st).
Proof.
  destruct st as [w n]. cbn [fst snd]. unfold settled, file_step. cbn [fst snd].
  destruct (irrelevant cfg sys finfo).
  - intros H. unfold store_metadata, _store_metadata_record. rewrite H.
    now split.
  - destruct (Models.exists_by_url (store w) _ _); [now split|].
    cbn [orb]. intros H.
    apply andb_true_iff in H as [H Hpull]. apply andb_true_iff in H as [Hsize Hr].
    apply negb_true_iff in Hsize, Hr.
    unfold size_step. fold (declared_size finfo). rewrite Hsize.
    unfold restricted_step. rewrite Hr. unfold download_step.
    unfold pulled in Hpull.
    destruct (pull_file source _ _ _)
      as [local content | status_code leftover | leftover].
    + cbv zeta. rewrite sha256_digest_written, Hpull. now split.
    + apply negb_true_iff in Hpull. rewrite Hpull. cbn [fst snd].
      split; [apply store_leave | reflexivity].
    + cbn [fst snd]. split; [apply store_leave | reflexivity].
Qed.

(** After a pass over a file, the file is settled. *)
Lemma settled_after (hit meta : DatasetHit) (finfo : FileInfo) (st : World * Stats) :
  done hit meta (store (fst (step hit meta st finfo))) finfo = true.
Proof.
  destruct st as [w n]. unfold settled, file_step. cbn [fst snd].
  destruct (irrelevant cfg sys finfo); cbn [fst].
  - apply store_metadata_found.
  - destruct (Models.exists_by_url (store w) source_name (fi_download_url finfo))
      eqn:Eu; cbn [fst].
    + now rewrite Eu.
    + unfold size_step. fold (declared_size finfo).
      destruct (oversized size_cap (declared_size finfo) (qda_flag cfg sys finfo))
        eqn:Eo; cbn [fst].
      * now rewrite (exists_by_name_url _ _ _ _ (store_metadata_found _ _ _ _ _ _)).
      * unfold restricted_step.
        destruct (fi_restricted finfo) eqn:Er; cbn [fst].
        -- now rewrite (exists_by_name_url _ _ _ _ (store_metadata_found _ _ _ _ _ _)).
        -- cbn [negb andb]. unfold download_step, pulled.
           destruct (pull_file source _ _ _) as [local content | status_code | ].
           ++ cbv zeta. rewrite sha256_digest_written.
              destruct (Models.exists_by_hash (store w) (Platform.sha256_hex sys content))
                eqn:Eh; cbn [fst store].
              ** rewrite Eu, Eh. reflexivity.
              ** unfold Models.add. rewrite exists_by_url_app.
                 unfold Models.exists_by_url at 2.
                 cbn [existsb downloaded_record make_record Models.source_name
                      Models.download_url].
                 rewrite !text_eqb_refl. cbn [andb orb].
                 now rewrite orb_true_r.
           ++ destruct (status_code =? 403) eqn:Ec; cbn [fst].
              ** now rewrite (exists_by_name_url _ _ _ _ (store_metadata_found _ _ _ _ _ _)).
              ** apply orb_true_r.
           ++ apply orb_true_r.
Qed.

(** A settled file stays settled when rows are added. *)
Lemma settled_mono (hit meta : DatasetHit) (finfo : FileInfo)
    (rows more : list Models.File) :
  done hit meta rows finfo = true -> done hit meta (rows ++ more) finfo = true.
Proof.
  unfold settled. destruct (irrelevant cfg sys finfo).
  - intros H. now rewrite exists_by_url_name_app, H.
  - rewrite exists_by_url_app.
    destruct (Models.exists_by_url rows _ _); [reflexivity|]. cbn [orb].
    intros H. apply andb_true_iff in H as [H Hpull]. rewrite H. cbn [andb].
    destruct (pulled _ _ _ _ _ _ _) as [local content | status_code | ].
    + rewrite exists_by_hash_app, Hpull. apply orb_true_r.
    + rewrite Hpull. apply orb_true_r.
    + apply orb_true_r.
Qed.

Lemma settled_history (hit meta : DatasetHit) (finfo : FileInfo)
    (rows rows' : list Models.File) :
  history rows rows' ->
  done hit meta rows finfo = true -> done hit meta rows' finfo = true.
Proof.
  intros Hh Hs. destruct (history_prefix _ _ Hh) as (added & ->).
  now apply settled_mono.
Qed.

(** *** The loop over the files of one dataset *)

Lemma files_settled_after (hit meta : DatasetHit) (fs : list FileInfo) :
  forall st : World * Stats,
  Forall (fun f => done hit meta
                     (store (fst (fold_left (step hit meta) fs st))) f = true) fs.
Proof.
  induction fs as [|f fs IH]; intros st; cbn [fold_left]; constructor.
  - eapply settled_history; [apply files_history | apply settled_after].
  - apply IH.
Qed.

Lemma files_quiet (hit meta : DatasetHit) (fs : list FileInfo) :
  forall st : World * Stats,
  Forall (fun f => done hit meta (store (fst st)) f = true) fs ->
  store (fst (fold_left (step hit meta) fs st)) = store (fst st)
  /\ n_downloaded (snd (fold_left (step hit meta) fs st)) = n_downloaded (snd st).
Proof.
  induction fs as [|f fs IH]; intros st Hall; cbn [fold_left]; [now split|].
  inversion Hall as [|? ? Hf Hfs]; subst.
  destruct (settled_quiet hit meta f st Hf) as [Hs Hn].
  destruct (IH (step hit meta st f)) as [Hs' Hn'].
  - now rewrite Hs.
  - split; congruence.
Qed.

(** *** The loop over the hits *)

Local Abbreviation hstep := (hit_step cfg sys source source_name size_cap).

(** A hit is abandoned or rejected with the session untouched, or its
    dataset is admitted and the loop over its files runs. *)
Lemma hit_step_abandoned (st : World * Stats) (hit : DatasetHit) :
  fetch_metadata source (source_url hit) = None -> hstep st hit = st.
Proof. intros H. unfold hit_step. now rewrite H. Qed.

Lemma hit_step_meta (st : World * Stats) (hit meta : DatasetHit) :
  fetch_metadata source (source_url hit) = Some meta ->
  hstep st hit
  = if admitted cfg sys meta then fold_left (step hit meta) (files meta) st
    else match files meta with
         | [] => if Licensing.license_is_open (Some (license_type meta))
                 then st else (fst st, add_skipped (snd st))
         | _ => (fst st, add_skipped (snd st))
         end.
Proof.
  intros H. unfold hit_step, admitted. rewrite H.
  destruct (Licensing.license_is_open (Some (license_type meta))); cbn [negb andb].
  2:{ now destruct (files meta). }
  destruct (files meta) as [|f fs] eqn:Hfs; [reflexivity|].
  rewrite bool_decide_eq_false_2 by discriminate. cbn [negb andb].
  destruct (excluded_kind cfg meta && negb (_dataset_has_qda cfg sys (f :: fs)));
    [reflexivity|].
  cbn [negb]. now destruct (negb (_dataset_has_qda cfg sys (f :: fs)) && negb (relevant cfg meta)).
Qed.

Lemma hit_step_rejected (st : World * Stats) (hit meta : DatasetHit) :
  fetch_metadata source (source_url hit) = Some meta ->
  admitted cfg sys meta = false ->
  fst (hstep st hit) = fst st
  /\ n_downloaded (snd (hstep st hit)) = n_downloaded (snd st).
Proof.
  intros H Hadm. rewrite (hit_step_meta st hit meta H), Hadm.
  destruct (files meta); [|now split].
  now destruct (Licensing.license_is_open _).
Qed.

Lemma hit_settled_history (rows rows' : list Models.File) (hit : DatasetHit) :
  history rows rows' ->
  hit_settled cfg sys source source_name size_cap rows hit ->
  hit_settled cfg sys source source_name size_cap rows' hit.
Proof.
  intros Hh Hs meta Hfetch Hadm. specialize (Hs meta Hfetch Hadm).
  eapply Forall_impl; [exact Hs|]. intros f Hf. cbv beta in *.
  now apply (settled_history hit meta f rows rows').
Qed.

Lemma hit_settled_after (st : World * Stats) (hit : DatasetHit) :
  hit_settled cfg sys source source_name size_cap (store (fst (hstep st hit))) hit.
Proof.
  intros meta Hfetch Hadm. rewrite (hit_step_meta st hit meta Hfetch), Hadm.
  apply files_settled_after.
Qed.

Lemma hit_quiet (st : World * Stats) (hit : DatasetHit) :
  hit_settled cfg sys source source_name size_cap (store (fst st)) hit ->
  store (fst (hstep st hit)) = store (fst st)
  /\ n_downloaded (snd (hstep st hit)) = n_downloaded (snd st).
Proof.
  intros Hs.
  destruct (fetch_metadata source (source_url hit)) as [meta|] eqn:Hfetch.
  - destruct (admitted cfg sys meta) eqn:Hadm.
    + rewrite (hit_step_meta st hit meta Hfetch), Hadm.
      apply files_quiet. now apply Hs.
    + destruct (hit_step_rejected st hit meta Hfetch Hadm) as [-> ->]. now split.
  - rewrite (hit_step_abandoned st hit Hfetch). now split.
Qed.

Lemma hits_settled_after (hits : list DatasetHit) : forall st : World * Stats,
  Forall (hit_settled cfg sys source source_name size_cap
            (store (fst (fold_left hstep hits st)))) hits.
Proof.
  induction hits as [|h hits IH]; intros st; cbn [fold_left]; constructor.
  - eapply hit_settled_history; [apply hits_history | apply hit_settled_after].
  - apply IH.
Qed.

Lemma hits_quiet (hits : list DatasetHit) : forall st : World * Stats,
  Forall (hit_settled cfg sys source source_name size_cap (store (fst st))) hits ->
  store (fst (fold_left hstep hits st)) = store (fst st)
  /\ n_downloaded (snd (fold_left hstep hits st)) = n_downloaded (snd st).
Proof.
  induction hits as [|h hits IH]; intros st Hall; cbn [fold_left]; [now split|].
  inversion Hall as [|? ? Hh Hhs]; subst.
  destruct (hit_quiet st h Hh) as [Hs Hn].
  destruct (IH (hstep st h)) as [Hs' Hn'].
  - now rewrite Hs.
  - split; congruence.
Qed.

(** The row a pass writes is found by both lookups from then on. *)
Lemma written_row_found (hit meta : DatasetHit) (finfo : FileInfo)
    (st : World * Stats) (rows' : list Models.File) :
  store (fst (step hit meta st finfo)) <> store (fst st) ->
  history (store (fst (step hit meta st finfo))) rows' ->
  Models.exists_by_url rows' source_name (fi_download_url finfo) = true
  /\ Models.exists_by_url_name rows' source_name (fi_download_url finfo)
       (fi_name finfo) = true.
Proof.
  intros Hnew Hh.
  destruct (history_prefix _ _ Hh) as (more & ->).
  rewrite exists_by_url_app, exists_by_url_name_app.
  assert (Hrow : Models.exists_by_url_name (store (fst (step hit meta st finfo)))
                   source_name (fi_download_url finfo) (fi_name finfo) = true).
  { destruct st as [w0 n0]. revert Hnew. unfold file_step. cbn [fst snd].
    destruct (irrelevant cfg sys finfo); cbn [fst].
    { intros _. apply store_metadata_found. }
    destruct (Models.exists_by_url (store w0) _ _) eqn:Eu; cbn [fst];
      [intros Hne; exfalso; now apply Hne|].
    unfold size_step. destruct (oversized _ _ _); cbn [fst].
    { intros _. apply store_metadata_found. }
    unfold restricted_step. destruct (fi_restricted finfo); cbn [fst].
    { intros _. apply store_metadata_found. }
    unfold download_step.
    destruct (pull_file source _ _ _) as [local content | status_code | ].
    - cbv zeta. destruct (Models.exists_by_hash (store w0) _); cbn [fst store];
        [intros Hne; exfalso; now apply Hne|]. intros _.
      unfold Models.add. rewrite exists_by_url_name_app.
      unfold Models.exists_by_url_name at 2.
      cbn [existsb downloaded_record make_record Models.source_name
           Models.download_url Models.file_name].
      rewrite !text_eqb_refl. cbn [andb orb]. now rewrite orb_true_r.
    - destruct (status_code =? 403); cbn [fst];
        [|intros Hne; exfalso; apply Hne; apply store_leave].
      intros _. apply store_metadata_found.
    - cbn [fst]. intros Hne; exfalso; apply Hne; apply store_leave. }
  rewrite Hrow, (exists_by_name_url _ _ _ _ Hrow). now split.
Qed.

(** A file with a row for its source, URL and name is settled. *)
Lemma found_settled (hit meta : DatasetHit) (finfo : FileInfo)
    (rows : list Models.File) :
  Models.exists_by_url_name rows source_name (fi_download_url finfo)
    (fi_name finfo) = true ->
  done hit meta rows finfo = true.
Proof.
  intros H. unfold settled. destruct (irrelevant cfg sys finfo); [exact H|].
  now rewrite (exists_by_name_url _ _ _ _ H).
Qed.

Lemma process_hits_twice (hits : list DatasetHit) (w : World) :
  let run1 := _process_hits cfg sys source source_name hits size_cap w in
  let run2 := _process_hits cfg sys source source_name hits size_cap (fst run1) in
  store (fst run2) = store (fst run1) /\ n_downloaded (snd run2) = 0%nat.
Proof.
  cbv zeta. unfold _process_hits.
  apply (hits_quiet hits (fst (fold_left hstep hits (w, no_stats)), no_stats)).
  apply hits_settled_after.
Qed.

End Settled.

(** C1.  Run [_process_hits] over a list of hits (one hit, or more), with the
    source answering as before, a second time on the world the first run
    left.  The second run adds no row to the session, and the downloaded
    counter it returns is 0.  The lookups that stop it are those of the
    claim: whenever a pass over a file writes a row (downloaded, restricted or
    metadata-only), a row with the source and URL of the file is in the
    session from then on, and so is a row with its source, URL and name,
    which is what the metadata writer looks for; and every later pass over
    that file, whatever the source then answers, adds no row and counts no
    download. *)
Theorem admission_idempotent (cfg : Settings.t) (sys : Platform.t)
    (source : BaseSource) (source_name : text) (size_cap : Z)
    (hits : list DatasetHit) (w : World) :
  let run1 := _process_hits cfg sys source source_name hits size_cap w in
  let run2 := _process_hits cfg sys source source_name hits size_cap (fst run1) in
  (store (fst run2) = store (fst run1) /\ n_downloaded (snd run2) = 0%nat)
  /\ (forall hit meta finfo st,
        let st1 := file_step cfg sys source source_name size_cap hit meta st finfo in
        store (fst st1) <> store (fst st) ->
        forall (source' : BaseSource) (hit' meta' : DatasetHit)
               (st' : World * Stats),
        history (store (fst st1)) (store (fst st')) ->
        let st2 := file_step cfg sys source' source_name size_cap hit' meta' st' finfo in
        Models.exists_by_url (store (fst st')) source_name (fi_download_url finfo)
        = true
        /\ Models.exists_by_url_name (store (fst st')) source_name
             (fi_download_url finfo) (fi_name finfo) = true
        /\ store (fst st2) = store (fst st')
        /\ n_downloaded (snd st2) = n_downloaded (snd st')).
Proof.
  cbv zeta. split; [apply process_hits_twice|].
  intros hit meta finfo st Hnew source' hit' meta' st' Hh.
  destruct (written_row_found cfg sys source source_name size_cap hit meta finfo
              st (store (fst st')) Hnew Hh) as [Hurl Hname].
  split; [exact Hurl|]. split; [exact Hname|].
  apply settled_quiet. now apply found_settled.
Qed.

End IdempotenceFacts.

(* --------------------------------------------------------------------- *)
(** ** The theorems at work on the concrete source                        *)
(* --------------------------------------------------------------------- *)

Module Scenarios.
Import Text SourcesBase Pipeline Vocabulary Fixture.

Local Abbreviation qdr := (txt "qdr").
Local Abbreviation run :=
  (_process_hits cfg sys source qdr).
Local Abbreviation pass :=
  (file_step cfg sys source qdr _DEFAULT_SIZE_CAP ds_open ds_open).

(** A run over the open dataset on an empty store: the project file and the
    file at the cap are downloaded, the restricted file and the one answered
    with 403 are recorded as restricted, the file over the cap is skipped. *)
Example open_dataset_counts :
  snd (run [ds_open] _DEFAULT_SIZE_CAP empty_world)
  = {| n_downloaded := 3; n_restricted := 2; n_skipped := 1 |}
  /\ length (store (fst (run [ds_open] _DEFAULT_SIZE_CAP empty_world))) = 7%nat.
Proof. vm_compute. split; reflexivity. Qed.

(** A closed license and an excluded resource type each cost one skip and
    write nothing. *)
Example rejected_datasets :
  run [ds_closed; ds_docs] _DEFAULT_SIZE_CAP empty_world
  = (empty_world, {| n_downloaded := 0; n_restricted := 0; n_skipped := 2 |}).
Proof. vm_compute. reflexivity. Qed.

(** The end-to-end scenarios of the specification. *)
Example scenario_a_project_downloaded :
  let out := run [ds_project] _DEFAULT_SIZE_CAP empty_world in
  snd out = {| n_downloaded := 1; n_restricted := 0; n_skipped := 0 |}
  /\ List.map (fun r => (Models.is_qda_file r, is_some (Models.local_path r)))
       (store (fst out)) = [(true, true)].
Proof. vm_compute. split; reflexivity. Qed.

Example scenario_b_closed_license :
  run [ds_closed] _DEFAULT_SIZE_CAP empty_world
  = (empty_world, {| n_downloaded := 0; n_restricted := 0; n_skipped := 1 |}).
Proof. vm_compute. reflexivity. Qed.

Example scenario_c_restricted_file :
  let out := run [ds_restricted] _DEFAULT_SIZE_CAP empty_world in
  snd out = {| n_downloaded := 0; n_restricted := 1; n_skipped := 0 |}
  /\ List.map (fun r => (Models.restricted r, Models.local_path r))
       (store (fst out)) = [(true, None)].
Proof. vm_compute. split; reflexivity. Qed.

Example scenario_d_documentation_only :
  run [ds_docs] _DEFAULT_SIZE_CAP empty_world
  = (empty_world, {| n_downloaded := 0; n_restricted := 0; n_skipped := 1 |}).
Proof. vm_compute. reflexivity. Qed.

Example scenario_e_second_run :
  let first := run [ds_project] _DEFAULT_SIZE_CAP empty_world in
  let second := run [ds_project] _DEFAULT_SIZE_CAP (fst first) in
  n_downloaded (snd second) = 0%nat
  /\ store (fst second) = store (fst first)
  /\ length (store (fst second)) = 1%nat.
Proof. vm_compute. repeat split; reflexivity. Qed.

Example oversized_notes_one_byte_over :
  oversized_notes (_DEFAULT_SIZE_CAP + 1) = txt "oversized (100 MB)".
Proof. vm_compute. reflexivity. Qed.

Lemma is_qda_file_by_extension_or_label_witness :
  _is_qda_file cfg sys (txt "Interview.QDPX") f_notes = true
  /\ _is_qda_file cfg sys (txt "export.xml")
       {| fi_id := []; fi_name := txt "export.xml"; fi_size := None;
          fi_content_type := Some (txt "text/plain");
          fi_friendly_type := Some (txt "REFI-QDA Project");
          fi_download_url := []; fi_restricted := false;
          fi_api_checksum := None |} = true.
Proof.
  split.
  - apply (proj1 (ClassifierFacts.is_qda_file_by_extension_or_label
                    cfg sys (txt "Interview.QDPX") f_notes)).
    vm_compute. tauto.
  - eapply (proj2 (ClassifierFacts.is_qda_file_by_extension_or_label cfg sys _ _)
              [] (txt "REFI-QDA") (txt " Project")); reflexivity.
Defined.



Lemma content_hash_dedup_witness :
  let st2 := pass (after_notes, add_downloaded no_stats) f_copy in
  store (fst st2) = store after_notes
  /\ snd st2 = add_downloaded no_stats
  /\ disk (fst st2) !! txt "downloads/qdr/open-study-doi_10.1_A/copy.txt" = None
  /\ length (downloaded_with (Platform.sha256_hex sys (bytes "hello"))
               (store (fst st2))) = 1%nat
  /\ store_ok (store (fst st2)).
Proof.
  assert (Hok : store_ok (store empty_world)).
  { split; [intros r []|]. cbn. apply NoDup_nil. trivial. }
  assert (Hreach1 : reaches_gates cfg sys qdr f_notes empty_world)
    by (split; vm_compute; reflexivity).
  assert (Hreach2 : reaches_gates cfg sys qdr f_copy after_notes)
    by (split; vm_compute; reflexivity).
  assert (Hhist : history
            (store (fst (pass (empty_world, no_stats) f_notes)))
            (store after_notes)) by apply rtc_refl.
  refine (proj1 (DedupFacts.content_hash_dedup cfg sys source source qdr qdr
            _DEFAULT_SIZE_CAP _DEFAULT_SIZE_CAP ds_open ds_open ds_open ds_open
            f_notes f_copy empty_world after_notes no_stats
            (add_downloaded no_stats)
            (txt "downloads/qdr/open-study-doi_10.1_A/notes.txt")
            (txt "downloads/qdr/open-study-doi_10.1_A/copy.txt")
            (bytes "hello") Hok Hreach1 _ _ _ Hhist Hreach2 _ _ _));
    vm_compute; reflexivity.
Defined.

Lemma run_source_seen_before_cap_witness :
  let queries := [txt "interview"; txt "qualitative"] in
  Driver.fed_hits source (Some 1) ∅ queries = [[ds_open]; [ds_docs]]
  /\ ~ In (source_url ds_closed) (List.map source_url [ds_docs]).
Proof.
  split; [vm_compute; reflexivity|].
  refine (proj2 (DriverFacts.run_source_seen_before_cap cfg sys source qdr
            (Some 1) _DEFAULT_SIZE_CAP [txt "interview"; txt "qualitative"]
            empty_world 0 1 (txt "interview") [ds_open; ds_closed] [ds_docs]
            ds_closed _ _ _ _ _)).
  - lia.
  - reflexivity.
  - vm_compute. reflexivity.
  - right. left. reflexivity.
  - vm_compute. reflexivity.
Defined.

End Scenarios.

(* --------------------------------------------------------------------- *)
(** ** Invariants of a run of the pipeline                                *)
(* --------------------------------------------------------------------- *)

Module PassFacts.
Import Text SourcesBase Pipeline Vocabulary Passes PipelineFacts.

(** *** Every turn of the loops is a [pass] *)

Section Turns.
Context (cfg : Settings.t) (sys : Platform.t) (source : BaseSource)
        (source_name : text) (size_cap : Z).

Lemma store_metadata_pass (hit meta : DatasetHit) (finfo : FileInfo)
    (dir : option text) (notes : text) (w0 w : World) (n n' : Stats) :
  store w = store w0 ->
  (forall r w', fresh_key (store w0) r -> Models.local_path r = None ->
                Models.notes r = Some notes ->
                store w' = store w0 ++ [r] ->
                pass sys (w0, n) (w', n')) ->
  (Models.exists_by_url_name (store w0) source_name (fi_download_url finfo)
     (fi_name finfo) = true -> n' = n) ->
  pass sys (w0, n)
    (store_metadata cfg sys source_name hit meta finfo dir notes w, n').
Proof.
  intros Hw Hrow Hsame. unfold store_metadata, _store_metadata_record.
  rewrite Hw.
  destruct (Models.exists_by_url_name (store w0) _ _ _) eqn:E.
  - rewrite (Hsame eq_refl). now apply pass_idle.
  - eapply Hrow; [| | |cbn [with_store store]; reflexivity];
      [exact E | reflexivity | reflexivity].
Qed.

Lemma file_step_pass (hit meta : DatasetHit) (st : World * Stats)
    (finfo : FileInfo) :
  pass sys st (file_step cfg sys source source_name size_cap hit meta st finfo).
Proof.
  destruct st as [w n]. unfold file_step. cbn [fst snd].
  destruct (irrelevant cfg sys finfo).
  { apply store_metadata_pass; [reflexivity| |reflexivity].
    intros r w' Hk Hp Hn Hs. now apply (pass_irrelevant sys w n w' r). }
  destruct (Models.exists_by_url (store w) source_name (fi_download_url finfo)) eqn:Eu.
  { now apply pass_idle. }
  assert (Ename := exists_by_url_name_url _ _ _ (fi_name finfo) Eu).
  unfold size_step. cbn [fst snd].
  destruct (oversized _ _ _).
  { apply store_metadata_pass; [reflexivity| |congruence].
    intros r w' Hk Hp Hn Hs.
    now apply (pass_oversized sys w n w' r (default 0 (fi_size finfo))). }
  unfold restricted_step. cbn [fst snd].
  destruct (fi_restricted finfo).
  { apply store_metadata_pass; [reflexivity| |congruence].
    intros r w' Hk Hp Hn Hs. now apply (pass_restricted sys w n w' r). }
  unfold download_step.
  destruct (pull_file source _ _ _)
    as [local content | status_code leftover | leftover].
  - cbv zeta. destruct (Models.exists_by_hash (store w) _).
    + now apply pass_idle.
    + unfold Models.add.
      eapply (pass_downloaded sys w n); [| | |cbn [store]; reflexivity];
        [exact Ename | reflexivity | reflexivity].
  - destruct (status_code =? 403).
    + apply store_metadata_pass; [apply store_leave| |congruence].
      intros r w' Hk Hp Hn Hs. now apply (pass_restricted sys w n w' r).
    + apply pass_idle, store_leave.
  - apply pass_idle, store_leave.
Qed.

Lemma files_passes (hit meta : DatasetHit) (fs : list FileInfo) :
  forall st : World * Stats,
  rtc (pass sys) st
    (fold_left (file_step cfg sys source source_name size_cap hit meta) fs st).
Proof.
  induction fs as [|f fs IH]; intros st; cbn [fold_left].
  - apply rtc_refl.
  - eapply rtc_l; [apply file_step_pass | apply IH].
Qed.

Lemma rejected_pass (st : World * Stats) :
  rtc (pass sys) st (fst st, add_skipped (snd st)).
Proof. destruct st as [w n]. apply rtc_once, pass_rejected. Qed.

Lemma hit_step_passes (st : World * Stats) (hit : DatasetHit) :
  rtc (pass sys) st (hit_step cfg sys source source_name size_cap st hit).
Proof.
  unfold hit_step. destruct (fetch_metadata source _) as [meta|]; [|apply rtc_refl].
  destruct (negb (Licensing.license_is_open _)); [apply rejected_pass|].
  destruct (files meta) as [|f fs] eqn:Hfs; [apply rtc_refl|].
  destruct (_ && _); [apply rejected_pass|].
  destruct (_ && _); [apply rejected_pass|].
  apply files_passes.
Qed.

Lemma hits_passes (hits : list DatasetHit) : forall st : World * Stats,
  rtc (pass sys) st
    (fold_left (hit_step cfg sys source source_name size_cap) hits st).
Proof.
  induction hits as [|h hits IH]; intros st; cbn [fold_left].
  - apply rtc_refl.
  - eapply rtc_trans; [apply hit_step_passes | apply IH].
Qed.

Lemma process_hits_passes (hits : list DatasetHit) (w : World) :
  rtc (pass sys) (w, no_stats)
    (_process_hits cfg sys source source_name hits size_cap w).
Proof. apply hits_passes. Qed.

End Turns.

(** *** What a sequence of passes keeps *)

Lemma fresh_key_not_in (rows : list Models.File) (r : Models.File) :
  fresh_key rows r -> ~ In (row_key r) (List.map row_key rows).
Proof.
  unfold fresh_key, Models.exists_by_url_name.
  induction rows as [|x rows IH]; cbn [existsb List.map]; intros H; [tauto|].
  apply orb_false_iff in H as [Hx Hrows]. intros [Heq | Hin].
  - unfold row_key in Heq. injection Heq as H1 H2 H3.
    rewrite H1, H2, H3, !text_eqb_refl in Hx. discriminate.
  - now apply IH.
Qed.

Lemma keys_unique_snoc (rows : list Models.File) (r : Models.File) :
  keys_unique rows -> fresh_key rows r -> keys_unique (rows ++ [r]).
Proof.
  unfold keys_unique. intros Hnd Hk. rewrite map_app. cbn [List.map].
  apply NoDup_app. split; [assumption|]. split.
  - intros k Hin Hin'. apply list_elem_of_singleton in Hin'. subst k.
    apply (fresh_key_not_in rows r Hk). now apply list_elem_of_In.
  - apply NoDup_singleton.
Qed.

Lemma pass_keys (sys : Platform.t) (st st' : World * Stats) :
  pass sys st st' -> keys_unique (store (fst st)) -> keys_unique (store (fst st')).
Proof.
  intros Hp.
  inversion Hp as [w1 n1 w2 Hst E1 E2 | w1 n1 E1 E2
                  | w1 n1 w2 r Hfk Hlp Hnt Hst E1 E2
                  | w1 n1 w2 r b Hfk Hlp Hnt Hst E1 E2
                  | w1 n1 w2 r Hfk Hlp Hnt Hst E1 E2
                  | w1 n1 w2 r local Hfk Hlp Hnt Hst E1 E2];
    subst; cbn [fst]; intros Hu; try rewrite Hst;
    try (now apply keys_unique_snoc); assumption.
Qed.

Lemma passes_keys (sys : Platform.t) (st st' : World * Stats) :
  rtc (pass sys) st st' ->
  keys_unique (store (fst st)) -> keys_unique (store (fst st')).
Proof.
  induction 1 as [st | st mid st' Hp _ IH]; [trivial|].
  intros Hu. apply IH. now apply (pass_keys sys st mid).
Qed.

Lemma count_snoc (f : Models.File -> bool) (rows : list Models.File)
    (r : Models.File) :
  length (List.filter f (rows ++ [r]))
  = (length (List.filter f rows) + if f r then 1 else 0)%nat.
Proof.
  rewrite List.filter_app, length_app. cbn [List.filter].
  now destruct (f r).
Qed.

Lemma irrelevant_note_kind :
  bool_decide (Some (txt "irrelevant file type") = Some default_notes) = false
  /\ is_oversized_note (Some (txt "irrelevant file type")) = false.
Proof. split; [now apply bool_decide_eq_false|reflexivity]. Qed.

Lemma oversized_note_kind (file_bytes : Z) :
  bool_decide (Some (oversized_notes file_bytes) = Some default_notes) = false
  /\ is_oversized_note (Some (oversized_notes file_bytes)) = true
  /\ bool_decide (Some (oversized_notes file_bytes)
                  = Some (txt "irrelevant file type")) = false.
Proof.
  split; [|split].
  - apply bool_decide_eq_false. unfold oversized_notes, default_notes, txt.
    cbn [list_ascii_of_string app]. discriminate.
  - unfold is_oversized_note, oversized_notes.
    apply ClassifierFacts.startswith_app.
  - apply bool_decide_eq_false. unfold oversized_notes, txt.
    cbn [list_ascii_of_string app]. discriminate.
Qed.

Lemma default_note_kind :
  is_oversized_note (Some default_notes) = false
  /\ bool_decide (Some default_notes = Some (txt "irrelevant file type")) = false.
Proof. split; [reflexivity | now apply bool_decide_eq_false]. Qed.

Lemma pass_ledger (sys : Platform.t) (st0 st st' : World * Stats) :
  ledger st0 st -> pass sys st st' -> ledger st0 st'.
Proof.
  intros (added & Hs & Hd & Hr & Hk & Hone & Hlen) Hp.
  inversion Hp as [w1 n1 w2 Hst E1 E2 | w1 n1 E1 E2
                  | w1 n1 w2 r Hfk Hlp Hnt Hst E1 E2
                  | w1 n1 w2 r b Hfk Hlp Hnt Hst E1 E2
                  | w1 n1 w2 r Hfk Hlp Hnt Hst E1 E2
                  | w1 n1 w2 r local Hfk Hlp Hnt Hst E1 E2];
    subst; cbn [fst snd] in *.
  - (* idle *)
    exists added. cbn [fst snd]. rewrite Hst. repeat split; assumption.
  - (* a rejected dataset *)
    exists added. cbn [fst snd add_skipped n_downloaded n_restricted n_skipped].
    repeat split; try assumption. lia.
  - (* irrelevant *)
    exists (added ++ [r]). cbn [fst snd].
    unfold count_downloaded, count_restricted, count_oversized, count_irrelevant in *.
    rewrite !count_snoc, length_app, Hlp, Hnt. cbn [is_some length].
    destruct irrelevant_note_kind as [E1 E2]. rewrite E1, E2.
    rewrite bool_decide_eq_true_2 by reflexivity.
    rewrite Hst, Hs, <- app_assoc. repeat split; try lia.
    apply Forall_app. split; [exact Hone|]. constructor; [|constructor].
    unfold kinds_of. rewrite Hlp, Hnt, E1, E2.
    now rewrite bool_decide_eq_true_2 by reflexivity.
  - (* oversized *)
    exists (added ++ [r]). cbn [fst snd
      add_skipped n_downloaded n_restricted n_skipped].
    unfold count_downloaded, count_restricted, count_oversized, count_irrelevant in *.
    rewrite !count_snoc, length_app, Hlp, Hnt. cbn [is_some length].
    destruct (oversized_note_kind b) as (E1 & E2 & E3). rewrite E1, E2, E3.
    rewrite Hst, Hs, <- app_assoc. repeat split; try lia.
    apply Forall_app. split; [exact Hone|]. constructor; [|constructor].
    unfold kinds_of. now rewrite Hlp, Hnt, E1, E2, E3.
  - (* restricted *)
    exists (added ++ [r]). cbn [fst snd
      add_restricted n_downloaded n_restricted n_skipped].
    unfold count_downloaded, count_restricted, count_oversized, count_irrelevant in *.
    rewrite !count_snoc, length_app, Hlp, Hnt. cbn [is_some length].
    destruct default_note_kind as [E1 E2]. rewrite E1, E2.
    rewrite bool_decide_eq_true_2 by reflexivity.
    rewrite Hst, Hs, <- app_assoc. repeat split; try lia.
    apply Forall_app. split; [exact Hone|]. constructor; [|constructor].
    unfold kinds_of. rewrite Hlp, Hnt, E1, E2.
    now rewrite bool_decide_eq_true_2 by reflexivity.
  - (* downloaded *)
    exists (added ++ [r]). cbn [fst snd
      add_downloaded n_downloaded n_restricted n_skipped].
    unfold count_downloaded, count_restricted, count_oversized, count_irrelevant in *.
    rewrite !count_snoc, length_app, Hlp, Hnt. cbn [is_some length is_oversized_note].
    rewrite !bool_decide_eq_false_2 by discriminate.
    rewrite Hst, Hs, <- app_assoc. repeat split; try lia.
    apply Forall_app. split; [exact Hone|]. constructor; [|constructor].
    unfold kinds_of. rewrite Hlp, Hnt. cbn [is_some is_oversized_note].
    now rewrite !bool_decide_eq_false_2 by discriminate.
Qed.

Lemma ledger_refl (st : World * Stats) : ledger st st.
Proof.
  exists []. rewrite app_nil_r. cbn. repeat split; try lia. constructor.
Qed.

Lemma passes_ledger (sys : Platform.t) (st0 st : World * Stats) :
  rtc (pass sys) st0 st -> ledger st0 st.
Proof.
  intros H.
  apply (rtc_ind_r (R := pass sys) (ledger st0) st0);
    [apply ledger_refl| |exact H].
  intros y z _ Hp Hy. now apply (pass_ledger sys st0 y z).
Qed.

Section RunInvariants.
Context (cfg : Settings.t) (sys : Platform.t) (source : BaseSource)
        (source_name : text) (size_cap : Z) (hits : list DatasetHit) (w : World).

Local Abbreviation out := (_process_hits cfg sys source source_name hits size_cap w).

(** X1.  A run of [_process_hits] keeps the keys of the session unique: if no
    two rows share source, download URL and file name before the run, none
    do after it. *)
Theorem process_hits_keys_unique :
  keys_unique (store w) -> keys_unique (store (fst out)).
Proof.
  apply (passes_keys sys (w, no_stats) out), process_hits_passes.
Qed.

(** X2.  The counters a run of [_process_hits] returns are the books of the
    rows it appended: the downloaded counter is the number of added rows
    with a local path, the restricted counter the number of added rows with
    the notes "access restricted", every added row with "oversized" notes is
    counted as a skip, and every added row is of exactly one of the four
    kinds downloaded (with a local path), restricted (notes "access
    restricted"), oversized (notes "oversized (...") and irrelevant file
    type (notes "irrelevant file type").  Rows that were there before are
    kept as they are. *)
Theorem process_hits_accounting :
  exists added,
    store (fst out) = store w ++ added
    /\ n_downloaded (snd out) = count_downloaded added
    /\ n_restricted (snd out) = count_restricted added
    /\ (count_oversized added <= n_skipped (snd out))%nat
    /\ Forall (fun r => kinds_of r = 1%nat) added
    /\ length added
       = (count_downloaded added + count_restricted added
          + count_oversized added + count_irrelevant added)%nat.
Proof.
  destruct (passes_ledger sys (w, no_stats) out
              (process_hits_passes cfg sys source source_name size_cap hits w))
    as (added & Hs & Hd & Hr & Hk & Hone & Hlen).
  exists added. cbn [fst snd no_stats n_downloaded n_restricted n_skipped] in *.
  repeat split; try assumption; lia.
Qed.

End RunInvariants.

End PassFacts.

(* --------------------------------------------------------------------- *)
(** ** Dataset gates, record ids, the overview                            *)
(* --------------------------------------------------------------------- *)

Module GateFacts.
Import Text SourcesBase Pipeline Vocabulary PipelineFacts AdmissionFacts.

(** X4.  A dataset with an open license that holds a QDA file is never
    stopped by the resource-type gate or the relevance gate, whatever its
    kind of data, description and keywords: the loop over its files runs. *)
Theorem qda_dataset_passes_gates (cfg : Settings.t) (sys : Platform.t)
    (source : BaseSource) (source_name : text) (size_cap : Z)
    (st : World * Stats) (hit meta : DatasetHit) (f : FileInfo) :
  fetch_metadata source (source_url hit) = Some meta ->
  Licensing.license_is_open (Some (license_type meta)) = true ->
  In f (files meta) ->
  _is_qda_file cfg sys (fi_name f) f = true ->
  hit_step cfg sys source source_name size_cap st hit
  = fold_left (file_step cfg sys source source_name size_cap hit meta)
      (files meta) st.
Proof.
  intros Hfetch Hlic Hin Hqda.
  rewrite (IdempotenceFacts.hit_step_meta cfg sys source source_name size_cap
             st hit meta Hfetch).
  assert (Hhas : _dataset_has_qda cfg sys (files meta) = true).
  { unfold _dataset_has_qda. apply existsb_exists. now exists f. }
  assert (Hadm : admitted cfg sys meta = true).
  { unfold admitted. rewrite Hlic, Hhas. cbn [negb andb].
    rewrite !andb_false_r. cbn [negb andb].
    rewrite bool_decide_eq_false_2; [reflexivity|].
    intros Hnil. rewrite Hnil in Hin. destruct Hin. }
  now rewrite Hadm.
Qed.

Lemma replace_char_not_in (a b : ascii) (s : text) :
  a <> b -> ~ In a (replace_char a b s).
Proof.
  intros Hab. unfold replace_char. intros Hin.
  apply in_map_iff in Hin as (c & Hc & _).
  destruct (Ascii.eqb c a) eqn:E.
  - congruence.
  - apply Ascii.eqb_neq in E. congruence.
Qed.

Lemma replace_char_keeps_out (a b x : ascii) (s : text) :
  x <> b -> ~ In x s -> ~ In x (replace_char a b s).
Proof.
  intros Hxb Hx. unfold replace_char. intros Hin.
  apply in_map_iff in Hin as (c & Hc & Hcs).
  destruct (Ascii.eqb c a); [congruence|]. now subst.
Qed.

(** X5.  The record id that names the storage folder of a file never holds
    a slash or a colon, whatever the dataset URL and the file id are. *)
Theorem record_id_path_safe (hit : DatasetHit) (finfo : FileInfo) :
  ~ In "/"%char (record_id hit finfo) /\ ~ In ":"%char (record_id hit finfo).
Proof.
  unfold record_id. split.
  - apply replace_char_keeps_out; [discriminate|].
    apply replace_char_not_in. discriminate.
  - apply replace_char_not_in. discriminate.
Qed.

(** *** The overview *)

Lemma terminal_row_kinds (r : Models.File) :
  terminal_ok r ->
  is_some (Models.local_path r) && Models.restricted r = false.
Proof.
  intros (_ & Hpath & _). destruct (Models.local_path r) as [p|] eqn:E;
    [|reflexivity].
  destruct Hpath as (_ & _ & ->); [now eexists | reflexivity].
Qed.

Lemma overview_other_count (rows : list Models.File) :
  Forall terminal_ok rows ->
  Overview.other rows
  = Overview.count (fun r => negb (is_some (Models.local_path r))
                             && negb (Models.restricted r)) rows.
Proof.
  unfold Overview.other, Overview.totals, Overview.count. cbn [snd].
  induction 1 as [|r rows Hr _ IH]; [reflexivity|].
  pose proof (terminal_row_kinds r Hr) as Hk.
  cbn [length List.filter].
  destruct (is_some (Models.local_path r)), (Models.restricted r);
    try discriminate; cbn [negb andb length]; lia.
Qed.

(** X6.  On a store that the pipeline has filled from nothing, the number
    that [overview] prints as "Other" (all rows, less those with a local
    path, less those with the restricted flag) counts no row twice: it is
    the number of rows with neither a local path nor the restricted flag,
    and so is never negative. *)
Theorem overview_other_after_runs (cfg : Settings.t) (sys : Platform.t)
    (source : BaseSource) (source_name : text) (hits : list DatasetHit)
    (size_cap : Z) (w : World) :
  store w = [] ->
  let rows := store (fst (_process_hits cfg sys source source_name hits size_cap w)) in
  Overview.other rows
  = Overview.count (fun r => negb (is_some (Models.local_path r))
                             && negb (Models.restricted r)) rows
  /\ 0 <= Overview.other rows.
Proof.
  intros Hempty rows.
  assert (Hall : Forall terminal_ok rows).
  { destruct (TerminalFacts.history_terminal (store w) rows
                (process_hits_history cfg sys source source_name size_cap hits w))
      as (added & Hs & Hadded).
    rewrite Hs, Hempty. exact Hadded. }
  rewrite (overview_other_count rows Hall). split; [reflexivity|].
  unfold Overview.count. lia.
Qed.

End GateFacts.

(* --------------------------------------------------------------------- *)
(** ** The run driver: whole runs                                         *)
(* --------------------------------------------------------------------- *)

Module RunFacts.
Import Text SourcesBase Pipeline Vocabulary Passes Driver.
Import PipelineFacts AdmissionFacts IdempotenceFacts PassFacts DriverFacts.

Section WholeRun.
Context (cfg : Settings.t) (sys : Platform.t) (source : BaseSource)
        (source_name : text) (size_cap : Z).

Local Abbreviation feed1 := (feed cfg sys source source_name size_cap).
Local Abbreviation settled_in :=
  (hit_settled cfg sys source source_name size_cap).

Lemma feed_history (st : World * Stats) (batch : list DatasetHit) :
  history (store (fst st)) (store (fst (feed1 st batch))).
Proof.
  unfold feed. destruct batch as [|h batch]; [apply rtc_refl|].
  pose proof (process_hits_history cfg sys source source_name size_cap
                (h :: batch) (fst st)) as Hh.
  destruct (_process_hits _ _ _ _ _ _ _) as [w n]. exact Hh.
Qed.

Lemma feeds_history (batches : list (list DatasetHit)) :
  forall st : World * Stats,
  history (store (fst st)) (store (fst (fold_left feed1 batches st))).
Proof.
  induction batches as [|b batches IH]; intros st; cbn [fold_left].
  - apply rtc_refl.
  - eapply rtc_trans; [apply feed_history | apply IH].
Qed.

Lemma feed_keys (st : World * Stats) (batch : list DatasetHit) :
  keys_unique (store (fst st)) -> keys_unique (store (fst (feed1 st batch))).
Proof.
  unfold feed. destruct batch as [|h batch]; [trivial|].
  intros Hu.
  pose proof (passes_keys sys _ _
                (process_hits_passes cfg sys source source_name size_cap
                   (h :: batch) (fst st)) Hu) as Hk.
  destruct (_process_hits _ _ _ _ _ _ _) as [w n]. exact Hk.
Qed.

Lemma feeds_keys (batches : list (list DatasetHit)) :
  forall st : World * Stats,
  keys_unique (store (fst st)) ->
  keys_unique (store (fst (fold_left feed1 batches st))).
Proof.
  induction batches as [|b batches IH]; intros st Hu; cbn [fold_left]; [trivial|].
  apply IH. now apply feed_keys.
Qed.

Lemma feed_settled_after (st : World * Stats) (batch : list DatasetHit) :
  Forall (settled_in (store (fst (feed1 st batch)))) batch.
Proof.
  unfold feed. destruct batch as [|h batch]; [constructor|].
  pose proof (hits_settled_after cfg sys source source_name size_cap
                (h :: batch) (fst st, no_stats)) as Hs.
  unfold _process_hits.
  destruct (fold_left _ (h :: batch) (fst st, no_stats)) as [w n]. exact Hs.
Qed.

Lemma feed_quiet (st : World * Stats) (batch : list DatasetHit) :
  Forall (settled_in (store (fst st))) batch ->
  store (fst (feed1 st batch)) = store (fst st)
  /\ n_downloaded (snd (feed1 st batch)) = n_downloaded (snd st).
Proof.
  unfold feed. destruct batch as [|h batch]; [now split|]. intros Hall.
  destruct (hits_quiet cfg sys source source_name size_cap (h :: batch)
              (fst st, no_stats) Hall) as [Hs Hn].
  unfold _process_hits.
  destruct (fold_left _ (h :: batch) (fst st, no_stats)) as [w n].
  cbn [fst snd sum_stats n_downloaded no_stats] in *. split; [exact Hs|]. lia.
Qed.

Lemma feeds_settled_after (batches : list (list DatasetHit)) :
  forall st : World * Stats,
  Forall (Forall (settled_in (store (fst (fold_left feed1 batches st))))) batches.
Proof.
  induction batches as [|b batches IH]; intros st; cbn [fold_left]; constructor.
  - eapply Forall_impl; [apply feed_settled_after|].
    intros h Hh. eapply hit_settled_history; [apply feeds_history | exact Hh].
  - apply IH.
Qed.

Lemma feeds_quiet (batches : list (list DatasetHit)) :
  forall st : World * Stats,
  Forall (Forall (settled_in (store (fst st)))) batches ->
  store (fst (fold_left feed1 batches st)) = store (fst st)
  /\ n_downloaded (snd (fold_left feed1 batches st)) = n_downloaded (snd st).
Proof.
  induction batches as [|b batches IH]; intros st Hall; cbn [fold_left];
    [now split|].
  inversion Hall as [|? ? Hb Hbs]; subst.
  destruct (feed_quiet st b Hb) as [Hs Hn].
  destruct (IH (feed1 st b)) as [Hs' Hn'].
  - now rewrite Hs.
  - split; congruence.
Qed.

(** X7.  A whole run of the driver is idempotent: [_run_source] with the
    same queries and cap, and the source answering as before, run a second
    time on the world the first run left, adds no row to the session and
    returns a downloaded total of 0. *)
Theorem run_source_twice (queries : list text) (cap : option Z) (w : World) :
  let run1 := _run_source cfg sys source source_name queries cap size_cap w in
  let run2 :=
    _run_source cfg sys source source_name queries cap size_cap (fst run1) in
  store (fst run2) = store (fst run1) /\ n_downloaded (snd run2) = 0%nat.
Proof.
  cbv zeta. unfold _run_source. rewrite !run_source_feeds.
  apply (feeds_quiet _ (_, no_stats)). apply feeds_settled_after.
Qed.

(** X8.  A whole run of the driver only appends rows, and it keeps both
    uniqueness rules of the session: no two rows with the same source,
    download URL and file name, and no two rows with the same content
    hash. *)
Theorem run_source_keeps_store_unique (queries : list text) (cap : option Z)
    (w : World) :
  keys_unique (store w) -> store_ok (store w) ->
  let rows := store (fst (_run_source cfg sys source source_name queries cap
                            size_cap w)) in
  (exists added, rows = store w ++ added)
  /\ keys_unique rows /\ store_ok rows.
Proof.
  intros Hk Hok rows. subst rows. unfold _run_source. rewrite run_source_feeds.
  pose proof (feeds_history (fed_hits source cap ∅ queries) (w, no_stats)) as Hh.
  split; [|split].
  - exact (history_prefix _ _ Hh).
  - now apply (feeds_keys _ (w, no_stats)).
  - exact (history_store_ok _ _ Hh Hok).
Qed.

End WholeRun.

(** X9.  The per-query limit of the driver: with a positive limit no query
    feeds more hits to the pipeline than the limit; without a limit ([None]
    or 0) every hit of the search that no earlier query returned is fed; and
    whatever the limit, the hits fed are hits of that query's search. *)
Theorem fed_hits_limit (source : BaseSource) (cap : option Z)
    (queries : list text) (j : nat) (q : text) (found batch : list DatasetHit) :
  queries !! j = Some q ->
  find source q = Some found ->
  fed_hits source cap ∅ queries !! j = Some batch ->
  incl batch found
  /\ (forall c, cap = Some c -> 0 < c -> (length batch <= Z.to_nat c)%nat)
  /\ (cap = None \/ cap = Some 0 ->
      forall h, In h found ->
        In h batch
        \/ exists i q' found', (i < j)%nat /\ queries !! i = Some q'
             /\ find source q' = Some found'
             /\ In (source_url h) (List.map source_url found')).
Proof.
  assert (Hgen : forall (qs : list text) (seen0 seen : gset text) (k : nat),
            (forall u, u ∈ seen -> u ∈ seen0 \/
               exists i q' found', (i < k)%nat /\ queries !! i = Some q'
                 /\ find source q' = Some found'
                 /\ In u (List.map source_url found')) ->
            (forall i, qs !! i = queries !! (k + i)%nat) ->
            forall i, (j = k + i)%nat ->
            queries !! j = Some q -> find source q = Some found ->
            fed_hits source cap seen qs !! i = Some batch ->
            incl batch found
            /\ (forall c, cap = Some c -> 0 < c -> (length batch <= Z.to_nat c)%nat)
            /\ (cap = None \/ cap = Some 0 ->
                forall h, In h found ->
                  In h batch \/ source_url h ∈ seen0
                  \/ exists i q' found', (i < j)%nat /\ queries !! i = Some q'
                       /\ find source q' = Some found'
                       /\ In (source_url h) (List.map source_url found'))).
  { induction qs as [|q0 qs IH]; intros seen0 seen k Hseen Hqs i Hj Hq Hfound Hfed.
    - destruct i; discriminate.
    - cbn [fed_hits] in Hfed. destruct i as [|i].
      + assert (Hq0 : q0 = q).
        { specialize (Hqs 0%nat). cbn in Hqs. rewrite Nat.add_0_r in Hqs.
          rewrite Nat.add_0_r in Hj. subst k. congruence. }
        subst q0. rewrite Hfound in Hfed. cbn in Hfed. injection Hfed as <-.
        split; [|split].
        * intros h Hh. apply cap_hits_incl in Hh. unfold unseen in Hh.
          now apply filter_In in Hh as [Hh _].
        * intros c -> Hc. unfold cap_hits.
          destruct (c =? 0) eqn:E0; [apply Z.eqb_eq in E0; lia|].
          apply Z.ltb_lt in Hc. rewrite Hc. apply firstn_le_length.
        * intros Hcap h Hh.
          assert (Hall : cap_hits cap (unseen seen found) = unseen seen found).
          { unfold cap_hits. destruct Hcap as [-> | ->]; reflexivity. }
          rewrite Hall. destruct (decide (source_url h ∈ seen)) as [Hs | Hs].
          -- right. destruct (Hseen _ Hs) as [? | (i & q' & f' & Hi & ? & ? & ?)];
               [now left|]. right. exists i, q', f'. repeat split; try assumption. lia.
          -- left. unfold unseen. apply filter_In. split; [assumption|].
             now apply bool_decide_eq_true.
      + assert (Hrest : forall i0, qs !! i0 = queries !! (S k + i0)%nat).
        { intros i0. specialize (Hqs (S i0)).
          replace (S k + i0)%nat with (k + S i0)%nat by lia. exact Hqs. }
        destruct (find source q0) as [hits|] eqn:Hq0; cbn in Hfed.
        * eapply (IH seen0 _ (S k)); [| exact Hrest | | exact Hq | exact Hfound | exact Hfed];
            [|lia].
          intros u Hu. unfold seen_update in Hu.
          apply elem_of_union in Hu as [Hu | Hu].
          -- destruct (Hseen _ Hu) as [? | (i0 & q' & f' & Hi & ? & ? & ?)];
               [now left|]. right. exists i0, q', f'. repeat split; try assumption. lia.
          -- right. exists k, q0, hits. split; [lia|]. split.
             { specialize (Hqs 0%nat). cbn in Hqs. rewrite Nat.add_0_r in Hqs.
               now rewrite <- Hqs. }
             split; [assumption|].
             apply elem_of_list_to_set, list_elem_of_In in Hu.
             apply in_map_iff in Hu as (h' & <- & Hh'). apply in_map.
             unfold unseen in Hh'. now apply filter_In in Hh' as [Hh' _].
        * eapply (IH seen0 seen (S k)); [| exact Hrest | | exact Hq | exact Hfound | exact Hfed];
            [|lia].
          intros u Hu. destruct (Hseen _ Hu) as [? | (i0 & q' & f' & Hi & ? & ? & ?)];
            [now left|]. right. exists i0, q', f'. repeat split; try assumption. lia. }
  intros Hq Hfound Hfed.
  destruct (Hgen queries ∅ ∅ 0%nat) with (i := j) as (H1 & H2 & H3);
    try assumption; try reflexivity.
  - intros u Hu. now left.
  - split; [exact H1|]. split; [exact H2|].
    intros Hcap h Hh. destruct (H3 Hcap h Hh) as [? | [Habs | ?]];
      [now left | set_solver | now right].
Qed.

End RunFacts.

(* --------------------------------------------------------------------- *)
(** ** The Dataverse adapter                                              *)
(* --------------------------------------------------------------------- *)

Module DataverseApiFacts.
Import Text TextMore SourcesBase Dataverse DataverseApi Vocabulary Notions.

(** The number of requests and the seconds slept in a trace of
    [pull_file]. *)
Lemma trace_through_cost (k : nat) :
  (1 <= k <= 3)%nat ->
  length (List.filter (fun e => match e with Request _ => true | _ => false end)
            (trace_through k)) = k
  /\ slept (trace_through k) <= 6.
Proof.
  intros Hk. assert (Hc : k = 1%nat \/ k = 2%nat \/ k = 3%nat) by lia.
  destruct Hc as [-> | [-> | ->]]; (split; [reflexivity | vm_compute; congruence]).
Qed.

(** X10.  Whatever the network does, a call of [pull_file] ends after one,
    two or three requests, having slept 2 s after the first and 4 s after the
    second when they were made and not last, so 6 s at most; each request
    before the last failed with a caught error; and the call ends by what
    the last request did: it returns the path that request saved, or raises
    the error of that request, which is a caught one only at the third
    request.  The loop is never left without a [return] or a [raise]. *)
Theorem pull_file_always_decides (network : nat -> attempt_result) :
  exists k : nat,
    (1 <= k <= 3)%nat
    /\ snd (pull_file network) = trace_through k
    /\ slept (snd (pull_file network)) <= 6
    /\ match fst (pull_file network) with
       | Returned out => network k = Saved out
       | Raised exc =>
           network k = Failed exc /\ (caught exc = true -> k = 3%nat)
       | FellThrough => False
       end
    /\ (forall i, (1 <= i < k)%nat ->
          exists exc, network i = Failed exc /\ caught exc = true).
Proof.
  enough (H : exists k : nat,
    (1 <= k <= 3)%nat
    /\ snd (pull_file network) = trace_through k
    /\ match fst (pull_file network) with
       | Returned out => network k = Saved out
       | Raised exc =>
           network k = Failed exc /\ (caught exc = true -> k = 3%nat)
       | FellThrough => False
       end
    /\ (forall i, (1 <= i < k)%nat ->
          exists exc, network i = Failed exc /\ caught exc = true)).
  { destruct H as (k & Hk & Ht & Hr & Hp). exists k.
    repeat split; try assumption; try lia.
    rewrite Ht. now apply trace_through_cost. }
  unfold pull_file. change (seq 1 _RETRY_LIMIT) with [1; 2; 3]%nat.
  cbn [pull_file_loop].
  destruct (network 1%nat) as [o1 | e1] eqn:N1.
  { exists 1%nat. cbn. repeat split; try lia; assumption. }
  destruct (caught e1) eqn:C1.
  2:{ exists 1%nat. cbn. repeat split; try lia; try assumption; congruence. }
  change (1 <? _RETRY_LIMIT)%nat with true. cbv iota.
  destruct (network 2%nat) as [o2 | e2] eqn:N2.
  { exists 2%nat. cbn. repeat split; try lia; try assumption.
    intros i Hi. assert (i = 1%nat) as -> by lia. eauto. }
  destruct (caught e2) eqn:C2.
  2:{ exists 2%nat. cbn. repeat split; try lia; try assumption; try congruence.
      intros i Hi. assert (i = 1%nat) as -> by lia. eauto. }
  assert (Hpre3 : forall i, (1 <= i < 3)%nat ->
            exists exc, network i = Failed exc /\ caught exc = true).
  { intros i Hi. assert (i = 1%nat \/ i = 2%nat) as [-> | ->] by lia; eauto. }
  change (2 <? _RETRY_LIMIT)%nat with true. cbv iota.
  destruct (network 3%nat) as [o3 | e3] eqn:N3.
  { exists 3%nat. cbn. repeat split; try lia; assumption. }
  destruct (caught e3) eqn:C3;
    exists 3%nat; cbn; repeat split; try lia; try assumption; congruence.
Qed.

(** *** Paging of [find] *)

Section Paging.
Context (host key : text) (search : Z -> option Payload).

(** With fewer than [_SEARCH_CAP] hits collected and a pass left for each
    hit still missing, the loop ends by itself, one more pass changes
    nothing, and what it requested and collected is this. *)
Lemma find_pages_fuel (fuel : nat) :
  forall (hits : list DatasetHit) (offset total : Z),
  (length hits < _SEARCH_CAP)%nat ->
  (_SEARCH_CAP <= fuel + length hits)%nat ->
  exists n : nat,
    (1 <= n)%nat /\ (n + length hits <= _SEARCH_CAP)%nat
    /\ snd (find_pages host key search fuel hits offset total) = offsets offset n
    /\ match fst (find_pages host key search fuel hits offset total) with
       | Broke hits' _ =>
           hits' = hits ++ flat_map (page_hits host key search) (offsets offset n)
           /\ Forall (fun o => search o <> None) (offsets offset n)
       | SearchRaised =>
           search (offset + 100 * Z.of_nat (n - 1)) = None
       | Unfinished => False
       end
    /\ forall more : nat,
         find_pages host key search (fuel + more) hits offset total
         = find_pages host key search fuel hits offset total.
Proof.
  induction fuel as [|fuel IH]; intros hits offset total Hlt Hfuel.
  { cbn in Hfuel. lia. }
  cbn [find_pages Nat.add].
  destruct (search offset) as [payload|] eqn:Hs.
  2:{ exists 1%nat. cbn [fst snd offsets]. repeat split; try lia.
      cbn. now rewrite Z.add_0_r. }
  destruct (default [] (items payload)) as [|it page] eqn:Hitems.
  { exists 1%nat. cbn [fst snd offsets flat_map]. repeat split; try lia.
    - unfold page_hits. rewrite Hs, Hitems. cbn. now rewrite app_nil_r.
    - repeat constructor. congruence. }
  set (hits' := hits ++ List.map (hit_of_item host key) (it :: page)).
  assert (Hlen : (length hits < length hits')%nat).
  { unfold hits'. rewrite length_app. cbn. lia. }
  assert (Hpage : page_hits host key search offset
                  = List.map (hit_of_item host key) (it :: page)).
  { unfold page_hits. now rewrite Hs, Hitems. }
  destruct ((offset + 100 >=? default 0 (total_count payload))
            || (Z.of_nat (length hits') >=? Z.of_nat _SEARCH_CAP)) eqn:Hbreak.
  { exists 1%nat. cbn [fst snd offsets flat_map]. repeat split; try lia.
    - rewrite Hpage. now rewrite app_nil_r.
    - repeat constructor. congruence. }
  apply orb_false_iff in Hbreak as [_ Hcap].
  assert (Hlt' : (length hits' < _SEARCH_CAP)%nat).
  { rewrite Z.geb_leb in Hcap. apply Z.leb_gt in Hcap. lia. }
  destruct (IH hits' (offset + 100) (default 0 (total_count payload)) Hlt'
              ltac:(lia)) as (n & Hn & Hbound & Hreq & Hres & Hmore).
  exists (S n). split; [lia|]. split; [lia|].
  destruct (find_pages host key search fuel hits' (offset + 100)
              (default 0 (total_count payload))) as [res reqs] eqn:Hrec.
  cbn [fst snd] in *. split; [now rewrite Hreq|]. split.
  - destruct res as [h t | |]; [| |exact Hres].
    + destruct Hres as [-> Hall]. cbn [offsets flat_map]. split.
      * rewrite Hpage. unfold hits'. now rewrite <- app_assoc.
      * constructor; [congruence | exact Hall].
    + replace (offset + 100 * Z.of_nat (S n - 1))
        with (offset + 100 + 100 * Z.of_nat (n - 1)) by lia. exact Hres.
  - intros more. now rewrite Hmore.
Qed.

(** X11.  Whatever the server answers, the search of [find] ends: it makes
    at least one and at most [_SEARCH_CAP] = 500 requests, at the offsets 0,
    100, 200, ... in order, and more passes of the loop would change nothing.
    It ends either with an exception of its last request, or returning the
    first 500 of the hits of the pages it requested, in the order of the
    pages, so 500 hits at most. *)
Theorem find_bounded :
  exists n : nat,
    (1 <= n <= _SEARCH_CAP)%nat
    /\ snd (find host key search) = offsets 0 n
    /\ match fst (find host key search) with
       | Broke hits _ =>
           hits = firstn _SEARCH_CAP
                    (flat_map (page_hits host key search) (offsets 0 n))
           /\ (length hits <= _SEARCH_CAP)%nat
           /\ Forall (fun o => search o <> None) (offsets 0 n)
       | SearchRaised => search (100 * Z.of_nat (n - 1)) = None
       | Unfinished => False
       end
    /\ forall more : nat,
         find_with host key search (_SEARCH_CAP + more) = find host key search.
Proof.
  destruct (find_pages_fuel _SEARCH_CAP [] 0 0) as (n & Hn & Hbound & Hreq & Hres & Hmore).
  { unfold _SEARCH_CAP. cbn [length]. lia. }
  { cbn [length]. lia. }
  exists n. split; [cbn [length] in Hbound; lia|].
  unfold find, find_with. split; [|split].
  - destruct (find_pages host key search _SEARCH_CAP [] 0 0) as [res reqs].
    cbn [snd] in Hreq. now destruct res.
  - destruct (find_pages host key search _SEARCH_CAP [] 0 0) as [res reqs].
    cbn [fst snd] in *. destruct res as [h t | |]; cbn [fst]; [|exact Hres|exact Hres].
    destruct Hres as [-> Hall]. cbn [app]. split; [|split; [|exact Hall]].
    + destruct (_SEARCH_CAP <? _)%nat eqn:E; [reflexivity|].
      apply Nat.ltb_ge in E. symmetry. now apply firstn_all2.
    + destruct (_SEARCH_CAP <? _)%nat eqn:E.
      * apply firstn_le_length.
      * now apply Nat.ltb_ge in E.
  - intros more. now rewrite Hmore.
Qed.

End Paging.

End DataverseApiFacts.

Module ParseFacts.
Import Text TextMore SourcesBase DataverseApi.
Import ClassifierFacts DriverFacts.

Lemma skipn_length_app (p rest : text) : skipn (length p) (p ++ rest) = rest.
Proof. induction p as [|a p IH]; [reflexivity | exact IH]. Qed.

(** A text that starts with [p ++ [c]] has a [c] among its first
    [length p + 1] characters. *)
Lemma startswith_last_in (c : ascii) (p : text) : forall s : text,
  startswith s (p ++ [c]) = true -> In c (firstn (S (length p)) s).
Proof.
  induction p as [|a p IH]; intros s H; destruct s as [|x s]; try discriminate;
    cbn [app startswith] in H; apply andb_true_iff in H as [Hx Hs];
    apply Ascii.eqb_eq in Hx; subst x.
  - now left.
  - right. now apply IH.
Qed.

(** The first occurrence of a separator that ends with a character found
    nowhere before that end. *)
Lemma after_first_app (c : ascii) (p pre rest : text) :
  ~ In c pre -> ~ In c p ->
  after_first (p ++ [c]) (pre ++ (p ++ [c]) ++ rest) = Some rest.
Proof.
  intros Hpre Hp. induction pre as [|a pre IH].
  - cbn [app]. destruct ((p ++ [c]) ++ rest) as [|x s] eqn:E.
    { destruct p; discriminate. }
    cbn [after_first]. rewrite <- E, startswith_app, skipn_length_app.
    reflexivity.
  - cbn [app after_first].
    destruct (startswith (a :: pre ++ (p ++ [c]) ++ rest) (p ++ [c])) eqn:E.
    + exfalso. apply startswith_last_in in E.
      replace (a :: pre ++ (p ++ [c]) ++ rest)
        with (((a :: pre) ++ p) ++ [c] ++ rest) in E
        by (cbn [app]; now rewrite <- !app_assoc).
      rewrite firstn_app in E.
      replace (S (length p) - length ((a :: pre) ++ p))%nat with 0%nat in E
        by (rewrite length_app; cbn [length]; lia).
      cbn [firstn] in E. rewrite app_nil_r in E.
      apply firstn_incl in E. apply in_app_or in E as [E | E]; [|contradiction].
      now apply Hpre.
    + apply IH. intros H. apply Hpre. now right.
Qed.

Lemma before_first_char_absent (c : ascii) (s : text) :
  ~ In c s -> before_first_char c s = s.
Proof.
  induction s as [|a s IH]; intros H; [reflexivity|].
  cbn [before_first_char]. destruct (Ascii.eqb a c) eqn:E.
  - apply Ascii.eqb_eq in E. subst a. exfalso. apply H. now left.
  - f_equal. apply IH. intros Hin. apply H. now right.
Qed.

(** X12.  The URL that [find] gives a hit with a global id leads
    [fetch_metadata] back to that id: for a host without the character [=]
    and a non-empty global id without the character [&],
    [_parse_persistent_id] finds the id in the URL, and the request for the
    metadata is made by that persistent id. *)
Theorem find_url_fetched_by_global_id (host key : text) (item : Item)
    (pid : text) :
  it_global_id item = Some pid -> pid <> [] ->
  ~ In "="%char host -> ~ In "&"%char pid ->
  _parse_persistent_id (source_url (hit_of_item host key item)) = Some pid
  /\ metadata_request_of (source_url (hit_of_item host key item))
     = ByPersistentId pid.
Proof.
  intros Hid Hne Hhost Hpid.
  assert (Hurl : source_url (hit_of_item host key item)
                 = (host ++ txt "/dataset.xhtml?")
                   ++ (txt "persistentId" ++ ["="%char]) ++ pid).
  { cbn [hit_of_item source_url]. rewrite Hid. cbn [default from_option id].
    destruct pid as [|a pid]; [contradiction|]. now rewrite <- app_assoc. }
  assert (Hparse : _parse_persistent_id (source_url (hit_of_item host key item))
                   = Some pid).
  { rewrite Hurl. unfold _parse_persistent_id.
    change (txt "persistentId=") with (txt "persistentId" ++ ["="%char]).
    rewrite contains_app, after_first_app.
    - now rewrite before_first_char_absent.
    - intros H. apply in_app_or in H as [H | H]; [contradiction|].
      cbn in H. intuition discriminate.
    - cbn. intuition discriminate. }
  split; [exact Hparse|].
  unfold metadata_request_of. rewrite Hparse.
  destruct pid; [contradiction | reflexivity].
Qed.

End ParseFacts.

(* --------------------------------------------------------------------- *)
(** ** The list of queries                                                *)
(* --------------------------------------------------------------------- *)

Module QueriesFacts.
Import Text Queries.

Lemma lstrip_fixed (s : text) :
  match s with [] => True | c :: _ => isspace c = false end -> lstrip s = s.
Proof. destruct s as [|c s]; [reflexivity|]. cbn [lstrip]. now intros ->. Qed.

Lemma rstrip_head (s : text) :
  match s with [] => True | c :: _ => isspace c = false end ->
  match rstrip s with [] => True | c :: _ => isspace c = false end.
Proof.
  destruct s as [|c s]; [trivial|]. intros Hc. cbn [rstrip].
  destruct (rstrip s); [now rewrite Hc | exact Hc].
Qed.

Lemma lstrip_head (s : text) :
  match lstrip s with [] => True | c :: _ => isspace c = false end.
Proof.
  induction s as [|c s IH]; [exact I|]. cbn [lstrip].
  destruct (isspace c) eqn:E; [exact IH | exact E].
Qed.

Lemma rstrip_idem (s : text) : rstrip (rstrip s) = rstrip s.
Proof.
  induction s as [|c s IH]; [reflexivity|]. cbn [rstrip].
  destruct (rstrip s) as [|r rs] eqn:E.
  - destruct (isspace c) eqn:Ec; [reflexivity|]. cbn [rstrip]. now rewrite Ec.
  - cbn [rstrip]. cbn [rstrip] in IH. now rewrite IH.
Qed.

Lemma strip_idem (s : text) : strip (strip s) = strip s.
Proof.
  unfold strip. rewrite (lstrip_fixed (rstrip (lstrip s))).
  - apply rstrip_idem.
  - apply rstrip_head, lstrip_head.
Qed.

Lemma lstrip_incl (s : text) : incl (lstrip s) s.
Proof.
  induction s as [|c s IH]; [apply incl_refl|]. cbn [lstrip].
  destruct (isspace c); [now apply incl_tl | apply incl_refl].
Qed.

Lemma rstrip_incl (s : text) : incl (rstrip s) s.
Proof.
  induction s as [|c s IH]; [apply incl_refl|]. cbn [rstrip].
  destruct (rstrip s) as [|r rs].
  - destruct (isspace c); [intros x [] | intros x [<- | []]; now left].
  - intros x [<- | Hx]; [now left | right; now apply IH].
Qed.

Lemma strip_incl (s : text) : incl (strip s) s.
Proof.
  unfold strip. eapply incl_tran; [apply rstrip_incl | apply lstrip_incl].
Qed.

(** No line of [splitlines] holds a line boundary. *)
Lemma splitlines_from_clean (s : text) : forall (cur : text) (after_cr : bool),
  Forall (fun c => is_linebreak c = false) cur ->
  Forall (Forall (fun c => is_linebreak c = false))
    (splitlines_from cur after_cr s).
Proof.
  induction s as [|c s IH]; intros cur after_cr Hcur; cbn [splitlines_from].
  - destruct cur; constructor; [|constructor].
    apply List.Forall_forall. intros x Hx. apply in_rev in Hx.
    rewrite List.Forall_forall in Hcur. now apply Hcur.
  - destruct (after_cr && (code c =? 10)%N).
    + apply IH. constructor.
    + destruct (is_linebreak c) eqn:E.
      * constructor; [|apply IH; constructor].
        apply List.Forall_forall. intros x Hx. apply in_rev in Hx.
        rewrite List.Forall_forall in Hcur. now apply Hcur.
      * apply IH. now constructor.
Qed.

(** X13.  With a queries file, [_read_query_list] returns only real
    queries, and takes them only from the file: every query returned is
    non-empty, has no white space at either end, does not start with [#] and
    holds no line boundary; and the list is empty exactly when every line of
    the file is blank or a comment: neither the single query nor the default
    "qualitative" is used then. *)
Theorem read_query_list_from_file (read_text : text -> option text)
    (path : text) (single : option text) (content : text) :
  path <> [] -> read_text path = Some content ->
  exists queries,
    _read_query_list read_text (Some path) single = Some queries
    /\ Forall (fun q => q <> [] /\ strip q = q
                        /\ startswith q (txt "#") = false
                        /\ Forall (fun c => is_linebreak c = false) q) queries
    /\ (queries = [] <->
        Forall (fun ln => strip ln = [] \/ startswith (strip ln) (txt "#") = true)
          (splitlines content)).
Proof.
  intros Hpath Hread. destruct path as [|p0 path]; [contradiction|].
  eexists. split; [cbn [_read_query_list]; now rewrite Hread|]. split.
  - apply List.Forall_forall. intros q Hq.
    apply in_map_iff in Hq as (ln & <- & Hln). apply filter_In in Hln as [Hln Hok].
    unfold is_query_line in Hok. destruct (strip ln) as [|c q] eqn:E; [discriminate|].
    split; [discriminate|]. split; [rewrite <- E; apply strip_idem|].
    split; [now apply negb_true_iff in Hok|].
    pose proof (splitlines_from_clean content [] false (List.Forall_nil _)) as Hclean.
    rewrite List.Forall_forall in Hclean. specialize (Hclean ln Hln).
    rewrite List.Forall_forall in Hclean. apply List.Forall_forall. intros x Hx.
    apply Hclean. apply strip_incl. now rewrite E.
  - generalize (splitlines content). intros lines.
    induction lines as [|ln lines IH]; cbn [List.filter List.map].
    + split; [constructor | reflexivity].
    + unfold is_query_line at 1. destruct (strip ln) as [|c q] eqn:E.
      * rewrite IH. split; [intros H; constructor; [now left | exact H]|].
        intros H. inversion H; subst; assumption.
      * destruct (startswith (c :: q) (txt "#")) eqn:Es; cbn [negb].
        -- rewrite IH. split; [intros H; constructor; [right; now rewrite E | exact H]|].
           intros H. inversion H; subst; assumption.
        -- cbn [List.map]. split; [discriminate|]. intros H.
           inversion H as [|? ? [Hb | Hc] _]; rewrite E in *; congruence.
Qed.

End QueriesFacts.

(* --------------------------------------------------------------------- *)
(** ** Directory-name fragments                                           *)
(* --------------------------------------------------------------------- *)

Module SlugFacts.
Import Text TextMore Slug.

Lemma alnum_not_dash (c : ascii) :
  is_slug_alnum c = true -> Ascii.eqb c "-" = false.
Proof.
  intros H. apply Ascii.eqb_neq. intros ->. discriminate.
Qed.

Lemma sub_non_alnum_single (s : text) : forall b : bool,
  dashes_single b (sub_non_alnum b s) = true.
Proof.
  induction s as [|c s IH]; intros b; [reflexivity|]. cbn [sub_non_alnum].
  destruct (is_slug_alnum c) eqn:E.
  - cbn [dashes_single]. now rewrite E.
  - destruct b; [apply IH|]. cbn [dashes_single]. apply IH.
Qed.

(** On single dashes the second substitution of [to_slug] changes
    nothing. *)
Lemma sub_dashes_single (s : text) : forall b : bool,
  dashes_single b s = true -> sub_dashes b s = s.
Proof.
  induction s as [|c s IH]; intros b H; [reflexivity|].
  cbn [dashes_single] in H. cbn [sub_dashes].
  destruct (is_slug_alnum c) eqn:E.
  - rewrite (alnum_not_dash _ E). f_equal. now apply IH.
  - apply andb_true_iff in H as [H Hs]. apply andb_true_iff in H as [Hc Hb].
    rewrite Hc. destruct b; [discriminate|]. f_equal. now apply IH.
Qed.

Lemma lstrip_dash_single (s : text) : forall b : bool,
  dashes_single b s = true -> dashes_single true (lstrip_char "-" s) = true.
Proof.
  induction s as [|c s IH]; intros b H; [reflexivity|].
  cbn [dashes_single] in H. cbn [lstrip_char].
  destruct (is_slug_alnum c) eqn:E.
  - rewrite (alnum_not_dash _ E). cbn [dashes_single]. now rewrite E.
  - apply andb_true_iff in H as [H Hs]. apply andb_true_iff in H as [Hc Hb].
    rewrite Hc. now apply (IH true).
Qed.

Lemma dashes_inside_cons (b : bool) (c : ascii) (rest : text) :
  dashes_inside b (c :: rest)
  = if is_slug_alnum c then dashes_inside false rest
    else Ascii.eqb c "-" && negb b && dashes_inside true rest.
Proof. reflexivity. Qed.

Lemma rstrip_dash_inside (s : text) : forall b : bool,
  dashes_single b s = true ->
  match rstrip_char "-" s with
  | [] => True
  | r => dashes_inside b r = true
  end.
Proof.
  induction s as [|c s IH]; intros b H; [exact I|].
  cbn [dashes_single] in H. cbn [rstrip_char].
  destruct (is_slug_alnum c) eqn:E.
  - specialize (IH false H). rewrite (alnum_not_dash _ E).
    destruct (rstrip_char "-" s) as [|r rs]; rewrite dashes_inside_cons, E;
      [reflexivity | exact IH].
  - apply andb_true_iff in H as [H Hs]. apply andb_true_iff in H as [Hc Hb].
    specialize (IH true Hs). rewrite Hc.
    destruct (rstrip_char "-" s) as [|r rs]; [exact I|].
    rewrite dashes_inside_cons. now rewrite E, Hc, Hb, IH.
Qed.

Lemma strip_dash_slug (s : text) :
  dashes_single false s = true -> is_slug (strip_char "-" s) = true.
Proof.
  intros H. unfold strip_char, is_slug.
  pose proof (rstrip_dash_inside _ true (lstrip_dash_single s false H)) as Hr.
  now destruct (rstrip_char "-" (lstrip_char "-" s)).
Qed.

Lemma inside_single (s : text) : forall b : bool,
  dashes_inside b s = true -> dashes_single b s = true.
Proof.
  induction s as [|c s IH]; intros b H; [reflexivity|].
  cbn [dashes_inside] in H. cbn [dashes_single].
  destruct (is_slug_alnum c); [now apply IH|].
  apply andb_true_iff in H as [H Hs]. rewrite H. now apply IH.
Qed.

Lemma firstn_single (n : nat) : forall (s : text) (b : bool),
  dashes_single b s = true -> dashes_single b (firstn n s) = true.
Proof.
  induction n as [|n IH]; intros s b H; [reflexivity|].
  destruct s as [|c s]; [reflexivity|]. cbn [firstn dashes_single] in *.
  destruct (is_slug_alnum c); [now apply IH|].
  apply andb_true_iff in H as [H Hs]. rewrite H. now apply IH.
Qed.

(** What [rsplit_head] returns: the part before the last [c]. *)
Lemma rsplit_head_cases (c : ascii) (s : text) :
  (existsb (Ascii.eqb c) s = false /\ rsplit_head c s = s)
  \/ exists post, s = rsplit_head c s ++ c :: post.
Proof.
  induction s as [|a s IH]; [now left|]. cbn [rsplit_head existsb].
  destruct (existsb (Ascii.eqb c) s) eqn:E.
  - right. destruct IH as [[IH _] | [post IH]]; [discriminate|].
    exists post. cbn [app]. now rewrite <- IH.
  - destruct (Ascii.eqb a c) eqn:Ea.
    + right. apply Ascii.eqb_eq in Ea. subst a. now exists s.
    + left. rewrite Ascii.eqb_sym, Ea. now split.
Qed.

Lemma single_no_dash_inside (s : text) : forall b : bool,
  dashes_single b s = true -> existsb (Ascii.eqb "-") s = false ->
  match s with [] => True | _ => dashes_inside b s = true end.
Proof.
  induction s as [|c s IH]; intros b H Hno; [exact I|].
  cbn [dashes_single existsb] in *. apply orb_false_iff in Hno as [Hc Hno].
  cbn [dashes_inside]. destruct (is_slug_alnum c).
  - specialize (IH false H Hno). now destruct s.
  - apply andb_true_iff in H as [H _]. apply andb_true_iff in H as [H _].
    rewrite Ascii.eqb_sym in Hc. congruence.
Qed.

Lemma single_before_dash (pre post : text) : forall b : bool,
  dashes_single b (pre ++ "-"%char :: post) = true ->
  match pre with [] => True | _ => dashes_inside b pre = true end.
Proof.
  induction pre as [|a pre IH]; intros b H; [exact I|].
  cbn [app dashes_single] in H. cbn [dashes_inside].
  destruct (is_slug_alnum a).
  - specialize (IH false H). now destruct pre.
  - apply andb_true_iff in H as [H Hs]. rewrite H. cbn [andb].
    specialize (IH true Hs). destruct pre; [|exact IH].
    cbn [app dashes_single] in Hs. cbn in Hs. discriminate.
Qed.

Lemma rsplit_head_slug (s : text) :
  dashes_single true s = true -> is_slug (rsplit_head "-" s) = true.
Proof.
  intros H. unfold is_slug.
  destruct (rsplit_head_cases "-" s) as [[Hno ->] | [post Hs]].
  - pose proof (single_no_dash_inside s true H Hno). now destruct s.
  - rewrite Hs in H. apply single_before_dash in H.
    now destruct (rsplit_head "-" s).
Qed.

Lemma rsplit_head_length (c : ascii) (s : text) :
  (length (rsplit_head c s) <= length s)%nat.
Proof.
  destruct (rsplit_head_cases c s) as [[_ ->] | [post Hs]]; [lia|].
  rewrite Hs at 2. rewrite length_app. lia.
Qed.

(** The result of [to_slug] is a slug. *)
Lemma to_slug_is_slug (fold : text -> text) (s : text) (ceiling : Z) :
  is_slug (to_slug fold s ceiling) = true.
Proof.
  unfold to_slug.
  assert (Hc : is_slug (strip_char "-"
                 (sub_dashes false (sub_non_alnum false (lower (fold s)))))
               = true).
  { apply strip_dash_slug.
    rewrite sub_dashes_single; apply sub_non_alnum_single. }
  destruct (ceiling <? _); [|exact Hc].
  apply rsplit_head_slug. unfold slice_to.
  assert (Hs : dashes_single true (strip_char "-"
                 (sub_dashes false (sub_non_alnum false (lower (fold s)))))
               = true).
  { unfold is_slug in Hc. destruct (strip_char _ _) eqn:E; [reflexivity|].
    now apply inside_single. }
  destruct (0 <=? ceiling); now apply firstn_single.
Qed.

(** What being a slug means, character by character. *)
Lemma inside_chars (s : text) : forall b : bool,
  dashes_inside b s = true ->
  Forall (fun c => is_slug_alnum c = true \/ c = "-"%char) s.
Proof.
  induction s as [|c s IH]; intros b H; constructor;
    cbn [dashes_inside] in H; destruct (is_slug_alnum c) eqn:E.
  - now left.
  - apply andb_true_iff in H as [H _]. apply andb_true_iff in H as [H _].
    right. now apply Ascii.eqb_eq.
  - now apply (IH false).
  - apply andb_true_iff in H as [_ H]. now apply (IH true).
Qed.

Lemma inside_no_double (p q : text) : forall b : bool,
  dashes_inside b (p ++ txt "--" ++ q) = false.
Proof.
  induction p as [|c p IH]; intros b.
  - cbn. now rewrite andb_false_r.
  - cbn [app dashes_inside]. destruct (is_slug_alnum c); [apply IH|].
    rewrite (IH true). apply andb_false_r.
Qed.

Lemma inside_no_last (p : text) : forall b : bool,
  dashes_inside b (p ++ txt "-") = false.
Proof.
  induction p as [|c p IH]; intros b.
  - cbn. now rewrite andb_false_r.
  - cbn [app dashes_inside]. destruct (is_slug_alnum c); [apply IH|].
    rewrite (IH true). apply andb_false_r.
Qed.

(** X14.  Whatever the text and the ceiling, [to_slug] returns a safe
    directory-name fragment: only the characters [a-z], [0-9] and the dash,
    no dash at the start or at the end, no two dashes in a row; and for a
    ceiling that is not negative, at most [ceiling] characters. *)
Theorem to_slug_safe (fold : text -> text) (s : text) (ceiling : Z) :
  let slug := to_slug fold s ceiling in
  Forall (fun c => is_slug_alnum c = true \/ c = "-"%char) slug
  /\ (forall q, slug <> txt "-" ++ q)
  /\ (forall p, slug <> p ++ txt "-")
  /\ (forall p q, slug <> p ++ txt "--" ++ q)
  /\ (0 <= ceiling -> Z.of_nat (length slug) <= ceiling).
Proof.
  intros slug. pose proof (to_slug_is_slug fold s ceiling) as Hs.
  fold slug in Hs. unfold is_slug in Hs. repeat split.
  - destruct slug as [|c r]; [constructor|]. now apply (inside_chars _ true).
  - intros q E. rewrite E in Hs. cbn in Hs. discriminate.
  - intros p E. rewrite E in Hs.
    destruct (p ++ txt "-") as [|c r] eqn:Ep; [destruct p; discriminate|].
    rewrite <- Ep, inside_no_last in Hs. discriminate.
  - intros p q E. rewrite E in Hs.
    destruct (p ++ txt "--" ++ q) as [|c r] eqn:Ep; [destruct p; discriminate|].
    rewrite <- Ep, inside_no_double in Hs. discriminate.
  - intros Hc. subst slug. unfold to_slug.
    destruct (ceiling <? _) eqn:E.
    + pose proof (rsplit_head_length "-"
               (slice_to ceiling (strip_char "-"
                  (sub_dashes false (sub_non_alnum false (lower (fold s)))))))
        as Hl.
      unfold slice_to in *. apply Z.leb_le in Hc. rewrite Hc in *.
      pose proof (firstn_le_length (Z.to_nat ceiling)
                    (strip_char "-"
                       (sub_dashes false (sub_non_alnum false (lower (fold s))))))
        as Hf.
      apply Z.leb_le in Hc. lia.
    + apply Z.ltb_ge in E. exact E.
Qed.

End SlugFacts.

(* --------------------------------------------------------------------- *)
(** ** Collecting from every source, with retries                         *)
(* --------------------------------------------------------------------- *)

Module CollectFacts.
Import Text Pipeline Collect.
Import PipelineFacts.

Section Retries.
Context (run : text -> nat -> run_result).

Local Abbreviation stands_at := (stands run).

Lemma passes_of_snoc (key key' : text) (pass : nat) (r : gmap text entry)
    (f f' : list text) (cs : list (text * nat)) :
  passes_of key {| results := r; failures := f; calls := cs ++ [(key', pass)] |}
  = passes_of key {| results := r; failures := f'; calls := cs |}
    ++ (if text_eqb key' key then [pass] else []).
Proof.
  unfold passes_of. cbn [calls]. rewrite List.filter_app, List.map_app.
  cbn [List.filter fst]. now destruct (text_eqb key' key).
Qed.

Lemma text_eqb_neq (a b : text) : a <> b -> text_eqb a b = false.
Proof. intros H. unfold text_eqb. now apply bool_decide_eq_false. Qed.

(** [stands] looks at a state only through the three things it names. *)
Lemma stands_frame (k : nat) (st st' : state) (key : text) :
  (In key (failures st) <-> In key (failures st')) ->
  results st !! key = results st' !! key ->
  passes_of key st = passes_of key st' ->
  stands_at k st key -> stands_at k st' key.
Proof.
  intros Hf Hr Hp [(Hin & Hall & (m & Hm & He) & Hps)
                  | (Hout & j & n & Hj & Hall & Hok & He & Hps)].
  - left. split; [now apply Hf|]. split; [exact Hall|]. split.
    + exists m. split; [exact Hm | congruence].
    + congruence.
  - right. split; [now rewrite <- Hf|]. exists j, n.
    repeat split; try assumption; congruence.
Qed.

Lemma stands_later (k : nat) (st : state) (key : text) :
  ~ In key (failures st) -> stands_at k st key -> stands_at (S k) st key.
Proof.
  intros Hout [(Hin & _) | (_ & j & n & Hj & Hrest)]; [contradiction|].
  right. split; [exact Hout|]. exists j, n. split; [lia | exact Hrest].
Qed.

Local Abbreviation between := (Notions.between run).

Lemma first_pass_between (keys : list text) :
  List.NoDup keys ->
  between keys 0 (first_pass run keys)
  /\ forall key, ~ In key keys -> passes_of key (first_pass run keys) = [].
Proof.
  unfold first_pass, Notions.between.
  induction keys as [|x l IH] using rev_ind; intros Hnd.
  { cbn. repeat split; try (intros key []); try constructor; reflexivity. }
  apply List.NoDup_remove in Hnd as [Hnd Hx]. rewrite app_nil_r in Hnd, Hx.
  destruct (IH Hnd) as ((HA & HC & HD & HE) & HB). clear IH.
  rewrite fold_left_app. cbn [fold_left].
  set (st := fold_left (first_step run) l _) in *.
  assert (Hxf : ~ In x (failures st)) by (intros H; now apply Hx, HC).
  assert (Hframe : forall key, key <> x ->
            (In key (failures st) <-> In key (failures (first_step run st x)))
            /\ results st !! key = results (first_step run st x) !! key
            /\ passes_of key st = passes_of key (first_step run st x)).
  { intros key Hne. unfold first_step.
    destruct (run x 0%nat) as [n | m]; cbn [failures results];
      rewrite lookup_insert_ne by congruence;
      rewrite (passes_of_snoc _ _ _ _ _ (failures st)), text_eqb_neq, app_nil_r
        by congruence;
      (split; [|split; [reflexivity | now destruct st]]).
    - reflexivity.
    - rewrite in_app_iff. cbn. intuition congruence. }
  split; [split; [|split; [|split]]|].
  - intros key Hkey. apply in_app_or in Hkey as [Hkey | [<- | []]].
    + assert (Hne : key <> x) by (intros ->; contradiction).
      destruct (Hframe key Hne) as (H1 & H2 & H3).
      apply (stands_frame 0 st); [exact H1 | exact H2 | exact H3 | now apply HA].
    + unfold first_step. destruct (run x 0%nat) as [n | m] eqn:Hrun.
      * right. cbn [failures results]. split; [exact Hxf|].
        exists 0%nat, n. split; [lia|]. split; [intros i Hi; lia|].
        split; [exact Hrun|]. split; [apply lookup_insert_eq|].
        rewrite (passes_of_snoc _ _ _ _ _ (failures st)), text_eqb_refl.
        replace (passes_of x _) with (passes_of x st) by now destruct st.
        now rewrite (HB x Hx).
      * left. cbn [failures results]. split; [apply in_or_app; right; now left|].
        split.
        { intros i Hi. assert (i = 0%nat) as -> by lia. now rewrite Hrun. }
        split; [exists m; split; [exact Hrun | apply lookup_insert_eq]|].
        rewrite (passes_of_snoc _ _ _ _ _ (failures st)), text_eqb_refl.
        replace (passes_of x _) with (passes_of x st) by now destruct st.
        now rewrite (HB x Hx).
  - intros key Hkey. unfold first_step in Hkey.
    destruct (run x 0%nat); cbn [failures] in Hkey.
    + apply in_or_app. left. now apply HC.
    + apply in_app_or in Hkey as [Hkey | [<- | []]].
      * apply in_or_app. left. now apply HC.
      * apply in_or_app. right. now left.
  - unfold first_step. destruct (run x 0%nat); cbn [failures]; [exact HD|].
    apply NoDup_ListNoDup. apply NoDup_app. split; [now apply NoDup_ListNoDup|].
    split; [|apply NoDup_singleton].
    intros y Hy Hy'. apply list_elem_of_singleton in Hy'. subst y.
    apply Hxf. now apply list_elem_of_In.
  - intros key Hkey.
    assert (Hne : key <> x) by (intros ->; apply Hkey, in_or_app; right; now left).
    destruct (Hframe key Hne) as (_ & <- & _). apply HE.
    intros H. apply Hkey, in_or_app. now left.
  - intros key Hkey.
    assert (Hne : key <> x) by (intros ->; apply Hkey, in_or_app; right; now left).
    destruct (Hframe key Hne) as (_ & _ & <-). apply HB.
    intros H. apply Hkey, in_or_app. now left.
Qed.

(** The loop of one retry pass over a part [l] of the failed sources. *)
Lemma retry_steps (keys : list text) (k : nat) (st : state) :
  between keys k st ->
  forall l : list text,
  List.NoDup l -> (forall key, In key l -> In key (failures st)) ->
  let st' :=
    fold_left (retry_step run (S k)) l
      {| results := results st; failures := []; calls := calls st |} in
  (forall key, In key l -> stands_at (S k) st' key)
  /\ (forall key, ~ In key l ->
        results st' !! key = results st !! key
        /\ passes_of key st' = passes_of key st
        /\ ~ In key (failures st'))
  /\ List.NoDup (failures st').
Proof.
  intros (HA & HC & HD & HE).
  induction l as [|x l IH] using rev_ind; intros Hnd Hsub.
  { cbn. split; [intros key []|]. split; [|constructor].
    intros key _. split; [reflexivity|]. split; [reflexivity | intros []]. }
  apply List.NoDup_remove in Hnd as [Hnd Hx]. rewrite app_nil_r in Hnd, Hx.
  destruct (IH Hnd) as (IA & IB & ID).
  { intros key Hkey. apply Hsub, in_or_app. now left. }
  clear IH. cbv zeta. rewrite fold_left_app. cbn [fold_left].
  set (st1 := fold_left (retry_step run (S k)) l _) in *. cbv zeta in IA, IB, ID.
  destruct (IB x Hx) as (Hrx & Hpx & Hfx).
  assert (Hxfail : In x (failures st)) by (apply Hsub, in_or_app; right; now left).
  assert (Hold : (forall i, (i <= k)%nat -> raised (run x i))
                 /\ (exists m, results st !! x = Some (failed_entry m))
                 /\ passes_of x st = seq 0 (S k)).
  { destruct (HA x (HC x Hxfail)) as [(_ & Hall & (m & _ & He) & Hps)
                                     | (Hout & _)]; [|contradiction].
    split; [exact Hall|]. split; [now exists m | exact Hps]. }
  destruct Hold as (Hall & (m0 & He0) & Hps0).
  assert (Hframe : forall key, key <> x ->
            (In key (failures st1) <-> In key (failures (retry_step run (S k) st1 x)))
            /\ results st1 !! key = results (retry_step run (S k) st1 x) !! key
            /\ passes_of key st1 = passes_of key (retry_step run (S k) st1 x)).
  { intros key Hne. unfold retry_step.
    destruct (run x (S k)) as [n | m]; cbn [failures results];
      rewrite (passes_of_snoc _ _ _ _ _ (failures st1)), text_eqb_neq, app_nil_r
        by congruence.
    - rewrite lookup_insert_ne by congruence.
      split; [reflexivity|]. split; [reflexivity | now destruct st1].
    - rewrite lookup_alter_ne by congruence.
      split; [|split; [reflexivity | now destruct st1]].
      rewrite in_app_iff. cbn. intuition congruence. }
  split; [|split].
  - intros key Hkey. apply in_app_or in Hkey as [Hkey | [<- | []]].
    + assert (Hne : key <> x) by (intros ->; contradiction).
      destruct (Hframe key Hne) as (H1 & H2 & H3).
      apply (stands_frame (S k) st1); [exact H1 | exact H2 | exact H3 | now apply IA].
    + unfold retry_step. destruct (run x (S k)) as [n | m] eqn:Hrun.
      * right. cbn [failures results]. split; [exact Hfx|].
        exists (S k), n. split; [lia|]. split; [intros i Hi; apply Hall; lia|].
        split; [exact Hrun|]. split; [apply lookup_insert_eq|].
        rewrite (passes_of_snoc _ _ _ _ _ (failures st1)), text_eqb_refl.
        replace (passes_of x {| results := _; failures := _; calls := calls st1 |})
          with (passes_of x st1) by now destruct st1.
        rewrite Hpx, Hps0. now rewrite <- seq_S.
      * left. cbn [failures results]. split; [apply in_or_app; right; now left|].
        split.
        { intros i Hi. destruct (Nat.eq_dec i (S k)) as [-> | Hne];
            [now rewrite Hrun | apply Hall; lia]. }
        split.
        { exists m. split; [exact Hrun|].
          rewrite lookup_alter_eq, Hrx, He0. reflexivity. }
        rewrite (passes_of_snoc _ _ _ _ _ (failures st1)), text_eqb_refl.
        replace (passes_of x {| results := _; failures := _; calls := calls st1 |})
          with (passes_of x st1) by now destruct st1.
        rewrite Hpx, Hps0. now rewrite <- seq_S.
  - intros key Hkey.
    assert (Hne : key <> x) by (intros ->; apply Hkey, in_or_app; right; now left).
    assert (Hkl : ~ In key l) by (intros H; apply Hkey, in_or_app; now left).
    destruct (Hframe key Hne) as (H1 & <- & <-).
    destruct (IB key Hkl) as (? & ? & ?). repeat split; try assumption.
    now rewrite <- H1.
  - unfold retry_step. destruct (run x (S k)); cbn [failures]; [exact ID|].
    apply NoDup_ListNoDup. apply NoDup_app. split; [now apply NoDup_ListNoDup|].
    split; [|apply NoDup_singleton].
    intros y Hy Hy'. apply list_elem_of_singleton in Hy'. subst y.
    apply Hfx. now apply list_elem_of_In.
Qed.

Lemma retry_pass_between (keys : list text) (k : nat) (st : state) :
  between keys k st -> between keys (S k) (retry_pass run (S k) st).
Proof.
  intros Hb. pose proof Hb as (HA & HC & HD & HE).
  destruct (retry_steps keys k st Hb (failures st) HD (fun _ H => H))
    as (IA & IB & ID).
  unfold retry_pass. cbv zeta in IA, IB, ID.
  set (st' := fold_left _ _ _) in *. split; [|split; [|split]].
  - intros key Hkey.
    destruct (decide (key ∈ failures st)) as [Hin | Hout].
    + apply IA. now apply list_elem_of_In.
    + assert (Ho : ~ In key (failures st))
        by (intros H; now apply Hout, list_elem_of_In).
      destruct (IB key Ho) as (Hr & Hp & Hf).
      apply stands_later; [exact Hf|].
      apply (stands_frame k st); try (symmetry; assumption); [|now apply HA].
      split; intros H; contradiction.
  - intros key Hkey. destruct (decide (key ∈ failures st)) as [Hin | Hout].
    + apply HC. now apply list_elem_of_In.
    + assert (Ho : ~ In key (failures st))
        by (intros H; now apply Hout, list_elem_of_In).
      now destruct (IB key Ho) as (_ & _ & Hf).
  - exact ID.
  - intros key Hkey.
    assert (Ho : ~ In key (failures st)) by (intros H; now apply Hkey, HC).
    destruct (IB key Ho) as (-> & _). now apply HE.
Qed.

Lemma retry_loop_between (keys : list text) (m : nat) :
  forall (k : nat) (st : state),
  between keys k st ->
  exists k' : nat,
    (k <= k' <= k + m)%nat
    /\ between keys k' (retry_loop run (seq (S k) m) st)
    /\ ((k' < k + m)%nat -> failures (retry_loop run (seq (S k) m) st) = []).
Proof.
  induction m as [|m IH]; intros k st Hb.
  - exists k. cbn. repeat split; try lia; apply Hb.
  - cbn [seq retry_loop]. destruct (failures st) as [|f fs] eqn:Hf.
    + exists k. split; [lia|]. split; [exact Hb | now intros _].
    + destruct (IH (S k) _ (retry_pass_between keys k st Hb))
        as (k' & Hk & Hb' & Hstop).
      exists k'. split; [lia|]. split; [exact Hb'|]. intros Hlt. apply Hstop. lia.
Qed.

(** X15.  [collect_all] runs every source once; a source whose run raised is
    run again in each pass of the retry loop until a run returns or the
    [retries] passes are used up, and a source whose run returned is never
    run again.  So for every source, either its runs in the passes 0..j
    are all the runs made for it, the one in pass j <= [retries] returned
    after all before it raised, and its entry in the report is the OK entry
    with the totals of that run; or all its [retries] + 1 runs raised, and
    its entry is the FAILED one, with zero totals and the message of the
    last run.  The report has entries for the sources only. *)
Theorem collect_all_outcome (keys : list text) (retries : Z) (key : text) :
  List.NoDup keys -> In key keys ->
  let st := collect_all run keys retries in
  let last := Z.to_nat retries in
  ((exists j totals,
      (j <= last)%nat
      /\ (forall i, (i < j)%nat -> raised (run key i))
      /\ run key j = RunOk totals
      /\ results st !! key = Some (ok_entry totals)
      /\ passes_of key st = seq 0 (S j))
   \/ ((forall i, (i <= last)%nat -> raised (run key i))
       /\ exists message,
            run key last = RunRaised message
            /\ results st !! key = Some (failed_entry message)
            /\ passes_of key st = seq 0 (S last)))
  /\ (forall other, ~ In other keys -> results st !! other = None).
Proof.
  intros Hnd Hkey st last.
  destruct (first_pass_between keys Hnd) as (Hb & _).
  destruct (retry_loop_between keys last 0 _ Hb) as (k & Hk & (HA & _ & _ & HE) & Hstop).
  fold (collect_all run keys retries) in HA, HE, Hstop. fold st in HA, HE, Hstop.
  split; [|exact HE].
  destruct (HA key Hkey) as [(Hin & Hall & (m & Hm & He) & Hps)
                            | (_ & j & n & Hj & Hall & Hok & He & Hps)].
  - right. assert (k = last) as ->.
    { destruct (Nat.eq_dec k last) as [E | E]; [exact E|].
      rewrite Hstop in Hin by lia. destruct Hin. }
    split; [exact Hall|]. now exists m.
  - left. exists j, n. repeat split; try assumption. lia.
Qed.

End Retries.

End CollectFacts.

(* --------------------------------------------------------------------- *)
(** ** The license classifier: prefixes and letter case                   *)
(* --------------------------------------------------------------------- *)

Module LicensingMoreFacts.
Import Text Licensing Vocabulary Notions.
Import LicensingFacts.

(** *** What follows an accepted prefix does not matter *)

Lemma sub_tags_app_no_lt (v rest : text) :
  Forall (fun c => c <> "<"%char) v ->
  sub_tags false (v ++ rest) = v ++ sub_tags false rest.
Proof.
  induction 1 as [|c v Hc _ IH]; [reflexivity|]. cbn [app sub_tags].
  apply Ascii.eqb_neq in Hc. rewrite Hc. cbn [andb]. now rewrite IH.
Qed.

Lemma sub_ws_app_well_spaced (v rest : text) : forall b : bool,
  well_spaced b v = true -> sub_ws b (v ++ rest) = v ++ sub_ws false rest.
Proof.
  induction v as [|c v IH]; intros b H.
  - cbn in H. apply negb_true_iff in H. now subst b.
  - cbn [well_spaced] in H. cbn [app sub_ws]. destruct (isspace c).
    + apply andb_true_iff in H as [H Hrest]. apply andb_true_iff in H as [Hc Hb].
      apply Ascii.eqb_eq in Hc. apply negb_true_iff in Hb. subst.
      now rewrite (IH true Hrest).
    + now rewrite (IH false H).
Qed.

Lemma rstrip_app_well_spaced (v rest : text) : forall b : bool,
  well_spaced b v = true -> v <> [] ->
  exists kept, rstrip (v ++ rest) = v ++ kept.
Proof.
  induction v as [|c v IH]; intros b H Hne; [contradiction|].
  cbn [well_spaced] in H. cbn [app rstrip]. destruct v as [|d v].
  - destruct (isspace c) eqn:Hsp.
    { apply andb_true_iff in H as [_ H]. discriminate. }
    cbn [app]. destruct (rstrip rest) as [|r rs];
      [now exists [] | now exists (r :: rs)].
  - assert (Hrest : exists b0, well_spaced b0 (d :: v) = true).
    { destruct (isspace c).
      - apply andb_true_iff in H as [_ H]. now exists true.
      - now exists false. }
    destruct Hrest as (b0 & Hrest).
    destruct (IH b0 Hrest ltac:(discriminate)) as (kept & Hk).
    rewrite Hk. exists kept. reflexivity.
Qed.

Lemma startswith_app_l (p : text) : forall s t : text,
  startswith s p = true -> startswith (s ++ t) p = true.
Proof.
  induction p as [|a p IH]; intros s t H; [now destruct (s ++ t)|].
  destruct s as [|c s]; [discriminate|]. cbn [app startswith] in *.
  apply andb_true_iff in H as [Hc Hs]. rewrite Hc. now apply IH.
Qed.

(** X16.  The allow-list is a list of prefixes, and the cleaning does not
    get in their way: a text that begins with a case and spacing variant of
    a member of the allow-list (other than the one spelled with a space) is
    classified as open, whatever follows the variant. *)
Theorem license_prefix_then_anything (m v rest : text) :
  In m _ACCEPTED -> m <> txt "public domain" -> variant_of m v ->
  license_is_open (Some (v ++ rest)) = true.
Proof.
  intros Hm Hne Hv.
  pose proof hyphenated_members_ok as Hall.
  rewrite forallb_forall in Hall.
  assert (Hin : In m hyphenated_members).
  { unfold hyphenated_members. apply filter_In. split; [exact Hm|].
    apply negb_true_iff, bool_decide_eq_false. exact Hne. }
  specialize (Hall m Hin). unfold member_ok in Hall.
  apply andb_true_iff in Hall as [Hall Hprefix].
  apply andb_true_iff in Hall as [Hplain Hsep].
  destruct (variant_canonical m v true true Hplain Hsep (fun _ => eq_refl) Hv)
    as (Hlt & Hws & Hmap).
  assert (Hv0 : v <> []).
  { intros ->. inversion Hv; subst. cbn in Hsep. discriminate. }
  assert (Hclean : exists kept, cleaned (v ++ rest) = v ++ kept).
  { unfold cleaned. rewrite (sub_tags_app_no_lt v rest Hlt).
    assert (Hsub : sub_ws false (v ++ sub_tags false rest)
                   = v ++ sub_ws false (sub_tags false rest)).
    { destruct v as [|c v]; [contradiction|]. cbn [well_spaced] in Hws.
      cbn [app sub_ws]. destruct (isspace c).
      - now rewrite andb_false_r in Hws.
      - now rewrite (sub_ws_app_well_spaced v _ false Hws). }
    rewrite Hsub. unfold strip.
    assert (Hl : forall t, lstrip (v ++ t) = v ++ t).
    { intros t. destruct v as [|c v]; [contradiction|]. cbn [well_spaced] in Hws.
      cbn [app lstrip]. destruct (isspace c); [|reflexivity].
      now rewrite andb_false_r in Hws. }
    rewrite Hl. now apply (rstrip_app_well_spaced v _ true). }
  destruct Hclean as (kept & Hclean).
  assert (Hopen : prefix_match (cleaned (v ++ rest)) = true).
  { unfold prefix_match. rewrite Hclean, canonical_map, List.map_app, Hmap.
    apply existsb_exists. apply existsb_exists in Hprefix as (p & Hp & Hs).
    exists p. split; [exact Hp | now apply startswith_app_l]. }
  destruct v as [|c v]; [contradiction|].
  cbn [app license_is_open]. cbn [app] in Hopen. now rewrite Hopen.
Qed.

(** *** Letter case does not matter *)

Lemma fold_blind_all :
  forallb (fun x => forallb (fold_blind x) all_chars) all_chars = true.
Proof. vm_compute. reflexivity. Qed.

Lemma lower_char_blind (x y : ascii) :
  lower_char x = lower_char y ->
  Ascii.eqb x "<" = Ascii.eqb y "<"
  /\ Ascii.eqb x ">" = Ascii.eqb y ">"
  /\ isspace x = isspace y.
Proof.
  intros H. pose proof fold_blind_all as Hall.
  rewrite forallb_forall in Hall. specialize (Hall x (all_chars_complete x)).
  rewrite forallb_forall in Hall. specialize (Hall y (all_chars_complete y)).
  unfold fold_blind in Hall. rewrite H, Ascii.eqb_refl in Hall. cbn [implb] in Hall.
  apply andb_true_iff in Hall as [Hall H3].
  apply andb_true_iff in Hall as [H1 H2].
  apply Bool.eqb_prop in H1, H2, H3. now repeat split.
Qed.

Lemma lower_cons_inv (x : ascii) (a b : text) :
  lower (x :: a) = lower b ->
  exists y b', b = y :: b' /\ lower_char x = lower_char y /\ lower a = lower b'.
Proof.
  destruct b as [|y b']; [discriminate|]. cbn [lower List.map]. intros H.
  injection H as Hc Hr. now exists y, b'.
Qed.

Lemma lower_cons (c : ascii) (s : text) :
  lower (c :: s) = lower_char c :: lower s.
Proof. reflexivity. Qed.

Lemma lower_nil_inv (b : text) : lower [] = lower b -> b = [].
Proof. now destruct b. Qed.

Lemma has_gt_blind (a : text) : forall b : text,
  lower a = lower b ->
  existsb (Ascii.eqb ">") a = existsb (Ascii.eqb ">") b.
Proof.
  induction a as [|x a IH]; intros b H.
  - now rewrite (lower_nil_inv b H).
  - destruct (lower_cons_inv x a b H) as (y & b' & -> & Hc & Hr).
    cbn [existsb]. destruct (lower_char_blind x y Hc) as (_ & Hgt & _).
    rewrite (Ascii.eqb_sym ">" x), (Ascii.eqb_sym ">" y), Hgt. f_equal.
    now apply IH.
Qed.

Lemma tag_opens_blind (a b : text) :
  lower a = lower b -> tag_opens a = tag_opens b.
Proof.
  destruct a as [|x a]; intros H.
  - now rewrite (lower_nil_inv b H).
  - destruct (lower_cons_inv x a b H) as (y & b' & -> & Hc & Hr).
    cbn [tag_opens]. destruct (lower_char_blind x y Hc) as (_ & -> & _).
    now rewrite (has_gt_blind a b' Hr).
Qed.

Lemma sub_tags_blind (a : text) : forall (b : text) (in_tag : bool),
  lower a = lower b -> lower (sub_tags in_tag a) = lower (sub_tags in_tag b).
Proof.
  induction a as [|x a IH]; intros b in_tag H.
  - now rewrite (lower_nil_inv b H).
  - destruct (lower_cons_inv x a b H) as (y & b' & -> & Hc & Hr).
    cbn [sub_tags]. destruct (lower_char_blind x y Hc) as (Hlt & Hgt & _).
    rewrite Hlt, Hgt, (tag_opens_blind a b' Hr).
    destruct in_tag.
    + destruct (Ascii.eqb y ">"); now apply IH.
    + destruct (Ascii.eqb y "<" && tag_opens b'); rewrite !lower_cons;
        f_equal; try assumption; now apply IH.
Qed.

Lemma sub_ws_blind (a : text) : forall (b : text) (in_ws : bool),
  lower a = lower b -> lower (sub_ws in_ws a) = lower (sub_ws in_ws b).
Proof.
  induction a as [|x a IH]; intros b in_ws H.
  - now rewrite (lower_nil_inv b H).
  - destruct (lower_cons_inv x a b H) as (y & b' & -> & Hc & Hr).
    cbn [sub_ws]. destruct (lower_char_blind x y Hc) as (_ & _ & ->).
    destruct (isspace y).
    + destruct in_ws; [now apply IH|]. rewrite !lower_cons. f_equal.
      now apply IH.
    + rewrite !lower_cons. f_equal; [assumption | now apply IH].
Qed.

Lemma lstrip_blind (a : text) : forall b : text,
  lower a = lower b -> lower (lstrip a) = lower (lstrip b).
Proof.
  induction a as [|x a IH]; intros b H.
  - now rewrite (lower_nil_inv b H).
  - destruct (lower_cons_inv x a b H) as (y & b' & -> & Hc & Hr).
    cbn [lstrip]. destruct (lower_char_blind x y Hc) as (_ & _ & ->).
    destruct (isspace y); [now apply IH | exact H].
Qed.

Lemma rstrip_blind (a : text) : forall b : text,
  lower a = lower b -> lower (rstrip a) = lower (rstrip b).
Proof.
  induction a as [|x a IH]; intros b H.
  - now rewrite (lower_nil_inv b H).
  - destruct (lower_cons_inv x a b H) as (y & b' & -> & Hc & Hr).
    cbn [rstrip]. destruct (lower_char_blind x y Hc) as (_ & _ & ->).
    specialize (IH b' Hr).
    destruct (rstrip a) as [|r rs], (rstrip b') as [|r' rs'];
      try discriminate.
    + destruct (isspace y); [reflexivity|]. rewrite !lower_cons. now f_equal.
    + rewrite !lower_cons. now f_equal.
Qed.

Lemma cleaned_blind (a b : text) :
  lower a = lower b -> lower (cleaned a) = lower (cleaned b).
Proof.
  intros H. unfold cleaned, strip.
  now apply rstrip_blind, lstrip_blind, sub_ws_blind, sub_tags_blind.
Qed.

(** X17.  The classifier does not look at letter case: two texts that
    [lower] makes equal are classified alike. *)
Theorem license_case_blind (a b : text) :
  lower a = lower b ->
  license_is_open (Some a) = license_is_open (Some b).
Proof.
  intros H. destruct a as [|x a].
  { now rewrite (lower_nil_inv b H). }
  destruct (lower_cons_inv x a b H) as (y & b' & -> & _ & _).
  cbn [license_is_open].
  pose proof (cleaned_blind _ _ H) as Hc.
  unfold prefix_match, phrase_match, canonical. now rewrite Hc.
Qed.

End LicensingMoreFacts.

(* --------------------------------------------------------------------- *)
(** ** The counters of a run and the status column                        *)
(* --------------------------------------------------------------------- *)

Module BrowseFacts.
Import Text SourcesBase Pipeline Vocabulary Passes Browse.
Import PassFacts.

(** Decimal digits are no letters. *)
Lemma digits_no_r (d : Decimal.uint) :
  Forall (fun c => c <> "r"%char)
    (txt (DecimalString.NilEmpty.string_of_uint d)).
Proof.
  induction d; cbn [DecimalString.NilEmpty.string_of_uint txt list_ascii_of_string];
    constructor; try discriminate; assumption.
Qed.

Lemma format_mb_no_r (file_bytes : Z) :
  Forall (fun c => c <> "r"%char) (format_mb file_bytes).
Proof.
  unfold format_mb.
  assert (H : forall d, Forall (fun c => c <> "r"%char)
                          (txt (DecimalString.NilZero.string_of_uint d))).
  { intros d. unfold DecimalString.NilZero.string_of_uint.
    destruct d; try apply digits_no_r. repeat constructor. discriminate. }
  destruct (file_bytes <? 0); [|apply H].
  cbn [txt list_ascii_of_string app]. constructor; [discriminate | apply H].
Qed.

Lemma contains_skip (p d rest : text) (a : ascii) :
  Forall (fun c => c <> a) d ->
  contains (a :: p) (d ++ rest) = contains (a :: p) rest.
Proof.
  induction 1 as [|c d Hc _ IH]; [reflexivity|].
  cbn [app contains startswith]. apply Ascii.eqb_neq in Hc. rewrite Hc.
  cbn [andb orb]. exact IH.
Qed.

Lemma oversized_notes_plain (file_bytes : Z) :
  contains (txt "restricted") (oversized_notes file_bytes) = false.
Proof.
  unfold oversized_notes. pose proof (format_mb_no_r file_bytes) as H.
  set (digits := format_mb file_bytes) in *. clearbody digits.
  change (txt "restricted") with ("r"%char :: txt "estricted").
  change (txt "oversized (" ++ digits ++ txt " MB)")
    with (txt "ove" ++ "r"%char :: txt "sized (" ++ digits ++ txt " MB)").
  rewrite (contains_skip _ (txt "ove")) by (repeat constructor; discriminate).
  cbn [contains startswith txt list_ascii_of_string].
  change (Ascii.eqb "r" "r") with true.
  change (Ascii.eqb "s" "e") with false. cbn [andb orb].
  change ("s"%char :: "i"%char :: "z"%char :: "e"%char :: "d"%char :: " "%char
          :: "("%char :: digits ++ txt " MB)")
    with (txt "sized (" ++ digits ++ txt " MB)").
  rewrite (contains_skip _ (txt "sized (")) by (repeat constructor; discriminate).
  rewrite (contains_skip _ digits) by exact H.
  reflexivity.
Qed.

(** The rows a sequence of turns adds are rows as the turns write them. *)
Lemma passes_kinds (sys : Platform.t) (st0 st : World * Stats) :
  rtc (pass sys) st0 st ->
  exists added,
    store (fst st) = store (fst st0) ++ added /\ Forall (row_kind sys) added.
Proof.
  intros H.
  apply (rtc_ind_r (R := pass sys)
           (fun st => exists added,
              store (fst st) = store (fst st0) ++ added
              /\ Forall (row_kind sys) added) st0); [| |exact H].
  { exists []. now rewrite app_nil_r. }
  intros y z _ Hp (added & Hs & Hall).
  assert (Hsnoc : forall r, row_kind sys r ->
            exists added', store (fst y) ++ [r] = store (fst st0) ++ added'
                           /\ Forall (row_kind sys) added').
  { intros r Hr. exists (added ++ [r]). rewrite Hs, <- app_assoc.
    split; [reflexivity|]. apply Forall_app. split; [exact Hall|].
    now constructor. }
  inversion Hp as [w1 n1 w2 Hst E1 E2 | w1 n1 E1 E2
                  | w1 n1 w2 r Hfk Hlp Hnt Hst E1 E2
                  | w1 n1 w2 r b Hfk Hlp Hnt Hst E1 E2
                  | w1 n1 w2 r Hfk Hlp Hnt Hst E1 E2
                  | w1 n1 w2 r local Hfk Hlp Hnt Hst E1 E2];
    subst; cbn [fst snd] in *; try rewrite Hst.
  - now exists added.
  - now exists added.
  - apply Hsnoc. right. split; [exact Hlp | now left].
  - apply Hsnoc. right. split; [exact Hlp|]. right. left. now exists b.
  - apply Hsnoc. right. split; [exact Hlp|]. now right; right.
  - apply Hsnoc. left. now exists local.
Qed.

(** How the status column shows a row of each kind. *)
Lemma row_kind_shown (sys : Platform.t) (r : Models.File) :
  (forall p, Platform.relative_to_root sys p <> []) ->
  row_kind sys r ->
  shown_downloaded r = is_some (Models.local_path r)
  /\ shown_restricted r = bool_decide (Models.notes r = Some default_notes).
Proof.
  intros Hrel [(local & Hlp & Hnt) | (Hlp & [Hnt | [(b & Hnt) | Hnt]])];
    unfold shown_downloaded, shown_restricted, status_of; rewrite Hlp, Hnt.
  - specialize (Hrel local).
    destruct (Platform.relative_to_root sys local); [contradiction|].
    split; [reflexivity|]. symmetry. now apply bool_decide_eq_false.
  - split; [reflexivity|]. symmetry. now apply bool_decide_eq_false.
  - pose proof (oversized_notes_plain b) as Hplain.
    destruct (oversized_notes b) as [|c t] eqn:E; [discriminate|].
    rewrite Hplain. split; [reflexivity|]. symmetry.
    apply bool_decide_eq_false. rewrite <- E.
    unfold oversized_notes, default_notes, txt.
    cbn [list_ascii_of_string app]. discriminate.
  - split; [reflexivity|]. symmetry. now apply bool_decide_eq_true.
Qed.

Lemma filter_length_ext {A : Type} (f g : A -> bool) (P : A -> Prop)
    (l : list A) :
  (forall x, P x -> f x = g x) -> Forall P l ->
  length (List.filter f l) = length (List.filter g l).
Proof.
  intros Hfg. induction 1 as [|x l Hx _ IH]; [reflexivity|].
  cbn [List.filter]. rewrite (Hfg x Hx). destruct (g x); cbn [length]; lia.
Qed.

(** X18.  The totals a run returns are the totals of the status column: of
    the rows that [_process_hits] adds, as many are shown as "downloaded" by
    [browse] and [detail] as the run counts as downloaded, and as many are
    shown as "restricted" as it counts as restricted.  (The path of a
    downloaded file relative to the project root is taken not to be
    empty.) *)
Theorem counters_match_status (cfg : Settings.t) (sys : Platform.t)
    (source : BaseSource) (source_name : text) (hits : list DatasetHit)
    (size_cap : Z) (w : World) :
  (forall p, Platform.relative_to_root sys p <> []) ->
  let out := _process_hits cfg sys source source_name hits size_cap w in
  exists added,
    store (fst out) = store w ++ added
    /\ n_downloaded (snd out) = length (List.filter shown_downloaded added)
    /\ n_restricted (snd out) = length (List.filter shown_restricted added).
Proof.
  intros Hrel out.
  pose proof (process_hits_passes cfg sys source source_name size_cap hits w)
    as Hp. fold out in Hp.
  destruct (passes_ledger sys _ _ Hp) as (added & Hs & Hd & Hr & _).
  destruct (passes_kinds sys _ _ Hp) as (added' & Hs' & Hk).
  cbn [fst snd] in *.
  assert (added' = added) as ->.
  { rewrite Hs in Hs'. now apply app_inv_head in Hs'. }
  exists added. split; [exact Hs|].
  cbn [n_downloaded n_restricted no_stats] in Hd, Hr. rewrite Hd, Hr.
  unfold count_downloaded, count_restricted. split.
  - apply (filter_length_ext _ _ (row_kind sys)); [|exact Hk].
    intros r Hr'. symmetry. exact (proj1 (row_kind_shown sys r Hrel Hr')).
  - apply (filter_length_ext _ _ (row_kind sys)); [|exact Hk].
    intros r Hr'. symmetry. exact (proj2 (row_kind_shown sys r Hrel Hr')).
Qed.

End BrowseFacts.

(* --------------------------------------------------------------------- *)
(** ** File names from the Content-Disposition header                     *)
(* --------------------------------------------------------------------- *)

Module HeaderFacts.
Import Text TextMore DataverseApi.
Import ClassifierFacts QueriesFacts ParseFacts.

Lemma before_first_char_clean (c : ascii) (s : text) :
  ~ In c (before_first_char c s).
Proof.
  induction s as [|a s IH]; [intros []|]. cbn [before_first_char].
  destruct (Ascii.eqb a c) eqn:E; [intros []|].
  apply Ascii.eqb_neq in E. intros [H | H]; [congruence | now apply IH].
Qed.

Lemma before_first_char_app (c : ascii) (s rest : text) :
  ~ In c s -> before_first_char c (s ++ c :: rest) = s.
Proof.
  induction s as [|a s IH]; intros H; cbn [app before_first_char].
  - now rewrite Ascii.eqb_refl.
  - destruct (Ascii.eqb a c) eqn:E.
    + apply Ascii.eqb_eq in E. subst a. exfalso. apply H. now left.
    + f_equal. apply IH. intros Hin. apply H. now right.
Qed.

Lemma contains_after_first (p s : text) :
  contains p s = true -> exists rest, after_first p s = Some rest.
Proof.
  induction s as [|a s IH]; cbn [contains after_first];
    destruct (startswith _ p); intros H; try discriminate; eauto.
Qed.

Lemma lstrip_char_length (c : ascii) (s : text) :
  (length (lstrip_char c s) <= length s)%nat.
Proof.
  induction s as [|a s IH]; [cbn; lia|]. cbn [lstrip_char].
  destruct (Ascii.eqb a c); cbn [length]; lia.
Qed.

Lemma rstrip_char_length (c : ascii) (s : text) :
  (length (rstrip_char c s) <= length s)%nat.
Proof.
  induction s as [|a s IH]; [cbn; lia|]. cbn [rstrip_char].
  destruct (rstrip_char c s); [destruct (Ascii.eqb a c)|]; cbn [length] in *; lia.
Qed.

(** A text that [strip_char] leaves alone has no [c] in front, and
    [rstrip_char] leaves it alone, too. *)
Lemma strip_char_fixed (c : ascii) (s : text) :
  strip_char c s = s ->
  (forall rest, lstrip_char c (s ++ rest)
                = match s with [] => lstrip_char c rest | _ => s ++ rest end)
  /\ rstrip_char c s = s.
Proof.
  unfold strip_char. intros H. destruct s as [|a s].
  - split; [reflexivity | exact H].
  - cbn [lstrip_char] in H. destruct (Ascii.eqb a c) eqn:E.
    + exfalso. pose proof (rstrip_char_length c (lstrip_char c s)) as H1.
      pose proof (lstrip_char_length c s) as H2. rewrite H in H1.
      cbn [length] in H1. lia.
    + split; [|exact H]. intros rest. cbn [app lstrip_char]. now rewrite E.
Qed.

Lemma rstrip_char_snoc (c : ascii) (s : text) :
  rstrip_char c (s ++ [c]) = rstrip_char c s.
Proof.
  induction s as [|a s IH]; cbn [app rstrip_char].
  - now rewrite Ascii.eqb_refl.
  - now rewrite IH.
Qed.

(** [rstrip_char] does not reach behind a character other than [c]. *)
Lemma rstrip_char_behind (c x : ascii) (s rest : text) :
  x <> c -> exists kept, rstrip_char c (s ++ x :: rest) = s ++ x :: kept.
Proof.
  intros Hx. induction s as [|a s (kept & IH)]; cbn [app rstrip_char].
  - apply Ascii.eqb_neq in Hx. rewrite Hx.
    destruct (rstrip_char c rest) as [|r rs]; [now exists [] | now exists (r :: rs)].
  - rewrite IH. exists kept. now destruct s.
Qed.

Lemma rstrip_snoc_plain (x : ascii) (s : text) :
  isspace x = false -> rstrip (s ++ [x]) = s ++ [x].
Proof.
  intros Hx. induction s as [|a s IH]; cbn [app rstrip].
  - now rewrite Hx.
  - rewrite IH. now destruct s.
Qed.

(** X19.  [_name_from_headers] finds a name exactly when the
    Content-Disposition header holds "filename=": without it (and without
    the header) the result is [None]; with it the result is a name, and that
    name holds no semicolon and has no white space at either end. *)
Theorem name_from_headers_clean (cd : option text) :
  (contains (txt "filename=") (default [] cd) = false ->
   _name_from_headers cd = None)
  /\ (contains (txt "filename=") (default [] cd) = true ->
      exists found,
        _name_from_headers cd = Some found
        /\ ~ In ";"%char found /\ strip found = found).
Proof.
  unfold _name_from_headers. split; intros E; rewrite E; [reflexivity|].
  destruct (contains_after_first _ _ E) as (segment & ->).
  eexists. split; [reflexivity|]. split; [|apply strip_idem].
  intros H. apply strip_incl in H. now apply before_first_char_clean in H.
Qed.

(** X20.  Take a NAME that is not empty, holds no semicolon and has no
    quote, apostrophe or white space at either end, after a header text
    without [=].  A header that ends with [filename="NAME"], or with
    [filename=NAME], gives NAME.  But when a further parameter follows the
    quoted name, as in [filename="NAME"; size=3], the closing quote stays in
    the name: the result is NAME followed by a double quote. *)
Theorem name_from_headers_quoted (pre name rest : text) :
  ~ In "="%char pre -> name <> [] -> ~ In ";"%char name ->
  strip_char dquote name = name -> strip_char "'" name = name ->
  strip name = name ->
  _name_from_headers
    (Some (pre ++ txt "filename=" ++ [dquote] ++ name ++ [dquote]))
  = Some name
  /\ _name_from_headers (Some (pre ++ txt "filename=" ++ name)) = Some name
  /\ _name_from_headers
       (Some (pre ++ txt "filename=" ++ [dquote] ++ name ++ [dquote]
              ++ txt ";" ++ rest))
     = Some (name ++ [dquote]).
Proof.
  intros Hpre Hne Hsemi Hdq Hap Hws.
  destruct (strip_char_fixed dquote name Hdq) as (Hdl & Hdr).
  destruct (strip_char_fixed "'" name Hap) as (Hal & Har).
  assert (Hfound : forall tail,
            _name_from_headers (Some (pre ++ txt "filename=" ++ tail))
            = Some (strip (before_first_char ";"
                             (strip_char "'" (strip_char dquote tail))))).
  { intros tail. unfold _name_from_headers. cbn [default from_option id].
    change (txt "filename=") with (txt "filename" ++ ["="%char]).
    rewrite contains_app.
    rewrite after_first_app; [reflexivity | exact Hpre|].
    cbn. intuition discriminate. }
  assert (Hhead : match name with [] => True | c :: _ => isspace c = false end).
  { rewrite <- Hws. unfold strip. apply rstrip_head, lstrip_head. }
  assert (Hdl' : forall tail, lstrip_char dquote (name ++ tail) = name ++ tail).
  { intros tail. rewrite Hdl. now destruct name. }
  assert (Hal' : forall tail, lstrip_char "'" (name ++ tail) = name ++ tail).
  { intros tail. rewrite Hal. now destruct name. }
  split; [|split].
  - rewrite Hfound. f_equal. unfold strip_char at 2.
    cbn [app lstrip_char]. rewrite Ascii.eqb_refl.
    rewrite Hdl', rstrip_char_snoc, Hdr, Hap.
    now rewrite (before_first_char_absent ";" _ Hsemi).
  - rewrite Hfound. f_equal. rewrite Hdq, Hap.
    now rewrite (before_first_char_absent ";" _ Hsemi).
  - replace (pre ++ txt "filename=" ++ [dquote] ++ name ++ [dquote] ++ txt ";" ++ rest)
      with (pre ++ txt "filename=" ++ (dquote :: name ++ dquote :: ";"%char :: rest))
      by reflexivity.
    rewrite Hfound. f_equal. unfold strip_char at 2.
    cbn [lstrip_char]. rewrite Ascii.eqb_refl. rewrite Hdl'.
    destruct (rstrip_char_behind dquote ";" (name ++ [dquote]) rest
                ltac:(discriminate)) as (kept1 & Hk1).
    rewrite <- app_assoc in Hk1. cbn [app] in Hk1. rewrite Hk1.
    unfold strip_char. rewrite <- app_assoc, Hal'. cbn [app].
    destruct (rstrip_char_behind "'" ";" (name ++ [dquote]) kept1
                ltac:(discriminate)) as (kept2 & Hk2).
    rewrite <- app_assoc in Hk2. cbn [app] in Hk2. rewrite Hk2.
    replace (name ++ dquote :: ";"%char :: kept2)
      with ((name ++ [dquote]) ++ ";"%char :: kept2)
      by (now rewrite <- app_assoc).
    rewrite before_first_char_app.
    + unfold strip. rewrite lstrip_fixed.
      * apply rstrip_snoc_plain. reflexivity.
      * destruct name as [|c name']; [contradiction | exact Hhead].
    + intros H. apply in_app_or in H as [H | [H | []]]; [contradiction|].
      discriminate.
Qed.

End HeaderFacts.

(* --------------------------------------------------------------------- *)
(** ** The properties at concrete inputs                                  *)
(* --------------------------------------------------------------------- *)

Module MoreScenarios.
Import Text TextMore SourcesBase Pipeline Vocabulary Passes.
Import Fixture MoreFixtures.

Local Abbreviation qdr := (txt "qdr").

(** A transfer that breaks leaves its partial file on the disk, and no row
    and no count go with it. *)
Example failed_transfer_leaves_file :
  let out :=
    file_step cfg sys torn_source qdr _DEFAULT_SIZE_CAP ds_open ds_open
      (empty_world, no_stats) f_notes in
  store (fst out) = [] /\ snd out = no_stats
  /\ disk (fst out) !! txt "downloads/qdr/open-study-doi_10.1_A/notes.txt"
     = Some (bytes "he").
Proof. vm_compute. repeat split. Qed.

Lemma process_hits_keys_unique_witness :
  keys_unique
    (store (fst (_process_hits cfg sys source qdr [ds_open; ds_open]
                   _DEFAULT_SIZE_CAP empty_world))).
Proof.
  apply (PassFacts.process_hits_keys_unique cfg sys source qdr
           _DEFAULT_SIZE_CAP [ds_open; ds_open] empty_world).
  apply NoDup_nil. trivial.
Defined.

Lemma qda_dataset_passes_gates_witness :
  hit_step cfg sys source qdr _DEFAULT_SIZE_CAP (empty_world, no_stats) ds_project
  = fold_left (file_step cfg sys source qdr _DEFAULT_SIZE_CAP ds_project ds_project)
      [f_small_project] (empty_world, no_stats).
Proof.
  apply (GateFacts.qda_dataset_passes_gates cfg sys source qdr _DEFAULT_SIZE_CAP
           (empty_world, no_stats) ds_project ds_project f_small_project).
  - vm_compute. reflexivity.
  - vm_compute. reflexivity.
  - now left.
  - vm_compute. reflexivity.
Defined.

Lemma overview_other_after_runs_witness :
  let rows :=
    store (fst (_process_hits cfg sys source qdr [ds_open] _DEFAULT_SIZE_CAP
                  empty_world)) in
  Overview.other rows
  = Overview.count (fun r => negb (is_some (Models.local_path r))
                             && negb (Models.restricted r)) rows
  /\ 0 <= Overview.other rows.
Proof.
  apply (GateFacts.overview_other_after_runs cfg sys source qdr [ds_open]
           _DEFAULT_SIZE_CAP empty_world).
  reflexivity.
Defined.

Lemma run_source_keeps_store_unique_witness :
  let rows :=
    store (fst (Driver._run_source cfg sys source qdr
                  [txt "interview"; txt "qualitative"] (Some 1)
                  _DEFAULT_SIZE_CAP empty_world)) in
  (exists added, rows = store empty_world ++ added)
  /\ keys_unique rows /\ store_ok rows.
Proof.
  apply (RunFacts.run_source_keeps_store_unique cfg sys source qdr
           _DEFAULT_SIZE_CAP [txt "interview"; txt "qualitative"] (Some 1)
           empty_world).
  - apply NoDup_nil. trivial.
  - split; [intros r []|]. cbn. apply NoDup_nil. trivial.
Defined.

Lemma fed_hits_limit_witness :
  incl [ds_docs] [ds_closed; ds_docs; ds_open]
  /\ (length [ds_docs] <= Z.to_nat 1)%nat.
Proof.
  destruct (RunFacts.fed_hits_limit source (Some 1)
              [txt "interview"; txt "qualitative"] 1 (txt "qualitative")
              [ds_closed; ds_docs; ds_open] [ds_docs])
    as (Hincl & Hcap & _).
  - reflexivity.
  - vm_compute. reflexivity.
  - vm_compute. reflexivity.
  - split; [exact Hincl|]. apply (Hcap 1); [reflexivity | lia].
Defined.

Lemma find_url_fetched_by_global_id_witness :
  DataverseApi.metadata_request_of
    (source_url (DataverseApi.hit_of_item (txt "https://data.qdr.syr.edu") qdr
                   item_doi))
  = DataverseApi.ByPersistentId (txt "doi:10.1/A").
Proof.
  apply (ParseFacts.find_url_fetched_by_global_id
           (txt "https://data.qdr.syr.edu") qdr item_doi (txt "doi:10.1/A")).
  - reflexivity.
  - discriminate.
  - cbn. intuition discriminate.
  - cbn. intuition discriminate.
Defined.

Lemma read_query_list_from_file_witness :
  Queries._read_query_list read_text (Some (txt "queries.txt"))
    (Some (txt "ignored"))
  = Some [txt "interview study"; txt "focus group"].
Proof.
  destruct (QueriesFacts.read_query_list_from_file read_text (txt "queries.txt")
              (Some (txt "ignored")) queries_file)
    as (queries & Hq & _).
  - discriminate.
  - vm_compute. reflexivity.
  - rewrite Hq. vm_compute in Hq. now injection Hq as <-.
Defined.

Lemma collect_all_outcome_witness :
  let st := Collect.collect_all run [qdr; txt "osf"] 2 in
  Collect.results st !! txt "osf"
  = Some (Collect.ok_entry
            {| n_downloaded := 2; n_restricted := 1; n_skipped := 0 |})
  /\ Collect.passes_of (txt "osf") st = [0; 1; 2]%nat.
Proof.
  assert (Hnd : List.NoDup [qdr; txt "osf"]).
  { constructor; [|constructor; [intros [] | constructor]].
    intros [H | []]. discriminate. }
  destruct (CollectFacts.collect_all_outcome run [qdr; txt "osf"] 2 (txt "osf")
              Hnd ltac:(right; now left))
    as ([(j & totals & Hj & Hall & Hok & He & Hps)
        | (Hall & _)] & _).
  - assert (Hj2 : j = 2%nat).
    { assert (Hc : j = 0%nat \/ j = 1%nat \/ j = 2%nat)
        by (change (Z.to_nat 2) with 2%nat in Hj; lia).
      destruct Hc as [-> | [-> | ->]]; [discriminate | discriminate | reflexivity]. }
    subst j. cbv zeta. rewrite He, Hps.
    vm_compute in Hok. injection Hok as <-. split; reflexivity.
  - exfalso. exact (Hall 2%nat ltac:(reflexivity)).
Defined.

Lemma license_prefix_then_anything_witness :
  Licensing.license_is_open
    (Some (txt "MIT" ++ txt "igation required, all rights reserved")) = true.
Proof.
  apply (LicensingMoreFacts.license_prefix_then_anything (txt "mit") (txt "MIT")).
  - vm_compute. tauto.
  - discriminate.
  - repeat constructor.
Defined.

Lemma license_case_blind_witness :
  Licensing.license_is_open (Some (txt "Creative Commons Attribution"))
  = Licensing.license_is_open (Some (txt "CREATIVE commons ATTRIBUTION")).
Proof.
  apply LicensingMoreFacts.license_case_blind. reflexivity.
Defined.

Lemma counters_match_status_witness :
  let out :=
    _process_hits cfg sys_rel source qdr [ds_open] _DEFAULT_SIZE_CAP empty_world in
  exists added,
    store (fst out) = store empty_world ++ added
    /\ n_downloaded (snd out)
       = length (List.filter Browse.shown_downloaded added)
    /\ n_restricted (snd out)
       = length (List.filter Browse.shown_restricted added).
Proof.
  apply (BrowseFacts.counters_match_status cfg sys_rel source qdr [ds_open]
           _DEFAULT_SIZE_CAP empty_world).
  intros p. destruct p; discriminate.
Defined.

Lemma name_from_headers_quoted_witness :
  DataverseApi._name_from_headers
    (Some (txt "attachment; filename=" ++ [dquote] ++ txt "a b.txt" ++ [dquote]
           ++ txt "; size=3"))
  = Some (txt "a b.txt" ++ [dquote]).
Proof.
  refine (proj2 (proj2 (HeaderFacts.name_from_headers_quoted
            (txt "attachment; ") (txt "a b.txt") (txt " size=3") _ _ _ _ _ _))).
  - cbn. intuition discriminate.
  - discriminate.
  - cbn. intuition discriminate.
  - reflexivity.
  - reflexivity.
  - reflexivity.
Defined.

End MoreScenarios.
